(** * ImpulseSim: impulse-based collision handling of myphysicslab's 2D engine

    A shallow embedding of [src/lab/engine2D/ImpulseSim.js]: the influence
    function, the collision matrix, the impulse applier and the simultaneous
    and serial collision handlers, followed by the properties proved about
    them.

    Numbers.  JavaScript numbers are modelled by exact rationals [Q]; the
    value [+Infinity], which the engine uses for the mass of immovable
    bodies, is the constructor [Inf] of [ExtQ].  Rounding, [NaN] and
    overflow are outside the model.  A property that follows the code
    operation by operation is the same in both; a law that composes several
    arithmetic steps (symmetry of the matrix, conservation of momentum, the
    collision laws) is proved over exact arithmetic and says so. *)

From Stdlib Require Import ZArith QArith Qabs List Bool Lia Lqa.
Import ListNotations.
Open Scope Q_scope.

(** ** Numbers *)

(** A number that is either finite or [+Infinity] (masses and moments). *)
Inductive ExtQ : Type :=
| Fin (q : Q)
| Inf.

Definition isFinite (m : ExtQ) : bool :=
  match m with Fin _ => true | Inf => false end.

(** [x / m] for a finite numerator: division by [+Infinity] gives 0.  A
    mass or moment of 0, for which the division of the code gives
    [Infinity] or [NaN], is outside the model. *)
Definition Qdiv_ext (x : Q) (m : ExtQ) : Q :=
  match m with Fin q => x / q | Inf => 0 end.

Notation "x // m" := (Qdiv_ext x m) (at level 40, left associativity) : Q_scope.

Definition Qlt_bool (x y : Q) : bool := negb (Qle_bool y x).

(** [ImpulseSim.TINY_IMPULSE = 1E-12] *)
Definition TINY_IMPULSE : Q := 1 # 1000000000000.

(** [ImpulseSim.SMALL_IMPULSE = 1E-4] *)
Definition SMALL_IMPULSE : Q := 1 # 10000.

(** ** Data model *)

(** [myphysicslab.lab.util.Vector] *)
Record Vector : Type := mkVector { getX : Q; getY : Q }.

(** A reference to a rigid body object; [==] on bodies compares references. *)
Definition BodyRef : Type := nat.

(** What the collision core reads of a [RigidBody]. *)
Record RigidBody : Type := mkRigidBody {
  getMass : ExtQ;
  momentAboutCM : ExtQ;
  getVarsIndex : Z
}.

(** [RigidBodyCollision]: one contact point.  [oid] is the identity of the
    object ([==] on collisions compares references). *)
Record RigidBodyCollision : Type := mkCollision {
  oid : nat;
  primaryBody : BodyRef;
  normalBody : BodyRef;
  r1 : Vector;
  r2 : Vector;
  normal : Vector;
  normalVelocity : Q;
  getElasticity : Q;
  joint : bool;
  impulse : Q
}.

Definition set_impulse (cd : RigidBodyCollision) (j : Q) : RigidBodyCollision :=
  mkCollision (oid cd) (primaryBody cd) (normalBody cd) (r1 cd) (r2 cd)
    (normal cd) (normalVelocity cd) (getElasticity cd) (joint cd) j.

(** [myphysicslab.lab.engine2D.CollisionHandling] *)
Inductive CollisionHandling : Type :=
| SIMULTANEOUS
| HYBRID
| SERIAL_SEPARATE
| SERIAL_GROUPED
| SERIAL_SEPARATE_LASTPASS
| SERIAL_GROUPED_LASTPASS.

(** Matrices are arrays of rows. *)
Definition Matrix : Type := list (list Q).

Definition entry (A : Matrix) (i k : nat) : Q := nth k (nth i A []) 0.

Section Influence.

(** The rigid body objects, by reference. *)
Variable body : BodyRef -> RigidBody.

(** [ImpulseSim.prototype.influence] *)
Definition influence (ci cj : RigidBodyCollision) (bod : BodyRef) : Q :=
  if negb (isFinite (getMass (body bod))) then 0
  else
    match (if Nat.eqb (primaryBody ci) bod then Some (r1 ci)
           else if Nat.eqb (normalBody ci) bod then Some (r2 ci)
           else None) with
    | None => 0
    | Some ri =>
      match (if Nat.eqb (primaryBody cj) bod then Some (r1 cj, 1)
             else if Nat.eqb (normalBody cj) bod then Some (r2 cj, -1)
             else None) with
      | None => 0
      | Some (rj, factor) =>
        factor * (
          getX (normal ci) * (getX (normal cj) // getMass (body bod)
            - (getY ri * (getX rj * getY (normal cj) - getY rj * getX (normal cj)))
                // momentAboutCM (body bod))
          + getY (normal ci) * (getY (normal cj) // getMass (body bod)
            + (getX ri * (getX rj * getY (normal cj) - getY rj * getX (normal cj)))
                // momentAboutCM (body bod)))
      end
    end.

(** The influence function in the words of the specification (section 4.1). *)
Definition involves (c : RigidBodyCollision) (B : BodyRef) : bool :=
  Nat.eqb B (primaryBody c) || Nat.eqb B (normalBody c).

Definition offset_of (c : RigidBodyCollision) (B : BodyRef) : Vector :=
  if Nat.eqb B (primaryBody c) then r1 c else r2 c.

Definition cross (r n : Vector) : Q := getX r * getY n - getY r * getX n.

Definition influence_spec (ci cj : RigidBodyCollision) (B : BodyRef) : Q :=
  if negb (isFinite (getMass (body B))) || negb (involves ci B) || negb (involves cj B)
  then 0
  else
    let n_i := normal ci in
    let n_j := normal cj in
    let m := getMass (body B) in
    let I := momentAboutCM (body B) in
    let r_i := offset_of ci B in
    let r_j := offset_of cj B in
    let factor := if Nat.eqb B (primaryBody cj) then 1 else -1 in
    factor * (getX n_i * (getX n_j // m - (getY r_i * cross r_j n_j) // I)
              + getY n_i * (getY n_j // m + (getX r_i * cross r_j n_j) // I)).

(** [ImpulseSim.prototype.makeCollisionMatrix]: every entry of the
    [Float64Array] rows starts at 0, then [+=] and [-=] one influence each. *)
Definition makeCollisionMatrix (collisions : list RigidBodyCollision) : Matrix :=
  map (fun ci =>
         map (fun cj => 0 + influence ci cj (primaryBody ci)
                          - influence ci cj (normalBody ci))
             collisions)
      collisions.

End Influence.

(** ** Simulation state *)

(** One variable of the [VarsList]: its value and its sequence number. *)
Record SimVar : Type := mkVar { value : Q; sequence : nat }.

Definition VarsList : Type := Z -> SimVar.

Definition getValue (va : VarsList) (idx : Z) : Q := value (va idx).

(** Modelled from the spec: [VarsList] is not under src.  [setValue] stores
    the value; unless the change is marked continuous it also bumps the
    sequence number of the variable (section 4.4). *)
Definition setValue (va : VarsList) (idx : Z) (v : Q) (continuous : bool) : VarsList :=
  fun i =>
    if Z.eqb i idx
    then mkVar v (if continuous then sequence (va idx) else S (sequence (va idx)))
    else va i.

(** Modelled from the spec: [VarsList.incrSequence] is not under src; it
    marks a discontinuous change of the named variables. *)
Definition incrSequence (va : VarsList) (indexes : list Z) : VarsList :=
  fun i =>
    if existsb (Z.eqb i) indexes
    then mkVar (value (va i)) (S (sequence (va i)))
    else va i.

(** Lines written to the console: the notice of a panic relaxation, the
    diagnostic of the loop ceiling and the warning about the solver.  The
    listings printed under [debugHCS] and the notice of many loops are not
    modelled. *)
Inductive LogEntry : Type :=
| LoopPanic (loopCtr : Z) (small_velocity : Q)
| LoopLimit (loopCtr : Z)
| SolverWarning (error : Z).

(** The errors thrown by the collision core. *)
Inductive Error : Type :=
| EmptyArray
| Inconsistent
| NegativeImpulse (j : Q)
| ComputeImpulsesFailed (error : Z).

Inductive Completion (A : Type) : Type :=
| Return (a : A)
| Throw (e : Error).

Arguments Return {A} a.
Arguments Throw {A} e.

Definition zeros (n : nat) : list Q := repeat 0 n.

(** Array write [l[i] = v] at an index inside the array. *)
Fixpoint list_update {A : Type} (l : list A) (i : nat) (v : A) : list A :=
  match l, i with
  | [], _ => []
  | _ :: t, O => v :: t
  | h :: t, S i' => h :: list_update t i' v
  end.

(** Modelled from the spec: [UtilEngine.matrixMultiply] and
    [UtilEngine.vectorAdd] are not under src; together they form the
    post-solve vector [a = A j + b] of section 4.3. *)
Definition matrixMultiply (A : Matrix) (x : list Q) : list Q :=
  map (fun row =>
         fold_left (fun r k => r + nth k row 0 * nth k x 0) (seq 0 (length x)) 0)
      A.

Definition vectorAdd (u v : list Q) : list Q :=
  map (fun k => nth k u 0 + nth k v 0) (seq 0 (length u)).

(** [goog.array.findIndex(collisions, function(element) { return element == c; })] *)
Fixpoint findIndex (c : RigidBodyCollision) (collisions : list RigidBodyCollision)
  : option nat :=
  match collisions with
  | [] => None
  | element :: rest =>
      if Nat.eqb (oid element) (oid c) then Some O
      else option_map S (findIndex c rest)
  end.

(** ** A concrete set of collaborators

    The solver, the generator and the collision methods that live outside
    [ImpulseSim.js] are parameters of the handlers below.  [Demo] gives one
    concrete choice of each, used to run the handlers on explicit scenes. *)
Module Demo.

(** The offsets of the velocity variables inside the block of a body. *)
Definition VX_ : Z := 1.
Definition VY_ : Z := 3.
Definition VW_ : Z := 5.

(** Bodies 1 and 2 are unit disks; every other body is an immovable wall.
    Body [k] owns the six variables from [4 + 6 k]. *)
Definition body (r : BodyRef) : RigidBody :=
  match r with
  | 1%nat | 2%nat => mkRigidBody (Fin 1) (Fin 1) (4 + 6 * Z.of_nat r)
  | _ => mkRigidBody Inf Inf (4 + 6 * Z.of_nat r)
  end.

(** Modelled from the spec: [RandomLCG] is not under src.  The state of
    this generator is a counter, and [randomInts n] lists the integers below
    [n] in an order that changes with every call. *)
Definition Random : Type := N.

Definition randomInts (r : Random) (n : nat) : list nat * Random :=
  let k := N.to_nat (r mod N.of_nat n) in
  (firstn n (seq k (n - k) ++ seq 0 k), N.succ r).

(** Modelled from the spec: [ComputeForces] is not under src.  This solver
    handles the systems of one row with a positive coefficient, for which
    the contract of section 4.3 has exactly one solution; on any other
    system it leaves the impulses as they are and reports row 0. *)
Definition compute_forces (A : Matrix) (f b : list Q) (joint_ : list bool)
    (debugCF : bool) (t : Q) (r : Random) : list Q * Z * Random :=
  match A with
  | [[a]] =>
      if Qlt_bool 0 a then
        if nth 0 joint_ false || Qlt_bool (nth 0 b 0) 0
        then ([- nth 0 b 0 / a], (-1)%Z, r)
        else ([0], (-1)%Z, r)
      else (f, 0%Z, r)
  | _ => (f, 0%Z, r)
  end.

(** Modelled from the spec: [ComputeForces.checkForceAccel] is not under
    src; [|a[i]|] is within the tolerance on joint rows and on non-joint
    rows with [j[i] > 0] (section 4.3). *)
Definition checkForceAccel (tolerance : Q) (force accel : list Q)
    (joint_ : list bool) : bool :=
  forallb
    (fun i =>
       if nth i joint_ false || Qlt_bool 0 (nth i force 0)
       then Qle_bool (Qabs (nth i accel 0)) tolerance
       else true)
    (seq 0 (length force)).

(** Modelled from the spec: [UtilityCollision.subsetCollisions2] is not
    under src.  In a scene without joints, and without the hybrid option,
    the subset of a focus collision is that collision alone. *)
Definition subsetCollisions2 (superset : list RigidBodyCollision)
    (startC : RigidBodyCollision) (hybrid : bool) (v : list Q) (minVelocity : Q)
  : list RigidBodyCollision :=
  [startC].

(** Modelled from the spec: [RigidBodyCollision.contact] is not under src.
    By the comments of [ImpulseSim.js] (joints and contacts have zero
    elasticity; [velocityTol_], 0.5 by default: a contact point must have
    relative normal velocity smaller than this), a joint is a contact, and
    so is a collision whose relative normal velocity is below the velocity
    tolerance. *)
Definition contact (c : RigidBodyCollision) : bool :=
  joint c || Qlt_bool (Qabs (normalVelocity c)) (1 # 2).

Definition checkConsistent (c : RigidBodyCollision) : bool := true.

(** All variables zero. *)
Definition vars0 : VarsList := fun _ => mkVar 0 0.

(** Disk 1 touching wall 0; the normal points out of the wall. *)
Definition disk_on_wall (nv e : Q) : RigidBodyCollision :=
  mkCollision 0%nat 1%nat 0%nat (mkVector (-1) (1 # 2)) (mkVector 0 0)
    (mkVector 1 0) nv e false 0.

(** Disk 2 on disk 1, as a contact or as a joint. *)
Definition disk_on_disk (nv e : Q) (jt : bool) : RigidBodyCollision :=
  mkCollision 1%nat 2%nat 1%nat (mkVector 0 (-1)) (mkVector 1 1)
    (mkVector 0 1) nv e jt 0.

(** Disk 1 squeezed between wall 0 on its left and wall 3 on its right,
    moving left at speed [v], and three contact points of disk 2, which is
    leaving wall 0 at speed 1. *)
Definition squeezed_left (v : Q) : RigidBodyCollision :=
  mkCollision 0%nat 1%nat 0%nat (mkVector (-1) 0) (mkVector 0 0) (mkVector 1 0)
    (- v) 1 false 0.

Definition squeezed_right (v : Q) : RigidBodyCollision :=
  mkCollision 1%nat 1%nat 3%nat (mkVector 1 0) (mkVector 0 0) (mkVector (-1) 0)
    v 1 false 0.

Definition leaving (k : nat) : RigidBodyCollision :=
  mkCollision k 2%nat 0%nat (mkVector (-1) 0) (mkVector 0 0) (mkVector 1 0)
    1 1 false 0.

Definition squeezed (v : Q) : list RigidBodyCollision :=
  [squeezed_left v; squeezed_right v; leaving 2; leaving 3; leaving 4].

(** A speed of [2^1000], about [1.07e301]. *)
Definition speed : Q := inject_Z (2 ^ 1000).

(** The velocities [b] of the squeezed disk when it moves left and when it
    moves right, and the impulse that turns it around. *)
Definition b_left : list Q := [- speed; speed; 1; 1; 1].
Definition b_right : list Q := [speed; - speed; 1; 1; 1].
Definition turn : Q := inject_Z (2 ^ 1001).

(** The tolerance after [k] doublings. *)
Definition tolerance (k : Z) : Q := Qmake (2 ^ k) 100000.


(** Disk 1 moving along x with velocity [vx], everything else at rest. *)
Definition moving (vx : Q) : VarsList :=
  fun i => mkVar (if Z.eqb i 11 then vx else 0) 0.
(** Disk 1 moving along x with velocity [v1] and disk 2 with velocity
    [v2]. *)
Definition moving2 (v1 v2 : Q) : VarsList :=
  fun i => mkVar (if Z.eqb i 11 then v1 else if Z.eqb i 17 then v2 else 0) 0.

(** Disk 2 touching wall 0. *)
Definition second_on_wall (nv e : Q) : RigidBodyCollision :=
  mkCollision 1%nat 2%nat 0%nat (mkVector (-1) 0) (mkVector 0 0) (mkVector 1 0)
    nv e false 0.

(** Modelled from the spec: [ComputeForces] is not under src.  This solver
    handles the systems whose matrix is diagonal with a positive diagonal,
    where every row is solved by itself; on any other system it leaves the
    impulses as they are and reports row 0. *)
Definition solve_rows (A : Matrix) (f b : list Q) (joint_ : list bool)
    (debugCF : bool) (t : Q) (r : Random) : list Q * Z * Random :=
  let n := length A in
  if forallb
       (fun i =>
          forallb
            (fun k => if Nat.eqb i k then Qlt_bool 0 (entry A i k)
                      else Qeq_bool (entry A i k) 0)
            (seq 0 n))
       (seq 0 n)
  then
    (map (fun i =>
            if nth i joint_ false || Qlt_bool (nth i b 0) 0
            then - nth i b 0 / entry A i i else 0)
         (seq 0 n),
     (-1)%Z, r)
  else (f, 0%Z, r).

End Demo.

Section Engine.

(** The rigid body objects, by reference. *)
Variable body : BodyRef -> RigidBody.

(** [RigidBodySim.VX_], [RigidBodySim.VY_], [RigidBodySim.VW_]: offsets of the
    velocity variables of a body in the [VarsList]. *)
Variables VX_ VY_ VW_ : Z.

(** [goog.DEBUG] *)
Variable goog_DEBUG : bool.

(** [myphysicslab.lab.util.Random]: the state of the generator and
    [randomInts(n)], which returns the integers below [n] in random order. *)
Variable Random : Type.
Variable randomInts : Random -> nat -> list nat * Random.

(** [ComputeForces.prototype.compute_forces(A, f, b, joint, debugCF, time)]:
    returns the impulses written to [f] and the error code (-1 on success);
    the solver draws from the generator of the simulation. *)
Variable compute_forces :
  Matrix -> list Q -> list Q -> list bool -> bool -> Q -> Random ->
  list Q * Z * Random.

(** [ComputeForces.checkForceAccel(tolerance, force, accel, joint)] *)
Variable checkForceAccel : Q -> list Q -> list Q -> list bool -> bool.

(** [UtilityCollision.subsetCollisions2(superset, startC, hybrid, v, minVelocity)] *)
Variable subsetCollisions2 :
  list RigidBodyCollision -> RigidBodyCollision -> bool -> list Q -> Q ->
  list RigidBodyCollision.

(** [RigidBodyCollision.prototype.contact] and
    [RigidBodyCollision.prototype.checkConsistent] (false: an assertion fails) *)
Variable contact : RigidBodyCollision -> bool.
Variable checkConsistent : RigidBodyCollision -> bool.

(** The fields of the simulation that collision handling reads or writes.
    [vars] is [getVarsList()], [time] is [getTime()], [debugCircles] are the
    [COLLISION] dots handed to [debugCircle], by [|5 j|]. *)
Record Sim : Type := mkSim {
  vars : VarsList;
  simRNG_ : Random;
  collisionHandling_ : CollisionHandling;
  showCollisionDot_ : bool;
  time : Q;
  debugCircles : list Q
}.

Definition set_vars (s : Sim) (va : VarsList) : Sim :=
  mkSim va (simRNG_ s) (collisionHandling_ s) (showCollisionDot_ s) (time s)
    (debugCircles s).

Definition set_simRNG (s : Sim) (r : Random) : Sim :=
  mkSim (vars s) r (collisionHandling_ s) (showCollisionDot_ s) (time s)
    (debugCircles s).

Definition debugCircle (s : Sim) (w : Q) : Sim :=
  mkSim (vars s) (simRNG_ s) (collisionHandling_ s) (showCollisionDot_ s) (time s)
    (w :: debugCircles s).

(** What a call leaves behind: the simulation, the collisions (with their
    [impulse] fields), the totals counter, the console lines written (newest
    first) and how the call completed. *)
Record Result : Type := mkResult {
  res_sim : Sim;
  res_collisions : list RigidBodyCollision;
  res_totals : option nat;
  res_console : list LogEntry;
  res_completion : Completion bool
}.

(** ** The impulse applier *)

(** The part of [applyImpulse] after the sign check: records the impulse
    and changes the velocities of the finite-mass bodies. *)
Definition applyImpulse_record (s : Sim) (cd : RigidBodyCollision) (j : Q)
  : Sim * Completion RigidBodyCollision :=
  let cd := set_impulse cd j in
  if Qeq_bool j 0 then (s, Return cd)
  else
    let continuous := Qlt_bool (Qabs j) SMALL_IMPULSE in
    let va := vars s in
    let m := getMass (body (primaryBody cd)) in
    let va :=
      if isFinite m then
        let I := momentAboutCM (body (primaryBody cd)) in
        let offset := getVarsIndex (body (primaryBody cd)) in
        if Z.ltb (-1) offset then
          let idx := (VX_ + offset)%Z in
          let va := setValue va idx (getValue va idx + (getX (normal cd) * j) // m)
                      continuous in
          let idx := (VY_ + offset)%Z in
          let va := setValue va idx (getValue va idx + (getY (normal cd) * j) // m)
                      continuous in
          let idx := (VW_ + offset)%Z in
          setValue va idx
            (getValue va idx
             + (j * (getX (r1 cd) * getY (normal cd) - getY (r1 cd) * getX (normal cd)))
                 // I)
            continuous
        else va
      else va in
    let m := getMass (body (normalBody cd)) in
    let va :=
      if isFinite m then
        let I := momentAboutCM (body (normalBody cd)) in
        let offset := getVarsIndex (body (normalBody cd)) in
        if Z.ltb (-1) offset then
          let idx := (VX_ + offset)%Z in
          let va := setValue va idx (getValue va idx - (getX (normal cd) * j) // m)
                      continuous in
          let idx := (VY_ + offset)%Z in
          let va := setValue va idx (getValue va idx - (getY (normal cd) * j) // m)
                      continuous in
          let idx := (VW_ + offset)%Z in
          setValue va idx
            (getValue va idx
             - (j * (getX (r2 cd) * getY (normal cd) - getY (r2 cd) * getX (normal cd)))
                 // I)
            continuous
        else va
      else va in
    let s := set_vars s va in
    let s := if showCollisionDot_ s then debugCircle s (Qabs (5 * j)) else s in
    (s, Return cd).

(** [ImpulseSim.prototype.applyImpulse] *)
Definition applyImpulse (s : Sim) (cd : RigidBodyCollision) (j : Q)
  : Sim * Completion RigidBodyCollision :=
  if negb (joint cd) && Qlt_bool j 0 then
    if Qlt_bool j (- TINY_IMPULSE) then (s, Throw (NegativeImpulse j))
    else applyImpulse_record s cd 0
  else applyImpulse_record s cd j.

(** The loop [for (i=0; i<n; i++)] that closes both handlers: notes whether
    an impulse above [TINY_IMPULSE] occurs and applies [j[i]] to
    [collisions[i]]; [i] is the index of the head of [cs]. *)
Fixpoint applyImpulses (s : Sim) (cs : list RigidBodyCollision) (j : list Q)
    (i : nat) (impulse : bool)
  : Sim * list RigidBodyCollision * Completion bool :=
  match cs with
  | [] => (s, [], Return impulse)
  | c :: rest =>
      let impulse := if Qlt_bool TINY_IMPULSE (nth i j 0) then true else impulse in
      match applyImpulse s c (nth i j 0) with
      | (s', Throw e) => (s', c :: rest, Throw e)
      | (s', Return c') =>
          let '(s'', rest', r) := applyImpulses s' rest j (S i) impulse in
          (s'', c' :: rest', r)
      end
  end.

Definition addImpulses (opt_totals : option nat) (n : nat) : option nat :=
  option_map (fun t => (t + n)%nat) opt_totals.

(** ** The simultaneous handler *)

(** The right-hand side [b] built by the first loop of
    [handleCollisionsSimultaneous]: [b[k] = ck.normalVelocity], then
    [b[k] *= ck.contact() ? 1 : 1 + ck.getElasticity()]. *)
Definition simultaneous_b (collisions : list RigidBodyCollision) : list Q :=
  map (fun ck => normalVelocity ck * (if contact ck then 1 else 1 + getElasticity ck))
      collisions.

(** [ImpulseSim.prototype.handleCollisionsSimultaneous].  The call of
    [modifyObjects] before the totals are counted is inherited code that is
    not under src; it is not modelled. *)
Definition handleCollisionsSimultaneous (s : Sim)
    (collisions : list RigidBodyCollision) (opt_totals : option nat) : Result :=
  let n := length collisions in
  let b := simultaneous_b collisions in
  let j := zeros n in
  let joint_ := map joint collisions in
  let nonJoint := existsb (fun ck => negb (joint ck)) collisions in
  let A := makeCollisionMatrix body collisions in
  let '(j, error, rng) := compute_forces A j b joint_ false (time s) (simRNG_ s) in
  let s := set_simRNG s rng in
  let failed :=
    goog_DEBUG && negb (Z.eqb error (-1))
    && negb (checkForceAccel (1 # 10000) j (vectorAdd (matrixMultiply A j) b) joint_) in
  if failed then
    mkResult s collisions opt_totals [] (Throw (ComputeImpulsesFailed error))
  else
    let console :=
      if goog_DEBUG && negb (Z.eqb error (-1)) then [SolverWarning error] else [] in
    match applyImpulses s collisions j 0 false with
    | (s, cs, Throw e) => mkResult s cs opt_totals console (Throw e)
    | (s, cs, Return impulse) =>
        let s := if nonJoint && impulse
                 then set_vars s (incrSequence (vars s) [1; 3]%Z) else s in
        mkResult s cs (addImpulses opt_totals 1) console (Return impulse)
    end.

(** ** The serial handler *)

(** The local variables of [handleCollisionsSerial] that change in its loop,
    with the generator, the totals counter and the console. *)
Record HcsState : Type := mkHcs {
  st_b : list Q;
  st_j2 : list Q;
  st_small_velocity : Q;
  st_loopCtr : Z;
  st_loopPanic : Z;
  st_debugHCS : bool;
  st_rng : Random;
  st_totals : option nat;
  st_console : list LogEntry
}.

(** The test of [hcs_focus] on index [j]; a missing array entry is
    [undefined], for which both comparisons are false. *)
Definition large (small_velocity : Q) (joint_ : list bool) (b : list Q) (j : nat)
  : bool :=
  match nth_error b j with
  | None => false
  | Some bj =>
      negb (nth j joint_ false) && Qlt_bool bj (- small_velocity)
      || nth j joint_ false && Qlt_bool small_velocity (Qabs bj)
  end.

(** [ImpulseSim.prototype.hcs_focus] *)
Definition hcs_focus (small_velocity : Q) (joint_ : list bool) (b : list Q)
    (rng : Random) : Z * Random :=
  let n := length b in
  let (indices, rng) := randomInts rng n in
  (match find (large small_velocity joint_ b) (firstn n indices) with
   | Some j => Z.of_nat j
   | None => (-1)%Z
   end, rng).

(** The array [set] of [hcs_handle]. *)
Definition hcs_set (hybrid grouped : bool) (small_velocity : Q) (focus : Z)
    (b : list Q) (collisions : list RigidBodyCollision) : list bool :=
  let n := length b in
  if Z.eqb focus (-1) then repeat true n
  else if hybrid || grouped then
    match nth_error collisions (Z.to_nat focus) with
    | None => repeat false n
    | Some cf =>
        fold_left
          (fun set c =>
             match findIndex c collisions with
             | Some loc => list_update set loc true
             | None => set
             end)
          (subsetCollisions2 collisions cf hybrid b (- small_velocity))
          (repeat false n)
    end
  else map (fun k => Z.eqb (Z.of_nat k) focus) (seq 0 n).

(** [idx]: index from the big set to the subset, -1 outside the subset. *)
Fixpoint hcs_idx (set : list bool) (n1 : Z) : list Z :=
  match set with
  | [] => []
  | true :: rest => n1 :: hcs_idx rest (n1 + 1)%Z
  | false :: rest => (-1)%Z :: hcs_idx rest n1
  end.

(** [idx2]: index from the subset to the big set. *)
Definition hcs_idx2 (set : list bool) : list nat :=
  filter (fun k => nth k set false) (seq 0 (length set)).

(** [ImpulseSim.prototype.hcs_handle]; returns the error thrown, if any. *)
Definition hcs_handle (hybrid grouped : bool) (focus : Z) (joint_ : list bool)
    (e : list Q) (collisions : list RigidBodyCollision) (A : Matrix) (t : Q)
    (st : HcsState) : HcsState * option Error :=
  let b := st_b st in
  let n := length b in
  let set := hcs_set hybrid grouped (st_small_velocity st) focus b collisions in
  let idx := hcs_idx set 0 in
  let idx2 := hcs_idx2 set in
  let n1 := length idx2 in
  let A1 := map (fun i => map (fun j => entry A i j) idx2) idx2 in
  let b1 := map (fun i => nth i b 0) idx2 in
  let joint1 := map (fun i => nth i joint_ false) idx2 in
  let b1 :=
    if negb (Z.eqb focus (-1))
    then map (fun k => nth k b1 0 * (1 + nth (nth k idx2 O) e 0)) (seq 0 n1)
    else b1 in
  let j1 := zeros n1 in
  let '(j1, error, rng) := compute_forces A1 j1 b1 joint1 false t (st_rng st) in
  let failed :=
    negb (Z.eqb error (-1))
    && negb (checkForceAccel (1 # 10000) j1 (vectorAdd (matrixMultiply A1 j1) b1) joint1) in
  if failed then
    (mkHcs b (st_j2 st) (st_small_velocity st) (st_loopCtr st) (st_loopPanic st)
       (st_debugHCS st) rng (st_totals st) (st_console st),
     Some (ComputeImpulsesFailed error))
  else
    let console :=
      if negb (Z.eqb error (-1)) && goog_DEBUG
      then SolverWarning error :: st_console st else st_console st in
    let j2 :=
      fold_left
        (fun j2 i =>
           list_update j2 (nth i idx2 O) (nth (nth i idx2 O) j2 0 + nth i j1 0))
        (seq 0 n1) (st_j2 st) in
    let b :=
      map (fun i =>
             fold_left
               (fun bi j =>
                  if nth j set false
                  then bi + entry A i j * nth (Z.to_nat (nth j idx (-1)%Z)) j1 0
                  else bi)
               (seq 0 n) (nth i b 0))
          (seq 0 n) in
    (mkHcs b j2 (st_small_velocity st) (st_loopCtr st) (st_loopPanic st)
       (st_debugHCS st) rng (st_totals st) console,
     None).

(** How one pass through the body of the [do ... while] loop ends. *)
Inductive LoopStep : Type :=
| Continue
| Break
| Raise (e : Error).

Definition LOOP_LIMIT : Z := 100000.

(** One pass through the loop body of [handleCollisionsSerial]. *)
Definition hcs_iteration (hybrid grouped lastPass doPanic : bool)
    (joint_ : list bool) (e : list Q) (collisions : list RigidBodyCollision)
    (A : Matrix) (t : Q) (st : HcsState) : HcsState * LoopStep :=
  let n := length collisions in
  let PANIC_LIMIT := (20 * Z.of_nat n)%Z in
  let loopCtr := (st_loopCtr st + 1)%Z in
  let panic := doPanic && Z.ltb (st_loopPanic st) loopCtr in
  let small_velocity :=
    if panic then st_small_velocity st * 2 else st_small_velocity st in
  let loopPanic :=
    if panic then (st_loopPanic st + PANIC_LIMIT)%Z else st_loopPanic st in
  let console :=
    if panic && goog_DEBUG
    then LoopPanic loopCtr small_velocity :: st_console st else st_console st in
  let over := goog_DEBUG && Z.ltb LOOP_LIMIT loopCtr in
  let debugHCS := if over then true else st_debugHCS st in
  let console := if over then LoopLimit loopCtr :: console else console in
  let (focus, rng) := hcs_focus small_velocity joint_ (st_b st) (st_rng st) in
  let st := mkHcs (st_b st) (st_j2 st) small_velocity loopCtr loopPanic debugHCS
              rng (st_totals st) console in
  if Z.eqb focus (-1) && negb lastPass then (st, Break)
  else
    match hcs_handle hybrid grouped focus joint_ e collisions A t st with
    | (st, Some err) => (st, Raise err)
    | (st, None) =>
        let st := mkHcs (st_b st) (st_j2 st) (st_small_velocity st) (st_loopCtr st)
                    (st_loopPanic st) (st_debugHCS st) (st_rng st)
                    (addImpulses (st_totals st) 1) (st_console st) in
        (st, if Z.ltb (-1) focus then Continue else Break)
    end.

(** The [do ... while (focus > -1)] loop; [None] when [fuel] passes do not
    reach its exit. *)
Fixpoint hcs_loop (fuel : nat) (hybrid grouped lastPass doPanic : bool)
    (joint_ : list bool) (e : list Q) (collisions : list RigidBodyCollision)
    (A : Matrix) (t : Q) (st : HcsState) : option (HcsState * option Error) :=
  match fuel with
  | O => None
  | S fuel' =>
      match hcs_iteration hybrid grouped lastPass doPanic joint_ e collisions A t st with
      | (st', Continue) =>
          hcs_loop fuel' hybrid grouped lastPass doPanic joint_ e collisions A t st'
      | (st', Break) => Some (st', None)
      | (st', Raise err) => Some (st', Some err)
      end
  end.

(** [x || 0.00001] on an optional number. *)
Definition default_small_velocity (small_velocity : option Q) : Q :=
  match small_velocity with
  | Some v => if Qeq_bool v 0 then 1 # 100000 else v
  | None => 1 # 100000
  end.

(** [goog.isDef(x) ? x : true] *)
Definition default_true (x : option bool) : bool :=
  match x with Some v => v | None => true end.

(** The elasticities [e] set up by [handleCollisionsSerial]. *)
Definition hcs_elasticity (grouped : bool) (collisions : list RigidBodyCollision)
  : list Q :=
  map (fun ck => if grouped then (if joint ck then 0 else getElasticity ck)
                 else getElasticity ck)
      collisions.

(** The state on entry to the loop of [handleCollisionsSerial]. *)
Definition hcs_init (s : Sim) (collisions : list RigidBodyCollision)
    (opt_totals : option nat) (small_velocity : option Q) : HcsState :=
  let n := length collisions in
  mkHcs (map normalVelocity collisions) (zeros n)
    (default_small_velocity small_velocity) 0 (20 * Z.of_nat n)%Z false
    (simRNG_ s) opt_totals [].

(** The first part of [handleCollisionsSerial]: the defaults of the optional
    arguments, the arrays [joint], [e], [b], [j2], the matrix [A], and the
    loop run from there. *)
Definition hcs_run (fuel : nat) (s : Sim)
    (collisions : list RigidBodyCollision) (hybrid : bool)
    (opt_totals : option nat) (grouped lastPass : option bool)
    (small_velocity : option Q) (doPanic : option bool)
  : option (HcsState * option Error) :=
  let grouped := default_true grouped in
  let lastPass := default_true lastPass in
  let doPanic := default_true doPanic in
  let joint_ := map joint collisions in
  let e := hcs_elasticity grouped collisions in
  let A := makeCollisionMatrix body collisions in
  hcs_loop fuel hybrid grouped lastPass doPanic joint_ e collisions A (time s)
    (hcs_init s collisions opt_totals small_velocity).

(** [ImpulseSim.prototype.handleCollisionsSerial]: after the loop the
    cumulative impulses [j2] are applied and [impulse] is returned.  The
    call of [modifyObjects] that follows is inherited code that is not under
    src; it is not modelled. *)
Definition handleCollisionsSerial (fuel : nat) (s : Sim)
    (collisions : list RigidBodyCollision) (hybrid : bool)
    (opt_totals : option nat) (grouped lastPass : option bool)
    (small_velocity : option Q) (doPanic : option bool) : option Result :=
  let nonJoint := existsb (fun ck => negb (joint ck)) collisions in
  match hcs_run fuel s collisions hybrid opt_totals grouped lastPass small_velocity
          doPanic with
  | None => None
  | Some (st, Some err) =>
      Some (mkResult (set_simRNG s (st_rng st)) collisions (st_totals st)
              (st_console st) (Throw err))
  | Some (st, None) =>
      match applyImpulses (set_simRNG s (st_rng st)) collisions (st_j2 st) 0 false with
      | (s, cs, Throw err) =>
          Some (mkResult s cs (st_totals st) (st_console st) (Throw err))
      | (s, cs, Return impulse) =>
          let s := if nonJoint && impulse
                   then set_vars s (incrSequence (vars s) [1; 3]%Z) else s in
          Some (mkResult s cs (st_totals st) (st_console st) (Return impulse))
      end
  end.

(** [ImpulseSim.prototype.handleCollisions]; [collisionHandling_] is one of
    the six values of the enum, so the [default] branch of the [switch] is
    not reached. *)
Definition handleCollisions (fuel : nat) (s : Sim)
    (collisions : list RigidBodyCollision) (opt_totals : option nat)
  : option Result :=
  if Nat.eqb (length collisions) 0 then
    Some (mkResult s collisions opt_totals [] (Throw EmptyArray))
  else if goog_DEBUG && negb (forallb checkConsistent collisions) then
    Some (mkResult s collisions opt_totals [] (Throw Inconsistent))
  else
    match collisionHandling_ s with
    | SIMULTANEOUS => Some (handleCollisionsSimultaneous s collisions opt_totals)
    | HYBRID =>
        handleCollisionsSerial fuel s collisions true opt_totals None None None None
    | SERIAL_SEPARATE =>
        handleCollisionsSerial fuel s collisions false opt_totals
          (Some false) (Some false) None None
    | SERIAL_GROUPED =>
        handleCollisionsSerial fuel s collisions false opt_totals
          (Some true) (Some false) None None
    | SERIAL_SEPARATE_LASTPASS =>
        handleCollisionsSerial fuel s collisions false opt_totals
          (Some false) (Some true) None None
    | SERIAL_GROUPED_LASTPASS =>
        handleCollisionsSerial fuel s collisions false opt_totals
          (Some true) (Some true) None None
    end.

(** ** Notions used to state the properties *)

(** [idx] is one of the three velocity variables of the body [bod]. *)
Definition velocity_index (bod : BodyRef) (idx : Z) : Prop :=
  idx = (VX_ + getVarsIndex (body bod))%Z
  \/ idx = (VY_ + getVarsIndex (body bod))%Z
  \/ idx = (VW_ + getVarsIndex (body bod))%Z.

(** [idx] is a velocity variable of a finite-mass body of the collision. *)
Definition written_by (c : RigidBodyCollision) (idx : Z) : Prop :=
  (isFinite (getMass (body (primaryBody c))) = true
   /\ velocity_index (primaryBody c) idx)
  \/ (isFinite (getMass (body (normalBody c))) = true
      /\ velocity_index (normalBody c) idx).

(** The contract of the solver (section 4.3) on one system: with
    [a = A j + b], a joint row has [a[i] = 0]; any other row has
    [j[i] >= 0], [a[i] >= 0] and [j[i] a[i] = 0]. *)
Definition lcp_solution (A : Matrix) (b : list Q) (joint_ : list bool) (j : list Q)
  : Prop :=
  length j = length A
  /\ forall i, (i < length A)%nat ->
       let a := nth i (vectorAdd (matrixMultiply A j) b) 0 in
       if nth i joint_ false then a == 0
       else 0 <= nth i j 0 /\ 0 <= a /\ nth i j 0 * a == 0.

(** The solver meets its contract on the systems with matrix [A] and joint
    flags [joint_], whatever the right-hand side.  For a singular matrix
    some right-hand sides have no solution; the collision laws below ask
    [lcp_solution] of the one call that the handler makes. *)
Definition meets_contract_on (A : Matrix) (joint_ : list bool) : Prop :=
  forall f b debugCF t rng,
    length b = length A ->
    lcp_solution A b joint_ (fst (fst (compute_forces A f b joint_ debugCF t rng))).

(** Collision [i] is small at tolerance [small_velocity]. *)
Definition small_at (small_velocity : Q) (joint_ : list bool) (b : list Q) (i : nat)
  : Prop :=
  if nth i joint_ false then Qabs (nth i b 0) <= small_velocity
  else - small_velocity <= nth i b 0.

(** The number of lines on the console written by the check against
    [LOOP_LIMIT]. *)
Definition is_LoopLimit (l : LogEntry) : bool :=
  match l with LoopLimit _ => true | _ => false end.

Definition count_LoopLimit (console : list LogEntry) : nat :=
  length (filter is_LoopLimit console).

(** Two simulations agree on what collision handling reads: the variables,
    the generator, the strategy and the time. *)
Definition agree (s1 s2 : Sim) : Prop :=
  vars s1 = vars s2 /\ simRNG_ s1 = simRNG_ s2
  /\ collisionHandling_ s1 = collisionHandling_ s2 /\ time s1 = time s2.

(** What the loop of the serial handler maintains: [b] keeps its length and
    the tolerance stays positive. *)
Definition hcs_inv (joint_ : list bool) (st : HcsState) : Prop :=
  length (st_b st) = length joint_ /\ 0 < st_small_velocity st.

(** Two calls leave the same outcome. *)
Definition same_outcome (r1 r2 : Result) : Prop :=
  res_completion r1 = res_completion r2
  /\ res_collisions r1 = res_collisions r2
  /\ vars (res_sim r1) = vars (res_sim r2)
  /\ simRNG_ (res_sim r1) = simRNG_ (res_sim r2)
  /\ res_totals r1 = res_totals r2
  /\ res_console r1 = res_console r2.

(** ** Further parts of [ImpulseSim.js] *)

(** [ImpulseSim.largestVelocity]: the most negative velocity of the
    collisions that are not joints, or the largest velocity in absolute
    value of the joints, whichever is larger. *)
Definition largestVelocity (joint_ : list bool) (b : list Q) : Q :=
  fold_left
    (fun max i =>
       if nth i joint_ false then
         if Qlt_bool max (Qabs (nth i b 0)) then Qabs (nth i b 0) else max
       else
         if Qlt_bool (nth i b 0) (- max) then - nth i b 0 else max)
    (seq 0 (length b)) 0.

(** What [checkInfiniteMassVelocity] throws: a failed assertion on the
    index of a body, or the error about an infinite mass object that moves. *)
Inductive RestError : Type :=
| BadVarsIndex (b : BodyRef)
| MustRemainAtRest (vx vy vw : Q) (b : BodyRef).

(** [ImpulseSim.prototype.checkInfiniteMassVelocity], on the bodies [bods_]
    and the array [vars] of the values of the variables; [None] when nothing
    is thrown.  The assertion is compiled in under [goog.DEBUG]; an index
    outside the array is outside the model. *)
Fixpoint checkInfiniteMassVelocity (bods_ : list BodyRef) (vars : Z -> Q)
  : option RestError :=
  match bods_ with
  | [] => None
  | b :: rest =>
      let idx := getVarsIndex (body b) in
      if goog_DEBUG && Z.ltb idx 0 then Some (BadVarsIndex b)
      else if negb (isFinite (getMass (body b))) then
        let vx := vars (idx + VX_)%Z in
        let vy := vars (idx + VY_)%Z in
        let vw := vars (idx + VW_)%Z in
        if negb (Qeq_bool vx 0) || negb (Qeq_bool vy 0) || negb (Qeq_bool vw 0)
        then Some (MustRemainAtRest vx vy vw b)
        else checkInfiniteMassVelocity rest vars
      else checkInfiniteMassVelocity rest vars
  end.

(** Modelled from the spec: [RigidBodyCollision.calcNormalVelocity] is not
    under src.  By the comment of [influence], the relative normal velocity
    at a collision between bodies [a] and [b] is
    [n . (va + wa x ra - (vb + wb x rb))] with
    [w x r = (- w ry, w rx)]; the velocities are read from the variables. *)
Definition calcNormalVelocity (va : VarsList) (c : RigidBodyCollision) : Q :=
  let oa := getVarsIndex (body (primaryBody c)) in
  let ob := getVarsIndex (body (normalBody c)) in
  let vax := getValue va (VX_ + oa)%Z in
  let vay := getValue va (VY_ + oa)%Z in
  let wa := getValue va (VW_ + oa)%Z in
  let vbx := getValue va (VX_ + ob)%Z in
  let vby := getValue va (VY_ + ob)%Z in
  let wb := getValue va (VW_ + ob)%Z in
  getX (normal c)
    * (vax + - wa * getY (r1 c) - (vbx + - wb * getY (r2 c)))
  + getY (normal c)
    * (vay + wa * getX (r1 c) - (vby + wb * getX (r2 c))).

(** ** Notions used to state the further properties *)

(** The three velocity variables are different, and different bodies own
    different velocity variables. *)
Definition separate_variables : Prop :=
  VX_ <> VY_ /\ VX_ <> VW_ /\ VY_ <> VW_
  /\ forall p q idx,
       p <> q -> velocity_index p idx -> ~ velocity_index q idx.

(** The change of the velocity of body [bod] that the impulse [j] at the
    collision [cd] stands for (section 4.4), as [(dvx, dvy, dw)]: the
    primary body gains [n j / m] and [(r1 x n) j / I], the normal body loses
    [n j / m] and [(r2 x n) j / I], a body of infinite mass and a body not
    in the collision keep their velocity. *)
Definition velocity_change (cd : RigidBodyCollision) (j : Q) (bod : BodyRef)
  : Q * Q * Q :=
  let m := getMass (body bod) in
  let I := momentAboutCM (body bod) in
  let p := if isFinite m && Nat.eqb bod (primaryBody cd) then 1 else 0 in
  let q := if isFinite m && Nat.eqb bod (normalBody cd) then 1 else 0 in
  ((p - q) * ((getX (normal cd) * j) // m),
   (p - q) * ((getY (normal cd) * j) // m),
   p * ((j * cross (r1 cd) (normal cd)) // I)
   - q * ((j * cross (r2 cd) (normal cd)) // I)).

(** The impulses that the solver returns to [handleCollisionsSimultaneous]. *)
Definition simultaneous_impulses (s : Sim) (collisions : list RigidBodyCollision)
  : list Q :=
  fst (fst (compute_forces (makeCollisionMatrix body collisions)
              (zeros (length collisions)) (simultaneous_b collisions)
              (map joint collisions) false (time s) (simRNG_ s))).

(** The finite-mass bodies of the collision have their variables in the
    [VarsList]: [applyImpulse] skips a body whose index is below 0. *)
Definition bodies_in_vars (cd : RigidBodyCollision) : Prop :=
  forall bod,
    involves cd bod = true -> isFinite (getMass (body bod)) = true ->
    (-1 < getVarsIndex (body bod))%Z.

(** The change of the normal velocity at [ci] for a unit impulse at [cj]:
    the entry of the collision matrix. *)
Definition influence_on (ci cj : RigidBodyCollision) : Q :=
  0 + influence body ci cj (primaryBody ci) - influence body ci cj (normalBody ci).

(** The velocities [b] of the serial loop follow the cumulative impulses:
    [b = b0 + A j2], for the velocities [b0] on entry. *)
Definition tracks (b0 : list Q) (A : Matrix) (st : HcsState) : Prop :=
  length (st_b st) = length b0
  /\ length (st_j2 st) = length b0
  /\ forall i, (i < length b0)%nat ->
       nth i (st_b st) 0
       == nth i b0 0
          + fold_left (fun r k => r + entry A i k * nth k (st_j2 st) 0)
              (seq 0 (length b0)) 0.

(** The schedule of the panic relaxation: after [k] doublings the tolerance
    is [sv0 2^k], the next doubling is due past pass [P (k + 1)], and the
    loop is in one of the passes [P k + 1 .. P (k + 1)] (or has not started). *)
Definition on_schedule (sv0 : Q) (P : Z) (st : HcsState) : Prop :=
  exists k : Z,
    (0 <= k)%Z
    /\ st_loopPanic st = (P * (k + 1))%Z
    /\ st_small_velocity st == sv0 * inject_Z (2 ^ k)
    /\ ((P * k < st_loopCtr st)%Z \/ (k = 0%Z /\ st_loopCtr st = 0%Z))
    /\ (st_loopCtr st <= P * (k + 1))%Z.

(** Reads a variable back through the writes of [applyImpulse]: the lemmas
    [same] and [same'] rewrite a read at the index just written, [other] a
    read at another index; [Hxy], [Hxw] and [Hyw] say that the three
    velocity offsets differ. *)
Ltac read_through same same' other Hxy Hxw Hyw :=
  repeat first
    [ rewrite same
    | rewrite same'
    | rewrite other
        by first [ assumption | apply not_eq_sym; assumption
                 | clear - Hxy Hxw Hyw; lia ] ].

(** * Properties *)

(** ** Rational comparisons *)

Lemma Qlt_bool_iff (x y : Q) : Qlt_bool x y = true <-> x < y.
Proof.
  unfold Qlt_bool. rewrite negb_true_iff. split.
  - intros H. apply Qnot_le_lt. intros Hle.
    apply Qle_bool_iff in Hle. congruence.
  - intros H. destruct (Qle_bool y x) eqn:E; [|reflexivity].
    apply Qle_bool_iff in E. exfalso. exact (Qlt_not_le _ _ H E).
Qed.

Lemma Qlt_bool_false_iff (x y : Q) : Qlt_bool x y = false <-> y <= x.
Proof.
  unfold Qlt_bool. rewrite negb_false_iff. apply Qle_bool_iff.
Qed.

Lemma TINY_IMPULSE_pos : 0 < TINY_IMPULSE.
Proof. reflexivity. Qed.

(** ** The influence function and the collision matrix *)

(** C4. [influence] returns 0 when the body has infinite mass or is not one
    of the two bodies of [ci] or of [cj]; otherwise it returns the formula
    of section 4.1, with [r_i], [r_j] and [factor] chosen by the role of the
    body in [ci] and [cj]: it is [influence_spec]. *)
Theorem influence_is_influence_spec :
  forall ci cj B, influence body ci cj B = influence_spec body ci cj B.
Proof.
  intros ci cj B.
  unfold influence, influence_spec, involves, offset_of, cross.
  rewrite (Nat.eqb_sym (primaryBody ci) B), (Nat.eqb_sym (normalBody ci) B),
          (Nat.eqb_sym (primaryBody cj) B), (Nat.eqb_sym (normalBody cj) B).
  destruct (isFinite (getMass (body B))); cbn [negb orb]; [|reflexivity].
  destruct (Nat.eqb B (primaryBody ci)), (Nat.eqb B (normalBody ci)),
           (Nat.eqb B (primaryBody cj)), (Nat.eqb B (normalBody cj));
    cbn [negb orb]; reflexivity.
Qed.

(** An entry of the collision matrix, by the two collisions it relates. *)
Lemma entry_makeCollisionMatrix (collisions : list RigidBodyCollision) (i k : nat) :
  entry (makeCollisionMatrix body collisions) i k =
  match nth_error collisions i, nth_error collisions k with
  | Some ci, Some ck =>
      0 + influence body ci ck (primaryBody ci) - influence body ci ck (normalBody ci)
  | _, _ => 0
  end.
Proof.
  unfold entry, makeCollisionMatrix.
  destruct (nth_error collisions i) as [ci|] eqn:Ei.
  - erewrite (nth_error_nth (map _ collisions) i []);
      [|rewrite nth_error_map, Ei; reflexivity].
    destruct (nth_error collisions k) as [ck|] eqn:Ek.
    + apply nth_error_nth. rewrite nth_error_map, Ek. reflexivity.
    + apply nth_overflow. rewrite length_map. now apply nth_error_None.
  - rewrite (nth_overflow (map _ collisions));
      [now destruct k | rewrite length_map; now apply nth_error_None].
Qed.

(** The two influences of a matrix entry, exchanged. *)
Lemma influence_difference_sym (ci ck : RigidBodyCollision) :
  primaryBody ci <> normalBody ci -> primaryBody ck <> normalBody ck ->
  0 + influence body ci ck (primaryBody ci) - influence body ci ck (normalBody ci)
  == 0 + influence body ck ci (primaryBody ck) - influence body ck ci (normalBody ck).
Proof.
  intros Hi Hk. unfold influence.
  rewrite !Nat.eqb_refl.
  destruct (Nat.eqb_spec (normalBody ci) (primaryBody ci)) as [e1|_]; [congruence|].
  destruct (Nat.eqb_spec (normalBody ck) (primaryBody ck)) as [e1|_]; [congruence|].
  destruct (Nat.eqb_spec (primaryBody ci) (normalBody ci)) as [e1|_]; [congruence|].
  destruct (Nat.eqb_spec (primaryBody ck) (normalBody ck)) as [e1|_]; [congruence|].
  destruct (Nat.eqb_spec (primaryBody ck) (primaryBody ci)) as [e1|n1];
  destruct (Nat.eqb_spec (normalBody ck) (primaryBody ci)) as [e2|n2];
  destruct (Nat.eqb_spec (primaryBody ck) (normalBody ci)) as [e3|n3];
  destruct (Nat.eqb_spec (normalBody ck) (normalBody ci)) as [e4|n4];
  try congruence;
  destruct (Nat.eqb_spec (primaryBody ci) (primaryBody ck)) as [f1|m1];
  destruct (Nat.eqb_spec (normalBody ci) (primaryBody ck)) as [f2|m2];
  destruct (Nat.eqb_spec (primaryBody ci) (normalBody ck)) as [f3|m3];
  destruct (Nat.eqb_spec (normalBody ci) (normalBody ck)) as [f4|m4];
  try congruence;
  repeat match goal with H : _ = _ |- _ => rewrite H in * end;
  repeat match goal with
         | |- context [getMass (body ?x)] => destruct (getMass (body x))
         end;
  repeat match goal with
         | |- context [momentAboutCM (body ?x)] => destruct (momentAboutCM (body x))
         end;
  cbn [isFinite negb Qdiv_ext]; unfold Qdiv; ring.
Qed.

(** C5. Over exact arithmetic the matrix built by [makeCollisionMatrix] is
    symmetric, for every list of collisions.  A collision relates two
    different bodies: [findCollisions] checks [bods_[i]] against the bodies
    after it in the list only. *)
Theorem makeCollisionMatrix_symmetric :
  forall collisions i k,
    Forall (fun c => primaryBody c <> normalBody c) collisions ->
    entry (makeCollisionMatrix body collisions) i k
    == entry (makeCollisionMatrix body collisions) k i.
Proof.
  intros collisions i k Hd.
  rewrite !entry_makeCollisionMatrix.
  destruct (nth_error collisions i) as [ci|] eqn:Ei;
    destruct (nth_error collisions k) as [ck|] eqn:Ek; try reflexivity.
  rewrite Forall_forall in Hd.
  apply influence_difference_sym; apply Hd; eapply nth_error_In; eassumption.
Qed.

(** ** The impulse applier *)

Lemma applyImpulse_record_returns (s : Sim) (cd : RigidBodyCollision) (j : Q) :
  snd (applyImpulse_record s cd j) = Return (set_impulse cd j).
Proof.
  unfold applyImpulse_record. now destruct (Qeq_bool j 0).
Qed.

(** C7. [applyImpulse] raises an error exactly when the collision is not a
    joint and [j < -TINY_IMPULSE]; for a collision that is not a joint and
    [-TINY_IMPULSE <= j < 0] the impulse is clamped to 0, recorded as 0 in
    the collision, and the simulation (hence every velocity) is unchanged. *)
Theorem applyImpulse_negative_impulse :
  forall s cd j,
    ((exists e, snd (applyImpulse s cd j) = Throw e)
     <-> (joint cd = false /\ j < - TINY_IMPULSE))
    /\ (joint cd = false -> - TINY_IMPULSE <= j -> j < 0 ->
        applyImpulse s cd j = (s, Return (set_impulse cd 0))).
Proof.
  intros s cd j. pose proof TINY_IMPULSE_pos as Htiny. split.
  - unfold applyImpulse.
    destruct (joint cd); cbn [negb andb].
    + rewrite applyImpulse_record_returns. split.
      * intros [e He]. discriminate.
      * intros [Hj _]. discriminate.
    + destruct (Qlt_bool j 0) eqn:E0.
      * destruct (Qlt_bool j (- TINY_IMPULSE)) eqn:E1.
        -- split; [intros _|intros _; now eexists].
           split; [reflexivity|now apply Qlt_bool_iff].
        -- rewrite applyImpulse_record_returns. split.
           ++ intros [e He]. discriminate.
           ++ intros [_ Hlt]. apply Qlt_bool_iff in Hlt. congruence.
      * rewrite applyImpulse_record_returns. split.
        -- intros [e He]. discriminate.
        -- intros [_ Hlt]. apply Qlt_bool_false_iff in E0. lra.
  - intros Hj Hge Hlt. unfold applyImpulse. rewrite Hj. cbn [negb andb].
    apply Qlt_bool_iff in Hlt. rewrite Hlt.
    apply Qlt_bool_false_iff in Hge. rewrite Hge. reflexivity.
Qed.

(** ** The simultaneous handler *)

(** C2 (amended). In the simultaneous strategy the entry of the right-hand
    side for collision [k] is [normalVelocity * 1] when [contact()] holds of
    it and [normalVelocity * (1 + elasticity)] otherwise; a joint gets the
    factor 1 as soon as joints count as contacts. *)
Theorem simultaneous_b_entry :
  forall collisions k ck,
    nth_error collisions k = Some ck ->
    nth_error (simultaneous_b collisions) k
    = Some (normalVelocity ck * (if contact ck then 1 else 1 + getElasticity ck))
    /\ ((forall c, joint c = true -> contact c = true) ->
        joint ck = true ->
        nth_error (simultaneous_b collisions) k = Some (normalVelocity ck * 1)).
Proof.
  intros collisions k ck Hk. unfold simultaneous_b.
  rewrite nth_error_map, Hk. cbn [option_map]. split; [reflexivity|].
  intros Hjc Hj. now rewrite (Hjc ck Hj).
Qed.

(** ** Dispatch *)

(** C10. [handleCollisions] on an empty list raises the error before any
    strategy is chosen and leaves the simulation as it was. *)
Theorem handleCollisions_empty :
  forall fuel s opt_totals,
    handleCollisions fuel s [] opt_totals
    = Some (mkResult s [] opt_totals [] (Throw EmptyArray)).
Proof. reflexivity. Qed.

(** ** Which variables a call writes *)

Lemma setValue_other (va : VarsList) (idx i : Z) (v : Q) (c : bool) :
  i <> idx -> setValue va idx v c i = va i.
Proof.
  intros H. unfold setValue. now destruct (Z.eqb_spec i idx).
Qed.

Lemma getValue_incrSequence (va : VarsList) (l : list Z) (i : Z) :
  getValue (incrSequence va l) i = getValue va i.
Proof.
  unfold getValue, incrSequence. now destruct (existsb (Z.eqb i) l).
Qed.

Lemma vars_debugCircle_if (s : Sim) (w : Q) :
  vars (if showCollisionDot_ s then debugCircle s w else s) = vars s.
Proof. now destruct (showCollisionDot_ s). Qed.

Lemma applyImpulse_record_frame (s : Sim) (cd : RigidBodyCollision) (j : Q) (idx : Z) :
  ~ written_by cd idx ->
  vars (fst (applyImpulse_record s cd j)) idx = vars s idx.
Proof.
  intros Hw. unfold applyImpulse_record.
  destruct (Qeq_bool j 0); [reflexivity|].
  cbn [fst]. rewrite vars_debugCircle_if. cbn [vars set_vars set_impulse
    primaryBody normalBody normal r1 r2].
  assert (Hp : isFinite (getMass (body (primaryBody cd))) = true ->
               ~ velocity_index (primaryBody cd) idx)
    by (intros Hf Hv; apply Hw; left; now split).
  assert (Hn : isFinite (getMass (body (normalBody cd))) = true ->
               ~ velocity_index (normalBody cd) idx)
    by (intros Hf Hv; apply Hw; right; now split).
  unfold velocity_index in Hp, Hn.
  destruct (isFinite (getMass (body (normalBody cd)))).
  - destruct (Z.ltb (-1) (getVarsIndex (body (normalBody cd)))).
    + rewrite !setValue_other by (intros ->; apply (Hn eq_refl); tauto).
      destruct (isFinite (getMass (body (primaryBody cd)))); [|reflexivity].
      destruct (Z.ltb (-1) (getVarsIndex (body (primaryBody cd)))); [|reflexivity].
      now rewrite !setValue_other by (intros ->; apply (Hp eq_refl); tauto).
    + destruct (isFinite (getMass (body (primaryBody cd)))); [|reflexivity].
      destruct (Z.ltb (-1) (getVarsIndex (body (primaryBody cd)))); [|reflexivity].
      now rewrite !setValue_other by (intros ->; apply (Hp eq_refl); tauto).
  - destruct (isFinite (getMass (body (primaryBody cd)))); [|reflexivity].
    destruct (Z.ltb (-1) (getVarsIndex (body (primaryBody cd)))); [|reflexivity].
    now rewrite !setValue_other by (intros ->; apply (Hp eq_refl); tauto).
Qed.

Lemma applyImpulse_frame (s : Sim) (cd : RigidBodyCollision) (j : Q) (idx : Z) :
  ~ written_by cd idx ->
  vars (fst (applyImpulse s cd j)) idx = vars s idx.
Proof.
  intros Hw. unfold applyImpulse.
  destruct (negb (joint cd) && Qlt_bool j 0).
  - destruct (Qlt_bool j (- TINY_IMPULSE)); [reflexivity|].
    now apply applyImpulse_record_frame.
  - now apply applyImpulse_record_frame.
Qed.

Lemma applyImpulses_frame (cs : list RigidBodyCollision) (j : list Q) (idx : Z) :
  (forall c, In c cs -> ~ written_by c idx) ->
  forall s i impulse,
    vars (fst (fst (applyImpulses s cs j i impulse))) idx = vars s idx.
Proof.
  induction cs as [|c rest IH]; intros Hw s i impulse; [reflexivity|].
  cbn [applyImpulses].
  pose proof (applyImpulse_frame s c (nth i j 0) idx (Hw c (or_introl eq_refl))) as Hc.
  destruct (applyImpulse s c (nth i j 0)) as [s' [c'|e]]; cbn [fst] in Hc.
  - specialize (IH (fun c0 H0 => Hw c0 (or_intror H0)) s' (S i)
                   (if Qlt_bool TINY_IMPULSE (nth i j 0) then true else impulse)).
    destruct (applyImpulses s' rest j (S i) _) as [[s'' rest'] r].
    cbn [fst] in *. now rewrite IH.
  - exact Hc.
Qed.

Lemma handleCollisionsSimultaneous_frame
    (s : Sim) (collisions : list RigidBodyCollision) (opt_totals : option nat)
    (idx : Z) :
  (forall c, In c collisions -> ~ written_by c idx) ->
  getValue (vars (res_sim (handleCollisionsSimultaneous s collisions opt_totals))) idx
  = getValue (vars s) idx.
Proof.
  intros Hw. unfold handleCollisionsSimultaneous.
  destruct (compute_forces _ _ _ _ _ _ _) as [[j error] rng].
  match goal with |- context [if ?c then _ else _] => destruct c end;
    [reflexivity|].
  pose proof (applyImpulses_frame collisions j idx Hw (set_simRNG s rng) 0%nat false)
    as Hf.
  destruct (applyImpulses (set_simRNG s rng) collisions j 0 false)
    as [[s' cs] [impulse|e]]; cbn [fst] in Hf; cbn [res_sim].
  - unfold getValue in *.
    destruct (existsb _ collisions && impulse); cbn [vars set_vars].
    + fold (getValue (incrSequence (vars s') [1%Z; 3%Z]) idx).
      rewrite getValue_incrSequence. unfold getValue. now rewrite Hf.
    + now rewrite Hf.
  - unfold getValue. now rewrite Hf.
Qed.

Lemma handleCollisionsSerial_frame
    (fuel : nat) (s : Sim) (collisions : list RigidBodyCollision) (hybrid : bool)
    (opt_totals : option nat) (grouped lastPass : option bool)
    (small_velocity : option Q) (doPanic : option bool) (r : Result) (idx : Z) :
  (forall c, In c collisions -> ~ written_by c idx) ->
  handleCollisionsSerial fuel s collisions hybrid opt_totals grouped lastPass
    small_velocity doPanic = Some r ->
  getValue (vars (res_sim r)) idx = getValue (vars s) idx.
Proof.
  intros Hw. unfold handleCollisionsSerial.
  destruct (hcs_run _ _ _ _ _ _ _ _ _) as [[st [err|]]|]; [| |discriminate].
  - intros [= <-]. reflexivity.
  - pose proof (applyImpulses_frame collisions (st_j2 st) idx Hw
                  (set_simRNG s (st_rng st)) 0%nat false) as Hf.
    destruct (applyImpulses (set_simRNG s (st_rng st)) collisions (st_j2 st) 0 false)
      as [[s' cs] [impulse|e]]; cbn [fst] in Hf; intros [= <-]; cbn [res_sim].
    + unfold getValue in *.
      destruct (existsb _ collisions && impulse); cbn [vars set_vars].
      * fold (getValue (incrSequence (vars s') [1%Z; 3%Z]) idx).
        rewrite getValue_incrSequence. unfold getValue. now rewrite Hf.
      * now rewrite Hf.
    + unfold getValue. now rewrite Hf.
Qed.

(** C6. After a call of [handleCollisions], under any strategy and however
    the call ends, a variable keeps its value unless it is a velocity
    variable of a finite-mass body of one of the collisions; in particular
    the three velocities of an infinite-mass body are unchanged, bodies
    owning separate variables. *)
Theorem handleCollisions_infinite_mass_unchanged :
  forall fuel s collisions opt_totals r,
    handleCollisions fuel s collisions opt_totals = Some r ->
    (forall idx,
        (forall c, In c collisions -> ~ written_by c idx) ->
        getValue (vars (res_sim r)) idx = getValue (vars s) idx)
    /\ (forall B,
           isFinite (getMass (body B)) = false ->
           (forall p idx, p <> B -> velocity_index p idx -> ~ velocity_index B idx) ->
           forall idx,
             velocity_index B idx ->
             getValue (vars (res_sim r)) idx = getValue (vars s) idx).
Proof.
  intros fuel s collisions opt_totals r Hr.
  assert (Hframe : forall idx,
             (forall c, In c collisions -> ~ written_by c idx) ->
             getValue (vars (res_sim r)) idx = getValue (vars s) idx).
  { intros idx Hw. unfold handleCollisions in Hr.
    destruct (Nat.eqb (length collisions) 0); [now injection Hr as <-|].
    destruct (goog_DEBUG && negb (forallb checkConsistent collisions));
      [now injection Hr as <-|].
    destruct (collisionHandling_ s);
      try (eapply handleCollisionsSerial_frame; eassumption).
    injection Hr as <-. now apply handleCollisionsSimultaneous_frame. }
  split; [exact Hframe|].
  intros B HB Hlayout idx HBidx. apply Hframe.
  intros c _ [[Hfin Hv]|[Hfin Hv]].
  - apply (Hlayout (primaryBody c) idx); [congruence|exact Hv|exact HBidx].
  - apply (Hlayout (normalBody c) idx); [congruence|exact Hv|exact HBidx].
Qed.

(** ** The value returned by the serial handler *)

Lemma applyImpulses_returns (cs : list RigidBodyCollision) (j : list Q) :
  forall s i impulse s' cs' r,
    applyImpulses s cs j i impulse = (s', cs', Return r) ->
    (r = true <->
     impulse = true
     \/ exists k, (k < length cs)%nat /\ TINY_IMPULSE < nth (i + k) j 0).
Proof.
  induction cs as [|c rest IH]; intros s i impulse s' cs' r H.
  - cbn in H. injection H as _ _ <-. split; [now left|].
    intros [H|[k [Hk _]]]; [exact H|inversion Hk].
  - cbn [applyImpulses] in H.
    destruct (applyImpulse s c (nth i j 0)) as [s1 [c1|e]]; [|discriminate].
    destruct (applyImpulses s1 rest j (S i) _) as [[s2 rest'] r2] eqn:E.
    injection H as _ _ ->.
    rewrite (IH _ _ _ _ _ _ E). cbn [length]. split.
    + intros [H|[k [Hk Hlt]]].
      * destruct (Qlt_bool TINY_IMPULSE (nth i j 0)) eqn:Et; [|now left].
        right. exists 0%nat. rewrite Nat.add_0_r. split; [lia|].
        now apply Qlt_bool_iff.
      * right. exists (S k). split; [lia|]. now rewrite Nat.add_succ_r.
    + intros [H|[k [Hk Hlt]]].
      * left. rewrite H. now destruct (Qlt_bool TINY_IMPULSE (nth i j 0)).
      * destruct k as [|k].
        -- left. rewrite Nat.add_0_r in Hlt. apply Qlt_bool_iff in Hlt.
           now rewrite Hlt.
        -- right. exists k. split; [lia|]. now rewrite Nat.add_succ_r in Hlt.
Qed.

(** C3 (amended). When the serial handler returns, it returns true exactly
    when some cumulative impulse [j2[i]] left by the loop exceeds
    [TINY_IMPULSE]; whether a collision is a joint plays no part. *)
Theorem handleCollisionsSerial_returns_true_iff :
  forall fuel s collisions hybrid opt_totals grouped lastPass small_velocity doPanic
         r impulse,
    handleCollisionsSerial fuel s collisions hybrid opt_totals grouped lastPass
      small_velocity doPanic = Some r ->
    res_completion r = Return impulse ->
    exists st,
      hcs_run fuel s collisions hybrid opt_totals grouped lastPass small_velocity
        doPanic = Some (st, None)
      /\ (impulse = true <->
          exists i, (i < length collisions)%nat /\ TINY_IMPULSE < nth i (st_j2 st) 0).
Proof.
  intros fuel s collisions hybrid opt_totals grouped lastPass small_velocity doPanic
         r impulse Hr Hc.
  unfold handleCollisionsSerial in Hr.
  destruct (hcs_run _ _ _ _ _ _ _ _ _) as [[st [err|]]|]; [| |discriminate].
  - injection Hr as <-. discriminate.
  - exists st. split; [reflexivity|].
    destruct (applyImpulses _ collisions (st_j2 st) 0 false)
      as [[s' cs] [imp|e]] eqn:E; injection Hr as <-; [|discriminate].
    cbn [res_completion] in Hc. injection Hc as ->.
    rewrite (applyImpulses_returns _ _ _ _ _ _ _ _ E). split.
    + intros [H|H]; [discriminate|exact H].
    + intros H. now right.
Qed.

(** ** Lists indexed by position *)

Lemma map_nth_seq_id {A : Type} (l : list A) (d : A) :
  map (fun k => nth k l d) (seq 0 (length l)) = l.
Proof.
  induction l as [|a l IH]; [reflexivity|].
  cbn [length seq map nth]. f_equal.
  rewrite <- seq_shift, map_map. exact IH.
Qed.

Lemma nth_map_seq {B : Type} (f : nat -> B) (n i : nat) (d : B) :
  (i < n)%nat -> nth i (map f (seq 0 n)) d = f i.
Proof.
  intros Hi.
  rewrite (nth_indep _ d (f 0%nat)) by (rewrite length_map, length_seq; exact Hi).
  rewrite map_nth, seq_nth by exact Hi. reflexivity.
Qed.

Lemma nth_map_lt {A B : Type} (f : A -> B) (l : list A) (i : nat) (d : B) (d' : A) :
  (i < length l)%nat -> nth i (map f l) d = f (nth i l d').
Proof.
  intros Hi. apply nth_error_nth.
  rewrite nth_error_map, (nth_error_nth' l d' Hi). reflexivity.
Qed.

Lemma fold_left_ext_in {A B : Type} (f g : A -> B -> A) (l : list B) :
  (forall a x, In x l -> f a x = g a x) ->
  forall a, fold_left f l a = fold_left g l a.
Proof.
  induction l as [|x l IH]; intros H a; [reflexivity|].
  cbn [fold_left]. rewrite (H a x (or_introl eq_refl)).
  apply IH. intros a' x' Hx'. apply H. now right.
Qed.

Lemma fold_left_sum_shift (t : nat -> Q) (l : list nat) (c : Q) :
  fold_left (fun r k => r + t k) l c == fold_left (fun r k => r + t k) l 0 + c.
Proof.
  revert c. induction l as [|x l IH]; intros c; cbn [fold_left]; [ring|].
  rewrite (IH (c + t x)), (IH (0 + t x)). ring.
Qed.

Lemma nth_matrixMultiply (A : Matrix) (x : list Q) (i : nat) :
  (i < length A)%nat ->
  nth i (matrixMultiply A x) 0
  = fold_left (fun r k => r + entry A i k * nth k x 0) (seq 0 (length x)) 0.
Proof.
  intros Hi. unfold matrixMultiply, entry.
  now rewrite (nth_map_lt _ A i 0 []) by exact Hi.
Qed.

Lemma nth_vectorAdd (u v : list Q) (i : nat) :
  (i < length u)%nat -> nth i (vectorAdd u v) 0 = nth i u 0 + nth i v 0.
Proof.
  intros Hi. unfold vectorAdd. now rewrite nth_map_seq.
Qed.

(** ** The subset of the last pass *)

Lemma hcs_set_last (hybrid grouped : bool) (small_velocity : Q) (b : list Q)
    (collisions : list RigidBodyCollision) :
  hcs_set hybrid grouped small_velocity (-1) b collisions = repeat true (length b).
Proof. reflexivity. Qed.

Lemma hcs_idx2_all (n : nat) : hcs_idx2 (repeat true n) = seq 0 n.
Proof.
  unfold hcs_idx2. rewrite repeat_length.
  apply forallb_filter_id, forallb_forall.
  intros x Hx%in_seq. apply nth_repeat_lt. lia.
Qed.

Lemma hcs_idx_all (n : nat) :
  forall z j, (j < n)%nat ->
    nth j (hcs_idx (repeat true n) z) (-1)%Z = (z + Z.of_nat j)%Z.
Proof.
  induction n as [|n IH]; intros z j Hj; [lia|].
  cbn [repeat hcs_idx]. destruct j as [|j]; cbn [nth]; [lia|].
  rewrite IH by lia. lia.
Qed.

Lemma submatrix_all (A : Matrix) (n : nat) :
  length A = n -> (forall row, In row A -> length row = n) ->
  map (fun i => map (fun j => entry A i j) (seq 0 n)) (seq 0 n) = A.
Proof.
  intros HA Hrows.
  transitivity (map (fun k => nth k A []) (seq 0 (length A)));
    [|apply map_nth_seq_id].
  rewrite HA.
  apply map_ext_in. intros i Hi%in_seq. unfold entry.
  rewrite <- (Hrows (nth i A [])) by (apply nth_In; lia).
  apply map_nth_seq_id.
Qed.

Lemma makeCollisionMatrix_square (collisions : list RigidBodyCollision) :
  length (makeCollisionMatrix body collisions) = length collisions
  /\ forall row, In row (makeCollisionMatrix body collisions) ->
       length row = length collisions.
Proof.
  unfold makeCollisionMatrix. split; [apply length_map|].
  intros row [ci [<- _]]%in_map_iff. apply length_map.
Qed.

(** ** One pass of the serial loop *)

Lemma hcs_handle_shape hybrid grouped focus joint_ e collisions A t st st' :
  hcs_handle hybrid grouped focus joint_ e collisions A t st = (st', None) ->
  length (st_b st') = length (st_b st)
  /\ st_small_velocity st' = st_small_velocity st.
Proof.
  unfold hcs_handle. cbv zeta.
  destruct (compute_forces _ _ _ _ _ _ _) as [[j1 error] rng].
  match goal with |- (if ?c then _ else _) = _ -> _ => destruct c end;
    [discriminate|].
  intros [= <-]. cbn [st_b st_small_velocity].
  now rewrite length_map, length_seq.
Qed.

(** In the last pass the solver receives the whole system, and the new
    velocities are [b + A j1]. *)
Lemma hcs_handle_last hybrid grouped joint_ e collisions A t st st' :
  length joint_ = length (st_b st) ->
  length A = length (st_b st) ->
  (forall row, In row A -> length row = length (st_b st)) ->
  hcs_handle hybrid grouped (-1) joint_ e collisions A t st = (st', None) ->
  exists j1 error rng,
    compute_forces A (zeros (length (st_b st))) (st_b st) joint_ false t (st_rng st)
    = (j1, error, rng)
    /\ st_b st'
       = map (fun i =>
                fold_left (fun bi j => bi + entry A i j * nth j j1 0)
                  (seq 0 (length (st_b st))) (nth i (st_b st) 0))
             (seq 0 (length (st_b st))).
Proof.
  intros Hj HA Hrows. unfold hcs_handle. cbv zeta.
  rewrite hcs_set_last, hcs_idx2_all, length_seq.
  rewrite (submatrix_all A _ HA Hrows).
  rewrite (map_nth_seq_id (st_b st) 0).
  assert (Ejoint : map (fun i => nth i joint_ false) (seq 0 (length (st_b st)))
                   = joint_)
    by (rewrite <- Hj; apply map_nth_seq_id).
  rewrite Ejoint.
  change (negb (Z.eqb (-1) (-1))) with false. cbv iota.
  destruct (compute_forces _ _ _ _ _ _ _) as [[j1 error] rng].
  match goal with |- (if ?c then _ else _) = _ -> _ => destruct c end;
    [discriminate|].
  intros [= <-]. exists j1, error, rng. split; [reflexivity|].
  cbn [st_b]. apply map_ext_in. intros i _.
  apply fold_left_ext_in. intros bi j Hin%in_seq.
  rewrite nth_repeat_lt by lia.
  rewrite hcs_idx_all by lia. now rewrite Z.add_0_l, Nat2Z.id.
Qed.

Lemma hcs_focus_value small_velocity joint_ b rng :
  fst (hcs_focus small_velocity joint_ b rng)
  = match find (large small_velocity joint_ b)
            (firstn (length b) (fst (randomInts rng (length b)))) with
    | Some j => Z.of_nat j
    | None => (-1)%Z
    end.
Proof.
  unfold hcs_focus. now destruct (randomInts rng (length b)).
Qed.

Lemma small_at_of_large small_velocity joint_ b i :
  (i < length b)%nat ->
  large small_velocity joint_ b i = false ->
  small_at small_velocity joint_ b i.
Proof.
  intros Hi. unfold large, small_at.
  rewrite (nth_error_nth' b 0 Hi).
  destruct (nth i joint_ false); cbn [negb andb orb]; intros H.
  - now apply Qlt_bool_false_iff.
  - rewrite orb_false_r in H. now apply Qlt_bool_false_iff.
Qed.

Section SerialLoop.

Variables (hybrid grouped lastPass doPanic : bool).
Variables (joint_ : list bool) (e : list Q).
Variable collisions : list RigidBodyCollision.
Variable A : Matrix.
Variable t : Q.

Hypothesis randomInts_all :
  forall r n i, (i < n)%nat -> In i (firstn n (fst (randomInts r n))).
Hypothesis A_rows : length A = length joint_.
Hypothesis A_cols : forall row, In row A -> length row = length joint_.
Hypothesis solver_ok : lastPass = true -> meets_contract_on A joint_.

Lemma hcs_iteration_continue st st' :
  hcs_inv joint_ st ->
  hcs_iteration hybrid grouped lastPass doPanic joint_ e collisions A t st
  = (st', Continue) ->
  hcs_inv joint_ st'.
Proof.
  intros [Hlen Hpos]. unfold hcs_iteration. cbv zeta.
  destruct (hcs_focus _ _ _ _) as [focus rng].
  destruct (Z.eqb focus (-1) && negb lastPass); [discriminate|].
  destruct (hcs_handle _ _ _ _ _ _ _ _ _) as [st2 [err|]] eqn:Eh; [discriminate|].
  intros [= <- _]. apply hcs_handle_shape in Eh. cbn in Eh. destruct Eh as [E1 E2].
  unfold hcs_inv. cbn [st_b st_small_velocity]. rewrite E1, E2. split; [exact Hlen|].
  destruct (doPanic && _); lra.
Qed.

Lemma hcs_iteration_break st st' :
  hcs_inv joint_ st ->
  hcs_iteration hybrid grouped lastPass doPanic joint_ e collisions A t st
  = (st', Break) ->
  forall i, (i < length joint_)%nat ->
    small_at (st_small_velocity st') joint_ (st_b st') i.
Proof.
  intros [Hlen Hpos]. unfold hcs_iteration. cbv zeta.
  set (sv := if doPanic && _ then _ else st_small_velocity st).
  assert (Hsv : 0 < sv) by (subst sv; destruct (doPanic && _); lra).
  pose proof (hcs_focus_value sv joint_ (st_b st) (st_rng st)) as Hf.
  destruct (hcs_focus sv joint_ (st_b st) (st_rng st)) as [focus rng].
  cbn [fst] in Hf.
  destruct (Z.eqb focus (-1) && negb lastPass) eqn:Eb.
  - (* no collision is large, and there is no last pass *)
    intros [= <-] i Hi. cbn [st_b st_small_velocity].
    destruct (find _ _) as [j|] eqn:Efind.
    + apply andb_prop in Eb. destruct Eb as [Eb _].
      apply Z.eqb_eq in Eb. lia.
    + apply small_at_of_large; [lia|].
      apply (find_none _ _ Efind). apply randomInts_all. lia.
  - destruct (hcs_handle _ _ _ _ _ _ _ _ _) as [st2 [err|]] eqn:Eh; [discriminate|].
    destruct (Z.ltb (-1) focus) eqn:Elt; [discriminate|].
    intros [= <-] i Hi. cbn [st_b st_small_velocity].
    assert (focus = (-1)%Z) as ->.
    { destruct (find _ _); [apply Z.ltb_ge in Elt; lia|exact Hf]. }
    assert (HlastPass : lastPass = true) by (now destruct lastPass).
    pose proof (hcs_handle_shape _ _ _ _ _ _ _ _ _ _ Eh) as [_ Esv].
    cbn [st_small_velocity] in Esv. rewrite Esv.
    apply hcs_handle_last in Eh; cbn [st_b st_rng]; [| lia | lia |
      intros row Hrow; rewrite Hlen; now apply A_cols].
    cbn [st_b st_rng] in Eh. destruct Eh as [j1 [error [rng' [Ec ->]]]].
    destruct (solver_ok HlastPass (zeros (length (st_b st))) (st_b st) false t rng)
      as [Hj1 Hsol]; [lia|].
    rewrite Ec in Hj1, Hsol. cbn [fst] in Hj1, Hsol.
    specialize (Hsol i ltac:(lia)). cbv zeta in Hsol.
    rewrite nth_vectorAdd in Hsol by (unfold matrixMultiply; rewrite length_map; lia).
    rewrite nth_matrixMultiply in Hsol by lia.
    rewrite Hj1, A_rows, <- Hlen in Hsol.
    unfold small_at. rewrite nth_map_seq by lia.
    pose proof (fold_left_sum_shift (fun j => entry A i j * nth j j1 0)
                  (seq 0 (length (st_b st))) (nth i (st_b st) 0)) as Hshift.
    cbv beta in Hshift.
    destruct (nth i joint_ false).
    + rewrite Hshift, Hsol. cbn. lra.
    + rewrite Hshift. destruct Hsol as [_ [Ha _]]. lra.
Qed.

Lemma hcs_loop_exit fuel :
  forall st st',
    hcs_inv joint_ st ->
    hcs_loop fuel hybrid grouped lastPass doPanic joint_ e collisions A t st
    = Some (st', None) ->
    forall i, (i < length joint_)%nat ->
      small_at (st_small_velocity st') joint_ (st_b st') i.
Proof.
  induction fuel as [|fuel IH]; intros st st' Hinv; [discriminate|].
  cbn [hcs_loop].
  destruct (hcs_iteration _ _ _ _ _ _ _ _ _ _) as [st1 [| |err]] eqn:Eit.
  - apply IH. eapply hcs_iteration_continue; eassumption.
  - intros [= <-]. eapply hcs_iteration_break; eassumption.
  - discriminate.
Qed.

End SerialLoop.

(** ** The exit of the serial loop *)

(** What the exit gives under every strategy: when the loop of the serial
    handler exits without error, the generator listing every index and the
    solver meeting its contract on the full system, every collision that is
    not a joint has [b[i] >= -small_velocity] and every joint has
    [|b[i]| <= small_velocity], for the tolerance [small_velocity] in effect
    at the exit.  The bounds are not strict: see [hcs_run_exit_not_strict]. *)
Theorem hcs_run_exit_small :
  forall fuel s collisions hybrid opt_totals grouped lastPass small_velocity doPanic st,
    (forall r n i, (i < n)%nat -> In i (firstn n (fst (randomInts r n)))) ->
    0 < default_small_velocity small_velocity ->
    (default_true lastPass = true ->
     meets_contract_on (makeCollisionMatrix body collisions) (map joint collisions)) ->
    hcs_run fuel s collisions hybrid opt_totals grouped lastPass small_velocity doPanic
    = Some (st, None) ->
    forall i c,
      nth_error collisions i = Some c ->
      if joint c then Qabs (nth i (st_b st) 0) <= st_small_velocity st
      else - st_small_velocity st <= nth i (st_b st) 0.
Proof.
  intros fuel s collisions hybrid opt_totals grouped lastPass small_velocity doPanic st
         Hrand Hsv Hsolver Hrun i c Hc.
  destruct (makeCollisionMatrix_square collisions) as [Hrows Hcols].
  assert (Hi : (i < length collisions)%nat) by (apply nth_error_Some; congruence).
  unfold hcs_run in Hrun.
  pose proof (hcs_loop_exit hybrid (default_true grouped) (default_true lastPass)
                (default_true doPanic) (map joint collisions)
                (hcs_elasticity (default_true grouped) collisions) collisions
                (makeCollisionMatrix body collisions) (time s) Hrand) as Hexit.
  rewrite length_map in Hexit.
  specialize (Hexit Hrows Hcols Hsolver fuel
                (hcs_init s collisions opt_totals small_velocity) st).
  assert (Hinv : hcs_inv (map joint collisions)
                    (hcs_init s collisions opt_totals small_velocity))
    by (split; [cbn [hcs_init st_b]; now rewrite !length_map|exact Hsv]).
  specialize (Hexit Hinv Hrun i Hi).
  unfold small_at in Hexit.
  rewrite (nth_map_lt joint collisions i false c Hi) in Hexit.
  now rewrite (nth_error_nth _ _ c Hc) in Hexit.
Qed.

(** With the last pass on, the loop exits out of a pass over all collisions.
    After such a pass whose solver call returns a solution of its system,
    over exact arithmetic, every joint has [b[i] = 0] and every other
    collision has [b[i] >= 0]: the strict bounds hold at any tolerance
    above 0. *)
Lemma hcs_handle_last_pass hybrid grouped joint_ e collisions A t st st' :
  length joint_ = length (st_b st) ->
  length A = length (st_b st) ->
  (forall row, In row A -> length row = length (st_b st)) ->
  hcs_handle hybrid grouped (-1) joint_ e collisions A t st = (st', None) ->
  lcp_solution A (st_b st) joint_
    (fst (fst (compute_forces A (zeros (length (st_b st))) (st_b st) joint_ false t
                 (st_rng st)))) ->
  forall i, (i < length (st_b st))%nat ->
    if nth i joint_ false then nth i (st_b st') 0 == 0
    else 0 <= nth i (st_b st') 0.
Proof.
  intros Hj HA Hrows Hh Hsolver i Hi.
  destruct (hcs_handle_last _ _ _ _ _ _ _ _ _ Hj HA Hrows Hh)
    as (j1 & error & rng & Ec & ->).
  rewrite Ec in Hsolver. cbn [fst] in Hsolver. destruct Hsolver as [Hj1 Hsol].
  specialize (Hsol i ltac:(lia)). cbv zeta in Hsol.
  rewrite nth_vectorAdd in Hsol by (unfold matrixMultiply; rewrite length_map; lia).
  rewrite nth_matrixMultiply in Hsol by lia.
  rewrite Hj1, HA in Hsol.
  rewrite nth_map_seq by exact Hi.
  pose proof (fold_left_sum_shift (fun j => entry A i j * nth j j1 0)
                (seq 0 (length (st_b st))) (nth i (st_b st) 0)) as Hshift.
  cbv beta in Hshift.
  destruct (nth i joint_ false).
  - now rewrite Hshift.
  - rewrite Hshift. exact (proj1 (proj2 Hsol)).
Qed.

(** ** The loop counter and its ceiling *)

Lemma hcs_handle_keeps hybrid grouped focus joint_ e collisions A t st st' err :
  hcs_handle hybrid grouped focus joint_ e collisions A t st = (st', err) ->
  st_loopCtr st' = st_loopCtr st
  /\ count_LoopLimit (st_console st') = count_LoopLimit (st_console st)
  /\ (forall x, err = Some x -> exists code, x = ComputeImpulsesFailed code).
Proof.
  unfold hcs_handle. cbv zeta.
  destruct (compute_forces _ _ _ _ _ _ _) as [[j1 error] rng].
  match goal with |- (if ?c then _ else _) = _ -> _ => destruct c end;
    intros [= <- <-]; cbn [st_loopCtr st_console].
  - repeat split. intros x [= <-]. now eexists.
  - repeat split; [|discriminate].
    now destruct (negb (Z.eqb error (-1)) && goog_DEBUG).
Qed.

Section Ceiling.

Variables (hybrid grouped lastPass doPanic : bool).
Variables (joint_ : list bool) (e : list Q).
Variable collisions : list RigidBodyCollision.
Variable A : Matrix.
Variable t : Q.

Lemma hcs_iteration_ceiling st st' step :
  hcs_iteration hybrid grouped lastPass doPanic joint_ e collisions A t st
  = (st', step) ->
  st_loopCtr st' = (st_loopCtr st + 1)%Z
  /\ count_LoopLimit (st_console st')
     = (count_LoopLimit (st_console st)
        + if goog_DEBUG && Z.ltb LOOP_LIMIT (st_loopCtr st') then 1 else 0)%nat
  /\ (step = Break ->
      fst (hcs_focus (st_small_velocity st') joint_ (st_b st) (st_rng st)) = (-1)%Z)
  /\ (forall x, step = Raise x -> exists code, x = ComputeImpulsesFailed code).
Proof.
  unfold hcs_iteration. cbv zeta.
  set (sv := if doPanic && _ then _ else st_small_velocity st).
  pose proof (hcs_focus_value sv joint_ (st_b st) (st_rng st)) as Hf.
  destruct (hcs_focus sv joint_ (st_b st) (st_rng st)) as [focus rng].
  cbn [fst] in Hf.
  assert (Hcount : forall c : list LogEntry,
             count_LoopLimit
               (if goog_DEBUG && Z.ltb LOOP_LIMIT (st_loopCtr st + 1)
                then LoopLimit (st_loopCtr st + 1)
                       :: (if doPanic && Z.ltb (st_loopPanic st) (st_loopCtr st + 1)
                              && goog_DEBUG
                           then LoopPanic (st_loopCtr st + 1) sv :: c else c)
                else if doPanic && Z.ltb (st_loopPanic st) (st_loopCtr st + 1)
                        && goog_DEBUG
                     then LoopPanic (st_loopCtr st + 1) sv :: c else c)
             = (count_LoopLimit c
                + if goog_DEBUG && Z.ltb LOOP_LIMIT (st_loopCtr st + 1)
                  then 1 else 0)%nat).
  { intros c. unfold count_LoopLimit.
    destruct (goog_DEBUG && Z.ltb LOOP_LIMIT (st_loopCtr st + 1));
      destruct (doPanic && Z.ltb (st_loopPanic st) (st_loopCtr st + 1) && goog_DEBUG);
      cbn [filter is_LoopLimit length]; lia. }
  destruct (Z.eqb focus (-1) && negb lastPass) eqn:Eb.
  - intros [= <- <-]. cbn [st_loopCtr st_console st_small_velocity].
    repeat split; [apply Hcount| |discriminate].
    intros _. apply andb_prop in Eb. destruct Eb as [Eb _].
    apply Z.eqb_eq in Eb. fold sv. rewrite hcs_focus_value, <- Hf. exact Eb.
  - destruct (hcs_handle _ _ _ _ _ _ _ _ _) as [st2 [err|]] eqn:Eh;
      pose proof (hcs_handle_keeps _ _ _ _ _ _ _ _ _ _ _ Eh) as [Hctr [Hcon Herr]];
      pose proof Eh as Hshape;
      cbn [st_loopCtr st_console] in Hctr, Hcon.
    + intros [= <- <-]. rewrite Hctr, Hcon. repeat split;
        [apply Hcount|discriminate|].
      intros x [= <-]. now apply Herr.
    + apply hcs_handle_shape in Hshape. destruct Hshape as [_ Hsv].
      cbn [st_small_velocity] in Hsv.
      intros [= <- <-]. cbn [st_loopCtr st_console st_small_velocity].
      rewrite Hctr, Hcon, Hsv. repeat split; [apply Hcount| |].
      * destruct (Z.ltb (-1) focus) eqn:Elt; [discriminate|]. intros _.
        fold sv. rewrite hcs_focus_value, <- Hf.
        destruct (find _ _); [apply Z.ltb_ge in Elt; lia|exact Hf].
      * intros x. now destruct (Z.ltb (-1) focus).
Qed.

(** C8 (amended). The ceiling on the loop counter does not bound the loop.
    A pass adds one to the counter; when the counter is above [LOOP_LIMIT]
    the pass writes one diagnostic line if [goog.DEBUG] is on and nothing
    otherwise; the loop ends only when focus selection finds no collision
    above the tolerance in effect, and an error comes only from the check of
    the solver.  Over a whole run there are as many diagnostic lines as
    passes above the ceiling under [goog.DEBUG], and none without it. *)
Theorem hcs_loop_ceiling_only_logs :
  (forall st st' step,
      hcs_iteration hybrid grouped lastPass doPanic joint_ e collisions A t st
      = (st', step) ->
      st_loopCtr st' = (st_loopCtr st + 1)%Z
      /\ count_LoopLimit (st_console st')
         = (count_LoopLimit (st_console st)
            + if goog_DEBUG && Z.ltb LOOP_LIMIT (st_loopCtr st') then 1 else 0)%nat
      /\ (step = Break ->
          fst (hcs_focus (st_small_velocity st') joint_ (st_b st) (st_rng st))
          = (-1)%Z)
      /\ (forall x, step = Raise x -> exists code, x = ComputeImpulsesFailed code))
  /\ (forall fuel st st' err,
         hcs_loop fuel hybrid grouped lastPass doPanic joint_ e collisions A t st
         = Some (st', err) ->
         (st_loopCtr st < st_loopCtr st')%Z
         /\ count_LoopLimit (st_console st')
            = (count_LoopLimit (st_console st)
               + if goog_DEBUG
                 then Z.to_nat (Z.max LOOP_LIMIT (st_loopCtr st')
                                - Z.max LOOP_LIMIT (st_loopCtr st))
                 else 0)%nat).
Proof.
  split; [exact hcs_iteration_ceiling|].
  induction fuel as [|fuel IH]; intros st st' err; [discriminate|].
  cbn [hcs_loop].
  destruct (hcs_iteration _ _ _ _ _ _ _ _ _ _) as [st1 step] eqn:Eit.
  apply hcs_iteration_ceiling in Eit. destruct Eit as [Hctr [Hcon _]].
  assert (Hone : count_LoopLimit (st_console st1)
                 = (count_LoopLimit (st_console st)
                    + if goog_DEBUG
                      then Z.to_nat (Z.max LOOP_LIMIT (st_loopCtr st1)
                                     - Z.max LOOP_LIMIT (st_loopCtr st))
                      else 0)%nat).
  { rewrite Hcon. destruct goog_DEBUG; cbn [andb]; [|reflexivity].
    destruct (Z.ltb_spec LOOP_LIMIT (st_loopCtr st1)); lia. }
  destruct step as [| |x].
  - intros Hloop. apply IH in Hloop. destruct Hloop as [Hlt Hloop].
    split; [lia|]. rewrite Hloop, Hone. destruct goog_DEBUG; lia.
  - intros [= <- <-]. split; [lia|exact Hone].
  - intros [= <- <-]. split; [lia|exact Hone].
Qed.

End Ceiling.

(** ** Determinism *)

Lemma hcs_loop_fuel_mono hybrid grouped lastPass doPanic joint_ e collisions A t :
  forall fuel fuel' st r,
    (fuel <= fuel')%nat ->
    hcs_loop fuel hybrid grouped lastPass doPanic joint_ e collisions A t st = Some r ->
    hcs_loop fuel' hybrid grouped lastPass doPanic joint_ e collisions A t st = Some r.
Proof.
  induction fuel as [|fuel IH]; intros fuel' st r Hle; [discriminate|].
  destruct fuel' as [|fuel']; [lia|]. cbn [hcs_loop].
  destruct (hcs_iteration _ _ _ _ _ _ _ _ _ _) as [st1 [| |x]]; try exact id.
  apply IH. lia.
Qed.

Lemma hcs_run_agree fuel1 fuel2 s1 s2 collisions hybrid opt_totals grouped lastPass
    small_velocity doPanic r1 r2 :
  agree s1 s2 ->
  hcs_run fuel1 s1 collisions hybrid opt_totals grouped lastPass small_velocity doPanic
  = Some r1 ->
  hcs_run fuel2 s2 collisions hybrid opt_totals grouped lastPass small_velocity doPanic
  = Some r2 ->
  r1 = r2.
Proof.
  intros (_ & Hrng & _ & Htime). unfold hcs_run, hcs_init.
  rewrite Hrng, Htime. intros H1 H2.
  apply (hcs_loop_fuel_mono _ _ _ _ _ _ _ _ _ _ (Nat.max fuel1 fuel2)) in H1;
    [|apply Nat.le_max_l].
  apply (hcs_loop_fuel_mono _ _ _ _ _ _ _ _ _ _ (Nat.max fuel1 fuel2)) in H2;
    [|apply Nat.le_max_r].
  congruence.
Qed.

Lemma set_simRNG_agree s1 s2 rng :
  agree s1 s2 -> agree (set_simRNG s1 rng) (set_simRNG s2 rng).
Proof. intros (H1 & _ & H3 & H4). now repeat split. Qed.

Lemma incrSequence_agree s1 s2 l :
  agree s1 s2 ->
  agree (set_vars s1 (incrSequence (vars s1) l)) (set_vars s2 (incrSequence (vars s2) l)).
Proof.
  intros (H1 & H2 & H3 & H4). unfold agree. cbn. now rewrite H1.
Qed.

Lemma applyImpulse_agree s1 s2 cd j :
  agree s1 s2 ->
  agree (fst (applyImpulse s1 cd j)) (fst (applyImpulse s2 cd j))
  /\ snd (applyImpulse s1 cd j) = snd (applyImpulse s2 cd j).
Proof.
  intros Hag.
  assert (Hrec : forall j0,
             agree (fst (applyImpulse_record s1 cd j0))
                   (fst (applyImpulse_record s2 cd j0))
             /\ snd (applyImpulse_record s1 cd j0)
                = snd (applyImpulse_record s2 cd j0)).
  { intros j0. rewrite !applyImpulse_record_returns. split; [|reflexivity].
    destruct Hag as (H1 & H2 & H3 & H4). unfold applyImpulse_record.
    destruct (Qeq_bool j0 0); cbn [fst]; [now repeat split|].
    unfold agree. cbn [showCollisionDot_ set_vars].
    rewrite H1.
    destruct (showCollisionDot_ s1), (showCollisionDot_ s2);
      cbn [debugCircle set_vars vars simRNG_ collisionHandling_ time];
      now repeat split. }
  unfold applyImpulse.
  destruct (negb (joint cd) && Qlt_bool j 0); [|apply Hrec].
  destruct (Qlt_bool j (- TINY_IMPULSE)); [now split|apply Hrec].
Qed.

Lemma applyImpulses_agree cs j :
  forall s1 s2 i impulse,
    agree s1 s2 ->
    agree (fst (fst (applyImpulses s1 cs j i impulse)))
          (fst (fst (applyImpulses s2 cs j i impulse)))
    /\ snd (fst (applyImpulses s1 cs j i impulse))
       = snd (fst (applyImpulses s2 cs j i impulse))
    /\ snd (applyImpulses s1 cs j i impulse) = snd (applyImpulses s2 cs j i impulse).
Proof.
  induction cs as [|c rest IH]; intros s1 s2 i impulse Hag;
    [cbn [applyImpulses fst snd]; now split|].
  cbn [applyImpulses].
  destruct (applyImpulse_agree s1 s2 c (nth i j 0) Hag) as [Hag' Hc].
  destruct (applyImpulse s1 c (nth i j 0)) as [s1' c1].
  destruct (applyImpulse s2 c (nth i j 0)) as [s2' c2].
  cbn [fst snd] in Hag', Hc. subst c2.
  destruct c1 as [c'|err];
    [|cbn [fst snd]; split; [exact Hag'|split; reflexivity]].
  specialize (IH s1' s2' (S i)
                 (if Qlt_bool TINY_IMPULSE (nth i j 0) then true else impulse) Hag').
  destruct (applyImpulses s1' rest j (S i) _) as [[t1 l1] q1].
  destruct (applyImpulses s2' rest j (S i) _) as [[t2 l2] q2].
  cbn [fst snd] in *. destruct IH as (Ha & -> & ->).
  split; [exact Ha|split; reflexivity].
Qed.

Lemma handleCollisionsSimultaneous_agree s1 s2 collisions opt_totals :
  agree s1 s2 ->
  same_outcome (handleCollisionsSimultaneous s1 collisions opt_totals)
               (handleCollisionsSimultaneous s2 collisions opt_totals).
Proof.
  intros Hag. pose proof Hag as (H1 & H2 & H3 & H4).
  unfold handleCollisionsSimultaneous. rewrite H2, H4.
  destruct (compute_forces _ _ _ _ _ _ _) as [[j error] rng].
  match goal with |- context [if ?c then mkResult _ _ _ _ (Throw _) else _] =>
    destruct c end.
  - unfold same_outcome. cbn. now repeat split.
  - pose proof (applyImpulses_agree collisions j _ _ 0%nat false
                  (set_simRNG_agree s1 s2 rng Hag)) as (Ha & Hcs & Hr).
    destruct (applyImpulses (set_simRNG s1 rng) collisions j 0 false) as [[t1 l1] q1].
    destruct (applyImpulses (set_simRNG s2 rng) collisions j 0 false) as [[t2 l2] q2].
    cbn [fst snd] in Ha, Hcs, Hr. subst l2 q2.
    destruct q1 as [impulse|err].
    + unfold same_outcome. cbn [res_completion res_collisions res_sim res_totals
        res_console].
      destruct (existsb _ collisions && impulse).
      * destruct (incrSequence_agree t1 t2 [1%Z; 3%Z] Ha) as (E1 & E2 & _).
        now repeat split.
      * destruct Ha as (E1 & E2 & _). now repeat split.
    + unfold same_outcome. cbn. destruct Ha as (E1 & E2 & _). now repeat split.
Qed.

Lemma handleCollisionsSerial_agree fuel1 fuel2 s1 s2 collisions hybrid opt_totals
    grouped lastPass small_velocity doPanic r1 r2 :
  agree s1 s2 ->
  handleCollisionsSerial fuel1 s1 collisions hybrid opt_totals grouped lastPass
    small_velocity doPanic = Some r1 ->
  handleCollisionsSerial fuel2 s2 collisions hybrid opt_totals grouped lastPass
    small_velocity doPanic = Some r2 ->
  same_outcome r1 r2.
Proof.
  intros Hag. unfold handleCollisionsSerial.
  destruct (hcs_run fuel1 s1 _ _ _ _ _ _ _) as [l1|] eqn:E1; [|discriminate].
  destruct (hcs_run fuel2 s2 _ _ _ _ _ _ _) as [l2|] eqn:E2; [|discriminate].
  pose proof (hcs_run_agree _ _ _ _ _ _ _ _ _ _ _ _ _ Hag E1 E2) as <-.
  destruct l1 as [st [err|]].
  - intros [= <-] [= <-]. unfold same_outcome. cbn.
    destruct Hag as (H1 & _). now repeat split.
  - pose proof (applyImpulses_agree collisions (st_j2 st) _ _ 0%nat false
                  (set_simRNG_agree s1 s2 (st_rng st) Hag)) as (Ha & Hcs & Hr).
    destruct (applyImpulses (set_simRNG s1 _) collisions (st_j2 st) 0 false)
      as [[t1 l1] q1].
    destruct (applyImpulses (set_simRNG s2 _) collisions (st_j2 st) 0 false)
      as [[t2 l2] q2].
    cbn [fst snd] in Ha, Hcs, Hr. subst l2 q2.
    destruct q1 as [impulse|err]; intros [= <-] [= <-].
    + unfold same_outcome. cbn [res_completion res_collisions res_sim res_totals
        res_console].
      destruct (existsb _ collisions && impulse).
      * destruct (incrSequence_agree t1 t2 [1%Z; 3%Z] Ha) as (F1 & F2 & _).
        now repeat split.
      * destruct Ha as (F1 & F2 & _). now repeat split.
    + unfold same_outcome. cbn. destruct Ha as (F1 & F2 & _). now repeat split.
Qed.

(** The number of passes allowed and the display settings of the
    simulation play no part in the outcome of [handleCollisions]: two calls
    on the same collisions and totals, on simulations with the same
    variables, generator state, strategy and time, end the same way.  (That
    the solver and the generator are functions of their arguments is how
    they are modelled, not something proved here.) *)
Theorem handleCollisions_agree :
  forall fuel1 fuel2 s1 s2 collisions opt_totals r1 r2,
    vars s1 = vars s2 ->
    simRNG_ s1 = simRNG_ s2 ->
    collisionHandling_ s1 = collisionHandling_ s2 ->
    time s1 = time s2 ->
    handleCollisions fuel1 s1 collisions opt_totals = Some r1 ->
    handleCollisions fuel2 s2 collisions opt_totals = Some r2 ->
    res_completion r1 = res_completion r2
    /\ res_collisions r1 = res_collisions r2
    /\ vars (res_sim r1) = vars (res_sim r2)
    /\ simRNG_ (res_sim r1) = simRNG_ (res_sim r2)
    /\ res_totals r1 = res_totals r2
    /\ res_console r1 = res_console r2.
Proof.
  intros fuel1 fuel2 s1 s2 collisions opt_totals r1 r2 Hv Hr Hc Ht.
  assert (Hag : agree s1 s2) by (now repeat split).
  unfold handleCollisions. rewrite <- Hc.
  destruct (Nat.eqb (length collisions) 0);
    [intros [= <-] [= <-]; cbn; now repeat split|].
  destruct (goog_DEBUG && negb (forallb checkConsistent collisions));
    [intros [= <-] [= <-]; cbn; now repeat split|].
  destruct (collisionHandling_ s1);
    try (apply (handleCollisionsSerial_agree _ _ _ _ _ _ _ _ _ _ _ _ _ Hag)).
  intros [= <-] [= <-]. now apply handleCollisionsSimultaneous_agree.
Qed.

(** ** Impulses that are not negative are applied without error *)

Lemma applyImpulses_no_throw (cs : list RigidBodyCollision) (j : list Q) :
  (forall i, 0 <= nth i j 0) ->
  forall s i impulse,
    exists s' cs' r, applyImpulses s cs j i impulse = (s', cs', Return r).
Proof.
  intros Hj. induction cs as [|c rest IH]; intros s i impulse.
  - now exists s, [], impulse.
  - cbn [applyImpulses].
    assert (E : applyImpulse s c (nth i j 0)
                = applyImpulse_record s c (nth i j 0)).
    { unfold applyImpulse.
      rewrite (proj2 (Qlt_bool_false_iff (nth i j 0) 0) (Hj i)).
      now rewrite andb_false_r. }
    rewrite E.
    pose proof (applyImpulse_record_returns s c (nth i j 0)) as Hret.
    destruct (applyImpulse_record s c (nth i j 0)) as [s1 c1].
    cbn [snd] in Hret. subst c1.
    destruct (IH s1 (S i)
                (if Qlt_bool TINY_IMPULSE (nth i j 0) then true else impulse))
      as (s2 & cs2 & r & E2).
    rewrite E2. now eexists _, _, _.
Qed.

(** ** The largest velocity and the focus *)

Lemma largestVelocity_fold (joint_ : list bool) (b : list Q) (l : list nat) :
  forall m, 0 <= m ->
    let f := fun max i =>
               if nth i joint_ false then
                 if Qlt_bool max (Qabs (nth i b 0)) then Qabs (nth i b 0) else max
               else
                 if Qlt_bool (nth i b 0) (- max) then - nth i b 0 else max in
    let bound := fun i =>
                   if nth i joint_ false then Qabs (nth i b 0) else - nth i b 0 in
    m <= fold_left f l m
    /\ (forall i, In i l -> bound i <= fold_left f l m)
    /\ (fold_left f l m == m \/ exists i, In i l /\ fold_left f l m == bound i).
Proof.
  cbv zeta. induction l as [|x l IH]; intros m Hm; cbn [fold_left].
  - split; [lra|]. split; [intros i []|]. left. reflexivity.
  - set (m' := if nth x joint_ false then _ else _).
    assert (Hm' : m <= m' /\ (if nth x joint_ false then Qabs (nth x b 0)
                              else - nth x b 0) <= m'
                  /\ (m' == m \/ m' == if nth x joint_ false then Qabs (nth x b 0)
                                        else - nth x b 0)).
    { subst m'. destruct (nth x joint_ false).
      - destruct (Qlt_bool m (Qabs (nth x b 0))) eqn:E.
        + apply Qlt_bool_iff in E. split; [lra|]. split; [lra|]. right. reflexivity.
        + apply Qlt_bool_false_iff in E. split; [lra|]. split; [lra|].
          left. reflexivity.
      - destruct (Qlt_bool (nth x b 0) (- m)) eqn:E.
        + apply Qlt_bool_iff in E. split; [lra|]. split; [lra|]. right. reflexivity.
        + apply Qlt_bool_false_iff in E. split; [lra|]. split; [lra|].
          left. reflexivity. }
    destruct Hm' as (H1 & H2 & H3).
    destruct (IH m' ltac:(lra)) as (I1 & I2 & I3).
    split; [lra|]. split.
    + intros i [<-|Hi]; [lra|]. now apply I2.
    + destruct I3 as [I3|[i [Hi I3]]].
      * destruct H3 as [H3|H3].
        -- left. now rewrite I3.
        -- right. exists x. split; [now left|]. now rewrite I3.
      * right. exists i. split; [now right|exact I3].
Qed.

Lemma largestVelocity_small_and_attained (joint_ : list bool) (b : list Q) :
  0 <= largestVelocity joint_ b
  /\ (forall i, (i < length b)%nat ->
        small_at (largestVelocity joint_ b) joint_ b i)
  /\ (largestVelocity joint_ b == 0
      \/ exists i, (i < length b)%nat
           /\ largestVelocity joint_ b
              == if nth i joint_ false then Qabs (nth i b 0) else - nth i b 0).
Proof.
  destruct (largestVelocity_fold joint_ b (seq 0 (length b)) 0 ltac:(lra))
    as (H1 & H2 & H3).
  fold (largestVelocity joint_ b) in H1, H2, H3.
  split; [exact H1|]. split.
  - intros i Hi. specialize (H2 i ltac:(apply in_seq; lia)).
    unfold small_at. destruct (nth i joint_ false); lra.
  - destruct H3 as [H3|[i [Hi%in_seq H3]]]; [now left|].
    right. exists i. split; [lia|exact H3].
Qed.

(** X1. [largestVelocity] is not negative, every collision is small at the
    tolerance it returns (a joint has [|b[i]|] at most that large, any other
    collision has [b[i]] at least minus that), and it is either 0 or attained
    by one of the collisions. *)
Theorem largestVelocity_bounds :
  forall joint_ b,
    0 <= largestVelocity joint_ b
    /\ (forall i, (i < length b)%nat ->
          small_at (largestVelocity joint_ b) joint_ b i)
    /\ (largestVelocity joint_ b == 0
        \/ exists i, (i < length b)%nat
             /\ largestVelocity joint_ b
                == if nth i joint_ false then Qabs (nth i b 0) else - nth i b 0).
Proof. exact largestVelocity_small_and_attained. Qed.

Lemma large_iff (small_velocity : Q) (joint_ : list bool) (b : list Q) (i : nat) :
  large small_velocity joint_ b i = true
  <-> (i < length b)%nat
      /\ small_velocity
         < if nth i joint_ false then Qabs (nth i b 0) else - nth i b 0.
Proof.
  unfold large. destruct (nth_error b i) as [bi|] eqn:E.
  - assert (Hi : (i < length b)%nat) by (apply nth_error_Some; congruence).
    rewrite (nth_error_nth _ _ 0 E).
    destruct (nth i joint_ false); cbn [negb andb orb].
    + rewrite Qlt_bool_iff. split.
      * intros H. split; [exact Hi|exact H].
      * intros [_ H]. exact H.
    + rewrite orb_false_r, Qlt_bool_iff. split.
      * intros H. split; [exact Hi|lra].
      * intros [_ H]. lra.
  - apply nth_error_None in E. split; [discriminate|]. intros [Hi _]. lia.
Qed.

Lemma hcs_focus_none small_velocity joint_ b rng :
  (forall r n i, (i < n)%nat -> In i (firstn n (fst (randomInts r n)))) ->
  (fst (hcs_focus small_velocity joint_ b rng) = (-1)%Z
   <-> forall i, large small_velocity joint_ b i = false).
Proof.
  intros Hall. rewrite hcs_focus_value.
  destruct (find _ _) as [j|] eqn:E.
  - split; [lia|]. intros H. apply find_some in E. destruct E as [_ E].
    rewrite H in E. discriminate.
  - split; [|reflexivity]. intros _ i.
    destruct (Nat.lt_ge_cases i (length b)) as [Hi|Hi].
    + apply (find_none _ _ E). now apply Hall.
    + unfold large. apply nth_error_None in Hi. now rewrite Hi.
Qed.

(** X2. [hcs_focus] returns -1 or the index of a collision of the array
    that is large at the tolerance: not a joint and [b[j] < -small_velocity],
    or a joint and [|b[j]| > small_velocity]. *)
Theorem hcs_focus_in_range_and_large :
  forall small_velocity joint_ b rng,
    fst (hcs_focus small_velocity joint_ b rng) = (-1)%Z
    \/ exists j,
         fst (hcs_focus small_velocity joint_ b rng) = Z.of_nat j
         /\ (j < length b)%nat
         /\ if nth j joint_ false then small_velocity < Qabs (nth j b 0)
            else nth j b 0 < - small_velocity.
Proof.
  intros sv joint_ b rng. rewrite hcs_focus_value.
  destruct (find _ _) as [j|] eqn:E; [|now left].
  right. exists j. split; [reflexivity|].
  apply find_some in E. destruct E as [_ E].
  apply large_iff in E. destruct E as [Hj E]. split; [exact Hj|].
  destruct (nth j joint_ false); lra.
Qed.

(** X3. With a generator that lists every index and a tolerance that is not
    negative, [hcs_focus] finds no collision, returning -1, exactly when
    [largestVelocity] is at most the tolerance. *)
Theorem hcs_focus_none_iff_largestVelocity :
  forall small_velocity joint_ b rng,
    (forall r n i, (i < n)%nat -> In i (firstn n (fst (randomInts r n)))) ->
    0 <= small_velocity ->
    (fst (hcs_focus small_velocity joint_ b rng) = (-1)%Z
     <-> largestVelocity joint_ b <= small_velocity).
Proof.
  intros sv joint_ b rng Hall Hsv.
  rewrite (hcs_focus_none sv joint_ b rng Hall).
  destruct (largestVelocity_small_and_attained joint_ b) as (H1 & H2 & H3).
  split.
  - intros Hnone. destruct H3 as [H3|[i [Hi H3]]]; [lra|].
    specialize (Hnone i).
    destruct (Qlt_le_dec sv (largestVelocity joint_ b)) as [Hlt|Hle]; [|exact Hle].
    assert (Hl : large sv joint_ b i = true)
      by (apply large_iff; split; [exact Hi|now rewrite <- H3]).
    congruence.
  - intros Hle i. destruct (large sv joint_ b i) eqn:E; [|reflexivity].
    apply large_iff in E. destruct E as [Hi E].
    specialize (H2 i Hi). unfold small_at in H2.
    destruct (nth i joint_ false); lra.
Qed.

(** ** The index arrays of a subset *)

Lemma hcs_idx2_cons (h : bool) (t : list bool) :
  hcs_idx2 (h :: t) = (if h then [0%nat] else []) ++ map S (hcs_idx2 t).
Proof.
  unfold hcs_idx2. cbn [length seq filter].
  change (nth 0 (h :: t) false) with h.
  rewrite <- seq_shift.
  assert (E : forall l, filter (fun k => nth k (h :: t) false) (map S l)
                        = map S (filter (fun k => nth k t false) l)).
  { induction l as [|x l IH]; [reflexivity|].
    cbn [map filter]. change (nth (S x) (h :: t) false) with (nth x t false).
    rewrite IH. now destruct (nth x t false). }
  rewrite E. now destruct h.
Qed.

Lemma hcs_idx_length (set : list bool) :
  forall z, length (hcs_idx set z) = length set.
Proof.
  induction set as [|[|] t IH]; intros z; cbn [hcs_idx length];
    [reflexivity| |]; now rewrite IH.
Qed.

Lemma hcs_idx_member (set : list bool) :
  forall z k,
    nth k set false = true ->
    exists i,
      nth k (hcs_idx set z) (-1)%Z = (z + Z.of_nat i)%Z
      /\ nth_error (hcs_idx2 set) i = Some k.
Proof.
  induction set as [|h t IH]; intros z k Hk; [now destruct k|].
  rewrite hcs_idx2_cons. destruct k as [|k].
  - cbn [nth] in Hk. subst h. exists 0%nat. cbn [hcs_idx nth]. split; [lia|reflexivity].
  - cbn [nth] in Hk. destruct h; cbn [hcs_idx nth].
    + destruct (IH (z + 1)%Z k Hk) as [i [E1 E2]].
      exists (S i). split; [lia|]. cbn [app nth_error].
      now rewrite nth_error_map, E2.
    + destruct (IH z k Hk) as [i [E1 E2]].
      exists i. split; [exact E1|]. cbn [app].
      now rewrite nth_error_map, E2.
Qed.

Lemma hcs_idx_outside (set : list bool) :
  forall z k, nth k set false = false -> nth k (hcs_idx set z) (-1)%Z = (-1)%Z.
Proof.
  induction set as [|h t IH]; intros z k Hk; [now destruct k|].
  destruct k as [|k]; cbn [nth] in Hk.
  - subst h. reflexivity.
  - destruct h; cbn [hcs_idx nth]; now apply IH.
Qed.

Lemma hcs_idx2_member (set : list bool) :
  forall z i k,
    nth_error (hcs_idx2 set) i = Some k ->
    (k < length set)%nat /\ nth k set false = true
    /\ nth k (hcs_idx set z) (-1)%Z = (z + Z.of_nat i)%Z.
Proof.
  induction set as [|h t IH]; intros z i k; [now destruct i|].
  rewrite hcs_idx2_cons. destruct h; cbn [app hcs_idx length].
  - destruct i as [|i]; cbn [nth_error].
    + intros [= <-]. cbn [nth]. split; [lia|]. split; [reflexivity|lia].
    + rewrite nth_error_map.
      destruct (nth_error (hcs_idx2 t) i) as [k'|] eqn:E; [|discriminate].
      intros [= <-]. destruct (IH (z + 1)%Z i k' E) as (H1 & H2 & H3).
      cbn [nth]. split; [lia|]. split; [exact H2|]. rewrite H3. lia.
  - rewrite nth_error_map.
    destruct (nth_error (hcs_idx2 t) i) as [k'|] eqn:E; [|discriminate].
    intros [= <-]. destruct (IH z i k' E) as (H1 & H2 & H3).
    cbn [nth]. split; [lia|]. split; [exact H2|exact H3].
Qed.

(** X4. The index arrays that [hcs_handle] builds from the array [set] are
    inverse to each other: [idx2[i]] is in the set and [idx[idx2[i]] = i];
    for [k] in the set, [idx[k]] is an index of [idx2] and
    [idx2[idx[k]] = k]; outside the set [idx[k] = -1]. *)
Theorem hcs_idx_round_trip :
  forall set,
    (forall i, (i < length (hcs_idx2 set))%nat ->
       (nth i (hcs_idx2 set) 0 < length set)%nat
       /\ nth (nth i (hcs_idx2 set) 0%nat) set false = true
       /\ nth (nth i (hcs_idx2 set) 0%nat) (hcs_idx set 0) (-1)%Z = Z.of_nat i)
    /\ (forall k, (k < length set)%nat ->
          if nth k set false
          then (0 <= nth k (hcs_idx set 0) (-1))%Z
               /\ (Z.to_nat (nth k (hcs_idx set 0) (-1)%Z) < length (hcs_idx2 set))%nat
               /\ nth (Z.to_nat (nth k (hcs_idx set 0) (-1)%Z)) (hcs_idx2 set) 0%nat = k
          else nth k (hcs_idx set 0) (-1)%Z = (-1)%Z).
Proof.
  intros set. split.
  - intros i Hi.
    destruct (hcs_idx2_member set 0 i (nth i (hcs_idx2 set) 0%nat)
                (nth_error_nth' _ _ Hi)) as (H1 & H2 & H3).
    split; [exact H1|]. split; [exact H2|]. rewrite H3. lia.
  - intros k Hk. destruct (nth k set false) eqn:E.
    + destruct (hcs_idx_member set 0 k E) as [i [E1 E2]].
      rewrite E1, Z.add_0_l, Nat2Z.id. split; [lia|].
      split; [apply nth_error_Some; congruence|].
      now apply nth_error_nth.
    + now apply hcs_idx_outside.
Qed.

(** ** What an impulse does to the velocities *)

Lemma getValue_setValue (va : VarsList) (idx i : Z) (v : Q) (c : bool) :
  getValue (setValue va idx v c) i = if Z.eqb i idx then v else getValue va i.
Proof.
  unfold getValue, setValue. now destruct (Z.eqb i idx).
Qed.

Lemma Qdiv_ext_zero (x : Q) (m : ExtQ) : x == 0 -> x // m == 0.
Proof.
  intros H. destruct m as [q|]; cbn [Qdiv_ext]; [|reflexivity].
  rewrite H. unfold Qdiv. ring.
Qed.

Lemma separate_offsets (p q : BodyRef) :
  separate_variables -> p <> q ->
  let op := getVarsIndex (body p) in
  let oq := getVarsIndex (body q) in
  (VX_ + op <> VX_ + oq /\ VX_ + op <> VY_ + oq /\ VX_ + op <> VW_ + oq
   /\ VY_ + op <> VX_ + oq /\ VY_ + op <> VY_ + oq /\ VY_ + op <> VW_ + oq
   /\ VW_ + op <> VX_ + oq /\ VW_ + op <> VY_ + oq /\ VW_ + op <> VW_ + oq)%Z.
Proof.
  intros (_ & _ & _ & Hsep) Hpq. cbv zeta.
  pose proof (Hsep p q) as H. unfold velocity_index in H.
  repeat split; intros E;
    first [ apply (H _ Hpq (or_introl eq_refl)); rewrite E; tauto
          | apply (H _ Hpq (or_intror (or_introl eq_refl))); rewrite E; tauto
          | apply (H _ Hpq (or_intror (or_intror eq_refl))); rewrite E; tauto ].
Qed.

Lemma getValue_setValue_same (va : VarsList) (idx : Z) (v : Q) (c : bool) :
  getValue (setValue va idx v c) idx = v.
Proof. rewrite getValue_setValue. now rewrite Z.eqb_refl. Qed.

Lemma getValue_setValue_other (va : VarsList) (idx i : Z) (v : Q) (c : bool) :
  i <> idx -> getValue (setValue va idx v c) i = getValue va i.
Proof.
  intros H. rewrite getValue_setValue. now rewrite (proj2 (Z.eqb_neq i idx) H).
Qed.

Lemma applyImpulse_record_velocity (s : Sim) (cd : RigidBodyCollision) (j : Q)
    (bod : BodyRef) :
  separate_variables -> bodies_in_vars cd ->
  let o := getVarsIndex (body bod) in
  let s' := fst (applyImpulse_record s cd j) in
  getValue (vars s') (VX_ + o)
  == getValue (vars s) (VX_ + o) + fst (fst (velocity_change cd j bod))
  /\ getValue (vars s') (VY_ + o)
     == getValue (vars s) (VY_ + o) + snd (fst (velocity_change cd j bod))
  /\ getValue (vars s') (VW_ + o)
     == getValue (vars s) (VW_ + o) + snd (velocity_change cd j bod).
Proof.
  intros Hsep Hin. cbv zeta.
  unfold applyImpulse_record. destruct (Qeq_bool j 0) eqn:Ej.
  - apply Qeq_bool_iff in Ej. cbn [fst snd velocity_change].
    unfold velocity_change. cbn [fst snd].
    rewrite !Qdiv_ext_zero by (rewrite Ej; ring).
    (split; [|split]); ring.
  - cbn [fst]. rewrite vars_debugCircle_if.
    cbn [vars set_vars set_impulse primaryBody normalBody normal r1 r2].
    pose proof (Hin (primaryBody cd)) as Hp. pose proof (Hin (normalBody cd)) as Hn.
    unfold involves in Hp, Hn. rewrite Nat.eqb_refl in Hp, Hn.
    rewrite orb_true_r in Hn. cbn [orb] in Hp.
    unfold velocity_change, cross. cbn [fst snd].
    pose proof Hsep as (Hxy & Hxw & Hyw & _).
    destruct (Nat.eqb_spec bod (primaryBody cd)) as [Ep|Ep];
      destruct (Nat.eqb_spec bod (normalBody cd)) as [En|En].
    + rewrite <- En, <- Ep in *. clear En Ep.
      destruct (isFinite (getMass (body bod))).
      * rewrite (proj2 (Z.ltb_lt _ _) (Hp eq_refl eq_refl)).
        read_through getValue_setValue_same getValue_setValue_same
          getValue_setValue_other Hxy Hxw Hyw. cbn [andb]. (split; [|split]); ring.
      * cbn [andb]. (split; [|split]); ring.
    + rewrite <- Ep in *. clear Ep.
      pose proof (separate_offsets bod (normalBody cd) Hsep En)
        as (? & ? & ? & ? & ? & ? & ? & ? & ?).
      destruct (isFinite (getMass (body bod))).
      * rewrite (proj2 (Z.ltb_lt _ _) (Hp eq_refl eq_refl)).
        destruct (isFinite (getMass (body (normalBody cd))));
          [destruct (Z.ltb (-1) (getVarsIndex (body (normalBody cd))))|];
          read_through getValue_setValue_same getValue_setValue_same
          getValue_setValue_other Hxy Hxw Hyw; cbn [andb]; (split; [|split]); ring.
      * destruct (isFinite (getMass (body (normalBody cd))));
          [destruct (Z.ltb (-1) (getVarsIndex (body (normalBody cd))))|];
          read_through getValue_setValue_same getValue_setValue_same
          getValue_setValue_other Hxy Hxw Hyw; cbn [andb]; (split; [|split]); ring.
    + rewrite <- En in *. clear En.
      pose proof (separate_offsets bod (primaryBody cd) Hsep Ep)
        as (? & ? & ? & ? & ? & ? & ? & ? & ?).
      destruct (isFinite (getMass (body bod))).
      * rewrite (proj2 (Z.ltb_lt _ _) (Hn eq_refl eq_refl)).
        destruct (isFinite (getMass (body (primaryBody cd))));
          [destruct (Z.ltb (-1) (getVarsIndex (body (primaryBody cd))))|];
          read_through getValue_setValue_same getValue_setValue_same
          getValue_setValue_other Hxy Hxw Hyw; cbn [andb]; (split; [|split]); ring.
      * destruct (isFinite (getMass (body (primaryBody cd))));
          [destruct (Z.ltb (-1) (getVarsIndex (body (primaryBody cd))))|];
          read_through getValue_setValue_same getValue_setValue_same
          getValue_setValue_other Hxy Hxw Hyw; cbn [andb]; (split; [|split]); ring.
    + pose proof (separate_offsets bod (primaryBody cd) Hsep Ep)
        as (? & ? & ? & ? & ? & ? & ? & ? & ?).
      pose proof (separate_offsets bod (normalBody cd) Hsep En)
        as (? & ? & ? & ? & ? & ? & ? & ? & ?).
      rewrite !andb_false_r.
      destruct (isFinite (getMass (body (primaryBody cd))));
        [destruct (Z.ltb (-1) (getVarsIndex (body (primaryBody cd))))|];
        (destruct (isFinite (getMass (body (normalBody cd))));
         [destruct (Z.ltb (-1) (getVarsIndex (body (normalBody cd))))|]);
        read_through getValue_setValue_same getValue_setValue_same
          getValue_setValue_other Hxy Hxw Hyw; (split; [|split]); ring.
Qed.

Lemma applyImpulse_effective (s s' : Sim) (cd cd' : RigidBodyCollision) (j : Q) :
  applyImpulse s cd j = (s', Return cd') ->
  impulse cd' = (if negb (joint cd) && Qlt_bool j 0 then 0 else j)
  /\ cd' = set_impulse cd (impulse cd')
  /\ s' = fst (applyImpulse_record s cd (impulse cd')).
Proof.
  unfold applyImpulse.
  destruct (negb (joint cd) && Qlt_bool j 0).
  - destruct (Qlt_bool j (- TINY_IMPULSE)); [discriminate|].
    pose proof (applyImpulse_record_returns s cd 0) as Hr.
    destruct (applyImpulse_record s cd 0) as [s1 c1] eqn:E. cbn [snd] in Hr.
    subst c1. intros [= <- <-]. cbn [impulse set_impulse]. rewrite E. now split.
  - pose proof (applyImpulse_record_returns s cd j) as Hr.
    destruct (applyImpulse_record s cd j) as [s1 c1] eqn:E. cbn [snd] in Hr.
    subst c1. intros [= <- <-]. cbn [impulse set_impulse]. rewrite E. now split.
Qed.

(** X5. The bodies owning separate variables, an [applyImpulse] that returns
    has changed the velocity of each body by what the impulse recorded on
    the collision stands for: [n j / m] and [(r1 x n) j / I] added to the
    primary body, the same with [r2] taken from the normal body, nothing
    for a body of infinite mass or outside the collision. *)
Theorem applyImpulse_velocity_change :
  forall s cd j s' cd' bod,
    separate_variables -> bodies_in_vars cd ->
    applyImpulse s cd j = (s', Return cd') ->
    let o := getVarsIndex (body bod) in
    let d := velocity_change cd (impulse cd') bod in
    getValue (vars s') (VX_ + o) == getValue (vars s) (VX_ + o) + fst (fst d)
    /\ getValue (vars s') (VY_ + o) == getValue (vars s) (VY_ + o) + snd (fst d)
    /\ getValue (vars s') (VW_ + o) == getValue (vars s) (VW_ + o) + snd d.
Proof.
  intros s cd j s' cd' bod Hsep Hin Happ.
  destruct (applyImpulse_effective _ _ _ _ _ Happ) as (_ & _ & ->).
  now apply applyImpulse_record_velocity.
Qed.

(** X6. Over exact arithmetic [applyImpulse] conserves linear momentum: for
    a collision between two different bodies of finite, non-zero mass,
    [ma va + mb vb] is the same before and after, in both coordinates. *)
Theorem applyImpulse_conserves_momentum :
  forall s cd j s' cd' ma mb,
    separate_variables -> bodies_in_vars cd ->
    primaryBody cd <> normalBody cd ->
    getMass (body (primaryBody cd)) = Fin ma -> ~ ma == 0 ->
    getMass (body (normalBody cd)) = Fin mb -> ~ mb == 0 ->
    applyImpulse s cd j = (s', Return cd') ->
    let oa := getVarsIndex (body (primaryBody cd)) in
    let ob := getVarsIndex (body (normalBody cd)) in
    ma * getValue (vars s') (VX_ + oa) + mb * getValue (vars s') (VX_ + ob)
    == ma * getValue (vars s) (VX_ + oa) + mb * getValue (vars s) (VX_ + ob)
    /\ ma * getValue (vars s') (VY_ + oa) + mb * getValue (vars s') (VY_ + ob)
       == ma * getValue (vars s) (VY_ + oa) + mb * getValue (vars s) (VY_ + ob).
Proof.
  intros s cd j s' cd' ma mb Hsep Hin Hab Hma Hma0 Hmb Hmb0 Happ.
  destruct (applyImpulse_effective _ _ _ _ _ Happ) as (_ & _ & ->).
  destruct (applyImpulse_record_velocity s cd (impulse cd') (primaryBody cd) Hsep Hin)
    as (Hax & Hay & _).
  destruct (applyImpulse_record_velocity s cd (impulse cd') (normalBody cd) Hsep Hin)
    as (Hbx & Hby & _).
  cbv zeta. rewrite Hax, Hay, Hbx, Hby.
  unfold velocity_change. cbn [fst snd].
  rewrite Hma, Hmb, !Nat.eqb_refl. cbn [isFinite andb Qdiv_ext].
  rewrite (proj2 (Nat.eqb_neq _ _) Hab).
  rewrite (proj2 (Nat.eqb_neq _ _) (not_eq_sym Hab)).
  split; field; first [assumption | split; assumption].
Qed.

Lemma influence_on_set_impulse (ci cj : RigidBodyCollision) (j : Q) :
  influence_on ci (set_impulse cj j) = influence_on ci cj.
Proof. reflexivity. Qed.

Lemma applyImpulse_record_normal_velocity (s : Sim) (ci ck : RigidBodyCollision)
    (j : Q) :
  separate_variables -> bodies_in_vars ck ->
  primaryBody ci <> normalBody ci -> primaryBody ck <> normalBody ck ->
  calcNormalVelocity (vars (fst (applyImpulse_record s ck j))) ci
  == calcNormalVelocity (vars s) ci + j * influence_on ci ck.
Proof.
  intros Hsep Hin Hi Hk.
  destruct (applyImpulse_record_velocity s ck j (primaryBody ci) Hsep Hin)
    as (Hax & Hay & Haw).
  destruct (applyImpulse_record_velocity s ck j (normalBody ci) Hsep Hin)
    as (Hbx & Hby & Hbw).
  unfold calcNormalVelocity. cbv zeta.
  rewrite Hax, Hay, Haw, Hbx, Hby, Hbw.
  generalize (getValue (vars s) (VX_ + getVarsIndex (body (primaryBody ci)))).
  generalize (getValue (vars s) (VY_ + getVarsIndex (body (primaryBody ci)))).
  generalize (getValue (vars s) (VW_ + getVarsIndex (body (primaryBody ci)))).
  generalize (getValue (vars s) (VX_ + getVarsIndex (body (normalBody ci)))).
  generalize (getValue (vars s) (VY_ + getVarsIndex (body (normalBody ci)))).
  generalize (getValue (vars s) (VW_ + getVarsIndex (body (normalBody ci)))).
  intros wb vby vbx wa vay vax.
  unfold influence_on, influence, velocity_change, cross. cbn [fst snd].
  destruct ci as [oi pa pb ra rb ni nvi ei ji imi].
  destruct ck as [ok pc pd rc rd nk nvk ek jk imk].
  cbn [primaryBody normalBody r1 r2 normal] in *.
  rewrite !Nat.eqb_refl.
  rewrite (proj2 (Nat.eqb_neq _ _) Hi).
  rewrite (Nat.eqb_sym pa pc), (Nat.eqb_sym pa pd), (Nat.eqb_sym pb pc),
    (Nat.eqb_sym pb pd).
  destruct (Nat.eqb_spec pc pa) as [E1|E1]; destruct (Nat.eqb_spec pd pa) as [E2|E2];
    try (exfalso; congruence);
    destruct (Nat.eqb_spec pc pb) as [E3|E3]; destruct (Nat.eqb_spec pd pb) as [E4|E4];
    try (exfalso; congruence);
    destruct (getMass (body pa)) as [ma|]; destruct (momentAboutCM (body pa)) as [Ia|];
    destruct (getMass (body pb)) as [mb|]; destruct (momentAboutCM (body pb)) as [Ib|];
    cbn [isFinite negb andb Qdiv_ext]; unfold Qdiv; ring.
Qed.

Lemma applyImpulse_normal_velocity (s s' : Sim) (ci ck ck' : RigidBodyCollision)
    (j : Q) :
  separate_variables -> bodies_in_vars ck ->
  primaryBody ci <> normalBody ci -> primaryBody ck <> normalBody ck ->
  applyImpulse s ck j = (s', Return ck') ->
  calcNormalVelocity (vars s') ci
  == calcNormalVelocity (vars s) ci + impulse ck' * influence_on ci ck.
Proof.
  intros Hsep Hin Hi Hk Happ.
  destruct (applyImpulse_effective _ _ _ _ _ Happ) as (_ & _ & ->).
  now apply applyImpulse_record_normal_velocity.
Qed.

(** X7. Over exact arithmetic the collision matrix says what an impulse
    does: after [applyImpulse] on collision [k] of a list, the normal
    velocity at collision [i], read from the variables by the formula in
    the comment of [influence], has changed by the impulse recorded times
    the entry [A[i][k]] of [makeCollisionMatrix], the two collisions each
    relating two different bodies that own separate variables. *)
Theorem applyImpulse_changes_by_matrix_entry :
  forall collisions i k ci ck s j s' ck',
    separate_variables -> bodies_in_vars ck ->
    primaryBody ci <> normalBody ci -> primaryBody ck <> normalBody ck ->
    nth_error collisions i = Some ci ->
    nth_error collisions k = Some ck ->
    applyImpulse s ck j = (s', Return ck') ->
    calcNormalVelocity (vars s') ci
    == calcNormalVelocity (vars s) ci
       + impulse ck' * entry (makeCollisionMatrix body collisions) i k.
Proof.
  intros collisions i k ci ck s j s' ck' Hsep Hin Hi Hk Ei Ek Happ.
  rewrite entry_makeCollisionMatrix, Ei, Ek.
  now apply applyImpulse_normal_velocity with (j := j).
Qed.

(** ** What the handlers leave on the collisions and in the variables *)

Lemma set_impulse_eta (c : RigidBodyCollision) : c = set_impulse c (impulse c).
Proof. now destruct c. Qed.

Lemma applyImpulses_collisions (cs : list RigidBodyCollision) (j : list Q) :
  forall s i impulse_,
    Forall2 (fun c c' => c' = set_impulse c (impulse c')) cs
      (snd (fst (applyImpulses s cs j i impulse_))).
Proof.
  induction cs as [|c rest IH]; intros s i impulse_; [constructor|].
  cbn [applyImpulses].
  destruct (applyImpulse s c (nth i j 0)) as [s1 [c1|e]] eqn:E.
  - specialize (IH s1 (S i)
                  (if Qlt_bool TINY_IMPULSE (nth i j 0) then true else impulse_)).
    destruct (applyImpulses s1 rest j (S i) _) as [[s2 rest'] r].
    cbn [fst snd] in *. constructor; [|exact IH].
    now destruct (applyImpulse_effective _ _ _ _ _ E) as (_ & H & _).
  - cbn [fst snd]. constructor; [apply set_impulse_eta|].
    clear. induction rest as [|c' rest IH]; constructor;
      [apply set_impulse_eta|exact IH].
Qed.

Lemma sum_seq_cons (t : nat -> Q) (n : nat) :
  fold_left (fun r k => r + t k) (seq 0 (S n)) 0
  == t 0%nat + fold_left (fun r k => r + t (S k)) (seq 0 n) 0.
Proof.
  cbn [seq fold_left]. rewrite <- seq_shift.
  assert (E : forall l a,
             fold_left (fun r k => r + t k) (map S l) a
             = fold_left (fun r k => r + t (S k)) l a).
  { induction l as [|x l IH]; intros a; [reflexivity|]. cbn [map fold_left].
    apply IH. }
  rewrite E.
  rewrite (fold_left_sum_shift (fun k => t (S k)) (seq 0 n) (0 + t 0%nat)).
  ring.
Qed.

Lemma applyImpulses_normal_velocity (ci : RigidBodyCollision)
    (cs : list RigidBodyCollision) (j : list Q) :
  separate_variables -> primaryBody ci <> normalBody ci ->
  (forall c, In c cs -> bodies_in_vars c /\ primaryBody c <> normalBody c) ->
  forall s i impulse_ s' cs' r,
    applyImpulses s cs j i impulse_ = (s', cs', Return r) ->
    calcNormalVelocity (vars s') ci
    == calcNormalVelocity (vars s) ci
       + fold_left
           (fun acc k => acc + influence_on ci (nth k cs' ci) * impulse (nth k cs' ci))
           (seq 0 (length cs')) 0.
Proof.
  intros Hsep Hi. induction cs as [|c rest IH]; intros Hcs s i impulse_ s' cs' r.
  - cbn [applyImpulses]. intros [= <- <- _]. cbn [length seq fold_left]. ring.
  - cbn [applyImpulses].
    destruct (applyImpulse s c (nth i j 0)) as [s1 [c1|e]] eqn:E; [|discriminate].
    destruct (applyImpulses s1 rest j (S i) _) as [[s2 rest'] r2] eqn:E2.
    intros [= <- <- ->].
    destruct (Hcs c (or_introl eq_refl)) as [Hin Hc].
    rewrite (IH (fun c0 H0 => Hcs c0 (or_intror H0)) _ _ _ _ _ _ E2).
    rewrite (applyImpulse_normal_velocity s s1 ci c c1 (nth i j 0) Hsep Hin Hi Hc E).
    cbn [length].
    rewrite (sum_seq_cons
               (fun k => influence_on ci (nth k (c1 :: rest') ci)
                         * impulse (nth k (c1 :: rest') ci)) (length rest')).
    cbn [nth].
    destruct (applyImpulse_effective _ _ _ _ _ E) as (_ & Hc1 & _).
    rewrite Hc1 at 2. rewrite influence_on_set_impulse. ring.
Qed.

Lemma calcNormalVelocity_incrSequence (va : VarsList) (l : list Z)
    (c : RigidBodyCollision) :
  calcNormalVelocity (incrSequence va l) c = calcNormalVelocity va c.
Proof.
  unfold calcNormalVelocity. now rewrite !getValue_incrSequence.
Qed.

Lemma sum_as_matrixMultiply (collisions cs' : list RigidBodyCollision) (i : nat)
    (ci : RigidBodyCollision) :
  nth_error collisions i = Some ci ->
  Forall2 (fun c c' => c' = set_impulse c (impulse c')) collisions cs' ->
  fold_left
    (fun acc k => acc + influence_on ci (nth k cs' ci) * impulse (nth k cs' ci))
    (seq 0 (length cs')) 0
  = nth i (matrixMultiply (makeCollisionMatrix body collisions) (map impulse cs')) 0.
Proof.
  intros Ei HF.
  assert (Hi : (i < length collisions)%nat) by (apply nth_error_Some; congruence).
  rewrite nth_matrixMultiply
    by (now rewrite (proj1 (makeCollisionMatrix_square collisions))).
  rewrite length_map. apply fold_left_ext_in. intros acc k Hk%in_seq.
  pose proof (Forall2_length HF) as Hlen.
  rewrite entry_makeCollisionMatrix, Ei.
  assert (Hk' : (k < length collisions)%nat) by lia.
  rewrite (nth_error_nth' collisions ci Hk').
  rewrite (nth_map_lt impulse cs' k 0 ci) by lia.
  assert (E : nth k cs' ci = set_impulse (nth k collisions ci) (impulse (nth k cs' ci))).
  { clear - HF Hk'. revert k Hk'. induction HF as [|c c' l l' H HF IH]; intros k Hk.
    - inversion Hk.
    - destruct k as [|k]; cbn [nth]; [exact H|]. apply IH. cbn [length] in Hk. lia. }
  rewrite E at 1. now rewrite influence_on_set_impulse.
Qed.

Lemma applyImpulses_matrixMultiply (collisions : list RigidBodyCollision) (i : nat)
    (ci : RigidBodyCollision) (s0 : Sim) (j : list Q) :
  separate_variables ->
  (forall c, In c collisions -> bodies_in_vars c /\ primaryBody c <> normalBody c) ->
  nth_error collisions i = Some ci ->
  forall s' cs' imp,
    applyImpulses s0 collisions j 0 false = (s', cs', Return imp) ->
    forall s'',
      vars s'' = vars s' \/ vars s'' = incrSequence (vars s') [1; 3]%Z ->
      calcNormalVelocity (vars s'') ci
      == calcNormalVelocity (vars s0) ci
         + nth i (matrixMultiply (makeCollisionMatrix body collisions)
                    (map impulse cs')) 0.
Proof.
  intros Hsep Hcs Ei s' cs' imp Happ s'' Hs''.
  assert (Hi : primaryBody ci <> normalBody ci)
    by (apply Hcs; eapply nth_error_In; eassumption).
  pose proof (applyImpulses_collisions collisions j s0 0%nat false) as HF.
  rewrite Happ in HF. cbn [fst snd] in HF.
  rewrite <- (sum_as_matrixMultiply collisions cs' i ci Ei HF).
  rewrite <- (applyImpulses_normal_velocity ci collisions j Hsep Hi Hcs _ _ _ _ _ _
                Happ).
  destruct Hs'' as [->| ->]; [reflexivity|].
  now rewrite calcNormalVelocity_incrSequence.
Qed.

(** X8. Whatever the strategy, [handleCollisions] changes nothing of a
    collision but its [impulse] field; the list keeps its length and its
    order, also when the call ends in an error. *)
Theorem handleCollisions_only_sets_impulse :
  forall fuel s collisions opt_totals r,
    handleCollisions fuel s collisions opt_totals = Some r ->
    Forall2 (fun c c' => c' = set_impulse c (impulse c')) collisions
      (res_collisions r).
Proof.
  intros fuel s collisions opt_totals r.
  assert (Hsame : Forall2 (fun c c' => c' = set_impulse c (impulse c'))
                    collisions collisions).
  { induction collisions as [|c l IH]; constructor;
      [apply set_impulse_eta|exact IH]. }
  assert (Hserial : forall hybrid grouped lastPass small_velocity doPanic,
             handleCollisionsSerial fuel s collisions hybrid opt_totals grouped
               lastPass small_velocity doPanic = Some r ->
             Forall2 (fun c c' => c' = set_impulse c (impulse c')) collisions
               (res_collisions r)).
  { intros hybrid grouped lastPass small_velocity doPanic.
    unfold handleCollisionsSerial.
    destruct (hcs_run _ _ _ _ _ _ _ _ _) as [[st [err|]]|]; [| |discriminate].
    - now intros [= <-].
    - pose proof (applyImpulses_collisions collisions (st_j2 st)
                    (set_simRNG s (st_rng st)) 0%nat false) as HF.
      destruct (applyImpulses _ collisions (st_j2 st) 0 false) as [[s' cs] [imp|e]];
        intros [= <-]; exact HF. }
  unfold handleCollisions.
  destruct (Nat.eqb (length collisions) 0); [now intros [= <-]|].
  destruct (goog_DEBUG && negb (forallb checkConsistent collisions));
    [now intros [= <-]|].
  destruct (collisionHandling_ s); try apply Hserial.
  intros [= <-]. unfold handleCollisionsSimultaneous.
  destruct (compute_forces _ _ _ _ _ _ _) as [[j error] rng].
  match goal with |- context [if ?c then _ else _] => destruct c end;
    [exact Hsame|].
  pose proof (applyImpulses_collisions collisions j (set_simRNG s rng) 0%nat false)
    as HF.
  destruct (applyImpulses _ collisions j 0 false) as [[s' cs] [imp|e]]; exact HF.
Qed.

(** X9. Over exact arithmetic, when [handleCollisions] returns, under any
    strategy, the normal velocity at each collision has changed by
    [(A j)[i]], where [A] is the matrix of [makeCollisionMatrix] and [j] are
    the impulses recorded on the collisions; every collision relates two
    different bodies, and the bodies own separate variables. *)
Theorem handleCollisions_normal_velocity_change :
  forall fuel s collisions opt_totals r impulse_ i ci,
    separate_variables ->
    (forall c, In c collisions -> bodies_in_vars c /\ primaryBody c <> normalBody c) ->
    handleCollisions fuel s collisions opt_totals = Some r ->
    res_completion r = Return impulse_ ->
    nth_error collisions i = Some ci ->
    calcNormalVelocity (vars (res_sim r)) ci
    == calcNormalVelocity (vars s) ci
       + nth i (matrixMultiply (makeCollisionMatrix body collisions)
                  (map impulse (res_collisions r))) 0.
Proof.
  intros fuel s collisions opt_totals r impulse_ i ci Hsep Hcs Hr Hc Ei.
  pose proof (fun s0 j => applyImpulses_matrixMultiply collisions i ci s0 j Hsep Hcs Ei)
    as Happly.
  assert (Hserial : forall hybrid grouped lastPass small_velocity doPanic,
             handleCollisionsSerial fuel s collisions hybrid opt_totals grouped
               lastPass small_velocity doPanic = Some r ->
             calcNormalVelocity (vars (res_sim r)) ci
             == calcNormalVelocity (vars s) ci
                + nth i (matrixMultiply (makeCollisionMatrix body collisions)
                           (map impulse (res_collisions r))) 0).
  { intros hybrid grouped lastPass small_velocity doPanic.
    unfold handleCollisionsSerial.
    destruct (hcs_run _ _ _ _ _ _ _ _ _) as [[st [err|]]|]; [| |discriminate].
    - intros [= <-]. discriminate.
    - destruct (applyImpulses _ collisions (st_j2 st) 0 false)
        as [[s' cs] [imp|e]] eqn:E; intros [= <-]; [|discriminate].
      cbn [res_sim res_collisions].
      apply (Happly (set_simRNG s (st_rng st)) _ _ _ _ E).
      destruct (existsb _ collisions && imp); [now right|now left]. }
  unfold handleCollisions in Hr.
  destruct (Nat.eqb (length collisions) 0);
    [injection Hr as <-; discriminate|].
  destruct (goog_DEBUG && negb (forallb checkConsistent collisions));
    [injection Hr as <-; discriminate|].
  destruct (collisionHandling_ s); try (eapply Hserial; eassumption).
  injection Hr as <-. revert Hc. unfold handleCollisionsSimultaneous.
  destruct (compute_forces _ _ _ _ _ _ _) as [[j error] rng].
  match goal with |- context [if ?c then _ else _] => destruct c end;
    [discriminate|].
  destruct (applyImpulses _ collisions j 0 false) as [[s' cs] [imp|e]] eqn:E;
    [|discriminate].
  intros _. cbn [res_sim res_collisions].
  apply (Happly (set_simRNG s rng) _ _ _ _ E).
  destruct (existsb _ collisions && imp); [now right|now left].
Qed.

(** ** The collision law of the simultaneous handler *)

Lemma applyImpulses_records (cs : list RigidBodyCollision) (j : list Q) :
  forall s i impulse_ s' cs' r,
    (forall k c, nth_error cs k = Some c -> joint c = false ->
       0 <= nth (i + k) j 0) ->
    applyImpulses s cs j i impulse_ = (s', cs', Return r) ->
    length cs' = length cs
    /\ forall k d, (k < length cs)%nat -> impulse (nth k cs' d) = nth (i + k) j 0.
Proof.
  induction cs as [|c rest IH]; intros s i impulse_ s' cs' r Hj.
  - cbn [applyImpulses]. intros [= <- <- _]. split; [reflexivity|].
    intros k d Hk. inversion Hk.
  - cbn [applyImpulses].
    destruct (applyImpulse s c (nth i j 0)) as [s1 [c1|e]] eqn:E; [|discriminate].
    destruct (applyImpulses s1 rest j (S i) _) as [[s2 rest'] r2] eqn:E2.
    intros [= <- <- ->].
    assert (Hj' : forall k c0, nth_error rest k = Some c0 -> joint c0 = false ->
                    0 <= nth (S i + k) j 0).
    { intros k c0 Hk Hc0. specialize (Hj (S k) c0 Hk Hc0).
      now rewrite Nat.add_succ_r in Hj. }
    destruct (IH _ _ _ _ _ _ Hj' E2) as [Hlen Hrec].
    split; [cbn [length]; now rewrite Hlen|].
    intros k d Hk. destruct k as [|k]; cbn [nth].
    + rewrite Nat.add_0_r.
      destruct (applyImpulse_effective _ _ _ _ _ E) as (Himp & _ & _).
      rewrite Himp. destruct (joint c) eqn:Ejc; [reflexivity|].
      specialize (Hj 0%nat c eq_refl Ejc). rewrite Nat.add_0_r in Hj.
      now rewrite (proj2 (Qlt_bool_false_iff _ _) Hj).
    + rewrite Nat.add_succ_r. apply (Hrec k d). cbn [length] in Hk. lia.
Qed.

Lemma nth_matrixMultiply_ext (A : Matrix) (x y : list Q) (i : nat) :
  length x = length y ->
  (forall k, (k < length x)%nat -> nth k x 0 = nth k y 0) ->
  nth i (matrixMultiply A x) 0 = nth i (matrixMultiply A y) 0.
Proof.
  intros Hlen Hxy.
  destruct (Nat.lt_ge_cases i (length A)) as [Hi|Hi].
  - rewrite !nth_matrixMultiply by exact Hi. rewrite <- Hlen.
    apply fold_left_ext_in. intros a k Hk%in_seq. rewrite Hxy by lia. reflexivity.
  - rewrite !nth_overflow; [reflexivity| |]; unfold matrixMultiply;
      now rewrite length_map.
Qed.

(** X10. The collision law of the simultaneous strategy, over exact
    arithmetic.  When the impulses that the solver returns to the handler
    solve the system it was given, and every collision carries its current
    normal velocity, a call that returns leaves at each collision the
    normal velocity [v' >= -e v] (0 in place of [-e v] for a contact), with
    equality at a joint and wherever a positive impulse was applied; the
    impulses of the collisions that are not joints are not negative. *)
Theorem handleCollisionsSimultaneous_collision_law :
  forall s collisions opt_totals impulse_ i c,
    separate_variables ->
    (forall c, In c collisions -> bodies_in_vars c /\ primaryBody c <> normalBody c) ->
    lcp_solution (makeCollisionMatrix body collisions) (simultaneous_b collisions)
      (map joint collisions) (simultaneous_impulses s collisions) ->
    (forall c, In c collisions ->
       normalVelocity c == calcNormalVelocity (vars s) c) ->
    res_completion (handleCollisionsSimultaneous s collisions opt_totals)
    = Return impulse_ ->
    nth_error collisions i = Some c ->
    let r := handleCollisionsSimultaneous s collisions opt_totals in
    let v' := calcNormalVelocity (vars (res_sim r)) c in
    let target :=
      if contact c then 0 else - (getElasticity c * normalVelocity c) in
    let ji := impulse (nth i (res_collisions r) c) in
    if joint c then v' == target
    else target <= v' /\ 0 <= ji /\ ji * (v' - target) == 0.
Proof.
  intros s collisions opt_totals impulse_ i c Hsep Hcs Hsolver Hnv Hret Ei.
  cbv zeta. revert Hret. unfold handleCollisionsSimultaneous.
  destruct (makeCollisionMatrix_square collisions) as [Hrows Hcols].
  assert (Hi : (i < length collisions)%nat) by (apply nth_error_Some; congruence).
  unfold simultaneous_impulses in Hsolver. revert Hsolver.
  destruct (compute_forces _ _ _ _ _ _ _) as [[j error] rng]. cbn [fst].
  intros [Hlen Hsol].
  match goal with |- context [if ?c then _ else _] => destruct c end;
    [discriminate|].
  destruct (applyImpulses _ collisions j 0 false) as [[s' cs] [imp|e]] eqn:E;
    [|discriminate].
  intros _. cbn [res_sim res_collisions].
  assert (Hjpos : forall k, (k < length collisions)%nat ->
                    nth k (map joint collisions) false = false -> 0 <= nth k j 0).
  { intros k Hk Hjk. specialize (Hsol k ltac:(lia)). cbv zeta in Hsol.
    rewrite Hjk in Hsol. exact (proj1 Hsol). }
  assert (Hjpos' : forall k c0, nth_error collisions k = Some c0 ->
                     joint c0 = false -> 0 <= nth (0 + k) j 0).
  { intros k c0 Hk Hc0.
    assert (Hk' : (k < length collisions)%nat) by (apply nth_error_Some; congruence).
    apply (Hjpos k Hk').
    rewrite (nth_map_lt joint collisions k false c0) by exact Hk'.
    now rewrite (nth_error_nth _ _ c0 Hk). }
  destruct (applyImpulses_records collisions j _ _ _ _ _ _ Hjpos' E)
    as [Hlencs Hrec].
  cbn [Nat.add] in Hrec.
  pose proof (applyImpulses_matrixMultiply collisions i c (set_simRNG s rng) j
                Hsep Hcs Ei _ _ _ E
                (if existsb (fun ck => negb (joint ck)) collisions && imp
                 then set_vars s' (incrSequence (vars s') [1; 3]%Z) else s')
                ltac:(destruct (existsb _ collisions && imp); [now right|now left]))
    as Hv.
  cbn [vars set_simRNG] in Hv.
  rewrite (nth_matrixMultiply_ext _ (map impulse cs) j i) in Hv.
  2: { rewrite length_map. lia. }
  2: { intros k Hk. rewrite length_map in Hk.
       rewrite (nth_map_lt impulse cs k 0 c) by exact Hk. apply Hrec. lia. }
  specialize (Hsol i ltac:(lia)). cbv zeta in Hsol.
  rewrite nth_vectorAdd in Hsol by (unfold matrixMultiply; rewrite length_map; lia).
  unfold simultaneous_b in Hsol.
  rewrite (nth_map_lt _ collisions i 0 c) in Hsol by exact Hi.
  rewrite (nth_map_lt joint collisions i false c) in Hsol by exact Hi.
  rewrite (nth_error_nth _ _ c Ei) in Hsol.
  rewrite (Hrec i c Hi).
  pose proof (Hnv c (nth_error_In _ _ Ei)) as Hnow.
  set (Aj := nth i (matrixMultiply (makeCollisionMatrix body collisions) j) 0) in *.
  set (v' := calcNormalVelocity _ c) in *.
  set (v := calcNormalVelocity (vars s) c) in *.
  destruct (joint c); destruct (contact c).
  - lra.
  - lra.
  - destruct Hsol as (H1 & H2 & H3). split; [lra|]. split; [exact H1|].
    assert (Ha : v' - 0 == Aj + normalVelocity c * 1) by lra.
    now rewrite Ha.
  - destruct Hsol as (H1 & H2 & H3). split; [lra|]. split; [exact H1|].
    assert (Ha : v' - - (getElasticity c * normalVelocity c)
                 == Aj + normalVelocity c * (1 + getElasticity c)) by lra.
    now rewrite Ha.
Qed.

(** ** The value returned *)

Lemma applyImpulses_returns_recorded (cs : list RigidBodyCollision) (j : list Q) :
  forall s i s' cs' r,
    applyImpulses s cs j i false = (s', cs', Return r) ->
    (r = true <-> exists c', In c' cs' /\ TINY_IMPULSE < impulse c').
Proof.
  assert (Hgen : forall s i impulse_ s' cs' r,
             applyImpulses s cs j i impulse_ = (s', cs', Return r) ->
             (r = true <->
              impulse_ = true \/ exists c', In c' cs' /\ TINY_IMPULSE < impulse c')).
  { induction cs as [|c rest IH]; intros s i impulse_ s' cs' r.
    - cbn [applyImpulses]. intros [= <- <- <-]. split; [now left|].
      intros [H|[c' [[] _]]]. exact H.
    - cbn [applyImpulses].
      destruct (applyImpulse s c (nth i j 0)) as [s1 [c1|e]] eqn:E; [|discriminate].
      destruct (applyImpulses s1 rest j (S i) _) as [[s2 rest'] r2] eqn:E2.
      intros [= <- <- ->]. rewrite (IH _ _ _ _ _ _ E2).
      destruct (applyImpulse_effective _ _ _ _ _ E) as (Himp & _ & _).
      pose proof TINY_IMPULSE_pos as Htiny.
      assert (Hc1 : Qlt_bool TINY_IMPULSE (nth i j 0) = true
                    <-> TINY_IMPULSE < impulse c1).
      { rewrite Qlt_bool_iff, Himp.
        destruct (negb (joint c) && Qlt_bool (nth i j 0) 0) eqn:Eneg; [|reflexivity].
        apply andb_prop in Eneg. destruct Eneg as [_ Eneg].
        apply Qlt_bool_iff in Eneg. split; intros H; lra. }
      split.
      + intros [H|[c' [Hin Hlt]]].
        * destruct (Qlt_bool TINY_IMPULSE (nth i j 0)) eqn:Et; [|now left].
          right. exists c1. split; [now left|]. now apply Hc1.
        * right. exists c'. split; [now right|exact Hlt].
      + intros [H|[c' [[<-|Hin] Hlt]]].
        * left. rewrite H. now destruct (Qlt_bool TINY_IMPULSE (nth i j 0)).
        * left. apply Hc1 in Hlt. now rewrite Hlt.
        * right. exists c'. now split. }
  intros s i s' cs' r H. rewrite (Hgen _ _ _ _ _ _ H). split.
  - intros [Hf|Hex]; [discriminate|exact Hex].
  - intros Hex. now right.
Qed.

(** X11. Under every strategy, when [handleCollisions] returns, it returns
    true exactly when the impulse recorded on one of the collisions exceeds
    [TINY_IMPULSE]. *)
Theorem handleCollisions_returns_true_iff :
  forall fuel s collisions opt_totals r impulse_,
    handleCollisions fuel s collisions opt_totals = Some r ->
    res_completion r = Return impulse_ ->
    (impulse_ = true
     <-> exists c', In c' (res_collisions r) /\ TINY_IMPULSE < impulse c').
Proof.
  intros fuel s collisions opt_totals r impulse_ Hr Hc.
  assert (Hserial : forall hybrid grouped lastPass small_velocity doPanic,
             handleCollisionsSerial fuel s collisions hybrid opt_totals grouped
               lastPass small_velocity doPanic = Some r ->
             (impulse_ = true
              <-> exists c', In c' (res_collisions r) /\ TINY_IMPULSE < impulse c')).
  { intros hybrid grouped lastPass small_velocity doPanic.
    unfold handleCollisionsSerial.
    destruct (hcs_run _ _ _ _ _ _ _ _ _) as [[st [err|]]|]; [| |discriminate].
    - intros [= <-]. discriminate.
    - destruct (applyImpulses _ collisions (st_j2 st) 0 false)
        as [[s' cs] [imp|e]] eqn:E; intros [= <-]; [|discriminate].
      cbn [res_completion res_collisions] in *. injection Hc as ->.
      exact (applyImpulses_returns_recorded _ _ _ _ _ _ _ E). }
  unfold handleCollisions in Hr.
  destruct (Nat.eqb (length collisions) 0);
    [injection Hr as <-; discriminate|].
  destruct (goog_DEBUG && negb (forallb checkConsistent collisions));
    [injection Hr as <-; discriminate|].
  destruct (collisionHandling_ s); try (eapply Hserial; eassumption).
  injection Hr as <-. revert Hc. unfold handleCollisionsSimultaneous.
  destruct (compute_forces _ _ _ _ _ _ _) as [[j error] rng].
  match goal with |- context [if ?c then _ else _] => destruct c end;
    [discriminate|].
  destruct (applyImpulses _ collisions j 0 false) as [[s' cs] [imp|e]] eqn:E;
    [|discriminate].
  cbn [res_completion res_collisions]. intros [= ->].
  exact (applyImpulses_returns_recorded _ _ _ _ _ _ _ E).
Qed.

(** ** Bodies of infinite mass stay at rest *)

Lemma handleCollisions_frame fuel s collisions opt_totals r idx :
  handleCollisions fuel s collisions opt_totals = Some r ->
  (forall c, In c collisions -> ~ written_by c idx) ->
  getValue (vars (res_sim r)) idx = getValue (vars s) idx.
Proof.
  intros Hr Hw. unfold handleCollisions in Hr.
  destruct (Nat.eqb (length collisions) 0); [now injection Hr as <-|].
  destruct (goog_DEBUG && negb (forallb checkConsistent collisions));
    [now injection Hr as <-|].
  destruct (collisionHandling_ s);
    try (eapply handleCollisionsSerial_frame; eassumption).
  injection Hr as <-. now apply handleCollisionsSimultaneous_frame.
Qed.

Lemma infinite_mass_not_written (B : BodyRef) (c : RigidBodyCollision) (idx : Z) :
  separate_variables ->
  isFinite (getMass (body B)) = false ->
  velocity_index B idx -> ~ written_by c idx.
Proof.
  intros (_ & _ & _ & Hsep) HB HBidx [[Hfin Hv]|[Hfin Hv]].
  - apply (Hsep (primaryBody c) B idx); [congruence|exact Hv|exact HBidx].
  - apply (Hsep (normalBody c) B idx); [congruence|exact Hv|exact HBidx].
Qed.

Lemma checkInfiniteMassVelocity_ext (bods_ : list BodyRef) (v1 v2 : Z -> Q) :
  (forall B idx, In B bods_ -> isFinite (getMass (body B)) = false ->
     velocity_index B idx -> v1 idx = v2 idx) ->
  checkInfiniteMassVelocity bods_ v1 = checkInfiniteMassVelocity bods_ v2.
Proof.
  induction bods_ as [|B rest IH]; intros H; [reflexivity|].
  cbn [checkInfiniteMassVelocity]. cbv zeta.
  rewrite (IH (fun B0 idx Hin => H B0 idx (or_intror Hin))).
  destruct (isFinite (getMass (body B))) eqn:EB; [reflexivity|].
  cbn [negb].
  rewrite (H B (getVarsIndex (body B) + VX_)%Z (or_introl eq_refl) EB)
    by (left; apply Z.add_comm).
  rewrite (H B (getVarsIndex (body B) + VY_)%Z (or_introl eq_refl) EB)
    by (right; left; apply Z.add_comm).
  rewrite (H B (getVarsIndex (body B) + VW_)%Z (or_introl eq_refl) EB)
    by (right; right; apply Z.add_comm).
  reflexivity.
Qed.

(** X12. The check that [findCollisions] makes under [goog.DEBUG],
    [checkInfiniteMassVelocity], gives the same verdict on the variables
    before and after a call of [handleCollisions]: collision handling never
    sets a body of infinite mass in motion, the bodies owning separate
    variables. *)
Theorem handleCollisions_keeps_infinite_mass_at_rest :
  forall fuel s collisions opt_totals r bods_,
    separate_variables ->
    handleCollisions fuel s collisions opt_totals = Some r ->
    checkInfiniteMassVelocity bods_ (getValue (vars (res_sim r)))
    = checkInfiniteMassVelocity bods_ (getValue (vars s)).
Proof.
  intros fuel s collisions opt_totals r bods_ Hsep Hr.
  apply checkInfiniteMassVelocity_ext. intros B idx _ HB Hidx.
  apply (handleCollisions_frame _ _ _ _ _ _ Hr).
  intros c _. now apply (infinite_mass_not_written B).
Qed.

(** X13. [checkInfiniteMassVelocity] passes exactly when every body of
    infinite mass has its three velocities at 0 and, under [goog.DEBUG],
    every body has an index that is not negative. *)
Theorem checkInfiniteMassVelocity_passes_iff :
  forall bods_ v,
    checkInfiniteMassVelocity bods_ v = None
    <-> forall B, In B bods_ ->
          (goog_DEBUG = true -> (0 <= getVarsIndex (body B))%Z)
          /\ (getMass (body B) = Inf ->
              v (getVarsIndex (body B) + VX_)%Z == 0
              /\ v (getVarsIndex (body B) + VY_)%Z == 0
              /\ v (getVarsIndex (body B) + VW_)%Z == 0).
Proof.
  intros bods_ v. induction bods_ as [|B rest IH].
  - split; [intros _ B []|reflexivity].
  - cbn [checkInfiniteMassVelocity]. cbv zeta.
    destruct (goog_DEBUG && Z.ltb (getVarsIndex (body B)) 0) eqn:Ea.
    + split; [discriminate|]. intros H.
      destruct (H B (or_introl eq_refl)) as [Hidx _].
      apply andb_prop in Ea. destruct Ea as [Ed Elt].
      apply Z.ltb_lt in Elt. specialize (Hidx Ed). lia.
    + assert (Hidx : goog_DEBUG = true -> (0 <= getVarsIndex (body B))%Z).
      { intros Ed. rewrite Ed in Ea. cbn [andb] in Ea. apply Z.ltb_ge in Ea. lia. }
      destruct (getMass (body B)) as [m|] eqn:Em; cbn [isFinite negb].
      * rewrite IH. split.
        -- intros H B0 [<-|Hin]; [|now apply H].
           split; [exact Hidx|]. rewrite Em. discriminate.
        -- intros H B0 Hin. apply H. now right.
      * destruct (Qeq_bool (v (getVarsIndex (body B) + VX_)%Z) 0) eqn:Ex;
          destruct (Qeq_bool (v (getVarsIndex (body B) + VY_)%Z) 0) eqn:Ey;
          destruct (Qeq_bool (v (getVarsIndex (body B) + VW_)%Z) 0) eqn:Ew;
          cbn [negb orb].
        1: { apply Qeq_bool_iff in Ex, Ey, Ew. rewrite IH. split.
             - intros H B0 [<-|Hin]; [|now apply H].
               split; [exact Hidx|]. intros _. now split; [|split].
             - intros H B0 Hin. apply H. now right. }
        all: split; [discriminate|]; intros H;
          destruct (H B (or_introl eq_refl)) as [_ H0];
          destruct (H0 Em) as (Hx & Hy & Hw);
          apply Qeq_bool_iff in Hx, Hy, Hw; congruence.
Qed.

(** ** The velocities kept by the serial loop *)

Lemma list_update_length {A : Type} (l : list A) (i : nat) (v : A) :
  length (list_update l i v) = length l.
Proof.
  revert i. induction l as [|h t IH]; intros [|i]; cbn [list_update length];
    try reflexivity. now rewrite IH.
Qed.

Lemma nth_list_update {A : Type} (l : list A) (i k : nat) (v d : A) :
  nth k (list_update l i v) d
  = if Nat.eqb k i && Nat.ltb i (length l) then v else nth k l d.
Proof.
  revert i k. induction l as [|h t IH]; intros i k.
  - cbn [list_update length]. destruct i; cbn; now rewrite andb_false_r.
  - destruct i as [|i]; destruct k as [|k]; cbn [list_update nth length];
      try reflexivity.
    rewrite IH. reflexivity.
Qed.

Lemma hcs_set_length hybrid grouped small_velocity focus b collisions :
  length (hcs_set hybrid grouped small_velocity focus b collisions) = length b.
Proof.
  unfold hcs_set.
  destruct (Z.eqb focus (-1)); [apply repeat_length|].
  destruct (hybrid || grouped); [|now rewrite length_map, length_seq].
  destruct (nth_error collisions (Z.to_nat focus)) as [cf|]; [|apply repeat_length].
  generalize (subsetCollisions2 collisions cf hybrid b (- small_velocity)).
  intros l.
  assert (H : forall set, length
                (fold_left
                   (fun set c =>
                      match findIndex c collisions with
                      | Some loc => list_update set loc true
                      | None => set
                      end) l set) = length set).
  { induction l as [|c l IH]; intros set; [reflexivity|]. cbn [fold_left].
    rewrite IH. destruct (findIndex c collisions); [apply list_update_length|
                                                    reflexivity]. }
  rewrite H. apply repeat_length.
Qed.

Lemma sum_ext (t u : nat -> Q) (l : list nat) :
  (forall k, In k l -> t k == u k) ->
  forall a b, a == b ->
    fold_left (fun r k => r + t k) l a == fold_left (fun r k => r + u k) l b.
Proof.
  induction l as [|x l IH]; intros H a b Hab; [exact Hab|].
  cbn [fold_left]. apply IH.
  - intros k Hk. apply H. now right.
  - rewrite Hab, (H x (or_introl eq_refl)). reflexivity.
Qed.

Lemma sum_add (t u : nat -> Q) (l : list nat) :
  forall a b,
    fold_left (fun r k => r + (t k + u k)) l (a + b)
    == fold_left (fun r k => r + t k) l a + fold_left (fun r k => r + u k) l b.
Proof.
  induction l as [|x l IH]; intros a b; cbn [fold_left]; [reflexivity|].
  rewrite <- IH. apply sum_ext; [intros; reflexivity|ring].
Qed.

Lemma fold_left_cond_sum (c : nat -> bool) (u : nat -> Q) (l : list nat) :
  forall a,
    fold_left (fun bi j => if c j then bi + u j else bi) l a
    == fold_left (fun r j => r + (if c j then u j else 0)) l a.
Proof.
  induction l as [|x l IH]; intros a; cbn [fold_left]; [reflexivity|].
  rewrite IH. apply sum_ext; [intros; reflexivity|].
  destruct (c x); ring.
Qed.

(** The cumulative impulses after the first [m] writes of [hcs_handle]. *)
Lemma hcs_j2_update (set : list bool) (j1 j2 : list Q) :
  length j2 = length set ->
  forall m, (m <= length (hcs_idx2 set))%nat ->
    let j2' :=
      fold_left
        (fun j2 i =>
           list_update j2 (nth i (hcs_idx2 set) O)
             (nth (nth i (hcs_idx2 set) O) j2 0 + nth i j1 0))
        (seq 0 m) j2 in
    length j2' = length j2
    /\ forall k, (k < length set)%nat ->
         nth k j2' 0
         = if nth k set false && Z.ltb (nth k (hcs_idx set 0) (-1)%Z) (Z.of_nat m)
           then nth k j2 0 + nth (Z.to_nat (nth k (hcs_idx set 0) (-1)%Z)) j1 0
           else nth k j2 0.
Proof.
  intros Hlen. cbv zeta. induction m as [|m IH]; intros Hm.
  - cbn [seq fold_left]. split; [reflexivity|]. intros k Hk.
    destruct (nth k set false) eqn:Ek; [|reflexivity].
    destruct (hcs_idx_member set 0 k Ek) as [i [E1 _]].
    rewrite E1. cbn [andb].
    now rewrite (proj2 (Z.ltb_ge _ _)) by lia.
  - destruct (IH ltac:(lia)) as [IHlen IHnth].
    rewrite seq_S, fold_left_app. cbn [Nat.add fold_left].
    split; [now rewrite list_update_length|].
    intros k Hk. rewrite nth_list_update, IHlen, Hlen.
    assert (Hm' : (m < length (hcs_idx2 set))%nat) by lia.
    destruct (hcs_idx2_member set 0 m (nth m (hcs_idx2 set) 0%nat)
                (nth_error_nth' _ _ Hm')) as (H1 & H2 & H3).
    rewrite (proj2 (Nat.ltb_lt _ _) H1), andb_true_r.
    destruct (Nat.eqb_spec k (nth m (hcs_idx2 set) 0%nat)) as [->|Hne].
    + rewrite H2, H3, Z.add_0_l, Nat2Z.id. cbn [andb].
      rewrite (proj2 (Z.ltb_lt _ _)) by lia.
      rewrite IHnth by exact H1. rewrite H2, H3. cbn [andb].
      now rewrite (proj2 (Z.ltb_ge _ _)) by lia.
    + rewrite IHnth by exact Hk.
      destruct (nth k set false) eqn:Ek; [|reflexivity]. cbn [andb].
      destruct (hcs_idx_member set 0 k Ek) as [i [E1 E2]].
      rewrite E1, Z.add_0_l.
      assert (i <> m).
      { intros ->. apply Hne. symmetry. now apply nth_error_nth. }
      destruct (Z.ltb_spec (Z.of_nat i) (Z.of_nat m));
        destruct (Z.ltb_spec (Z.of_nat i) (Z.of_nat (S m))); try reflexivity; lia.
Qed.


Lemma hcs_handle_tracks hybrid grouped focus joint_ e collisions A t st st' err b0 :
  tracks b0 A st ->
  hcs_handle hybrid grouped focus joint_ e collisions A t st = (st', err) ->
  tracks b0 A st'.
Proof.
  intros (Hb & Hj2 & Hinv). unfold hcs_handle. cbv zeta.
  destruct (compute_forces _ _ _ _ _ _ _) as [[j1 error] rng].
  match goal with |- (if ?c then _ else _) = _ -> _ => destruct c end.
  - intros [= <- _]. unfold tracks. cbn [st_b st_j2]. now split; [|split].
  - intros [= <- _]. unfold tracks. cbn [st_b st_j2].
    set (set := hcs_set hybrid grouped (st_small_velocity st) focus (st_b st)
                  collisions).
    assert (Hset : length set = length b0)
      by (subst set; now rewrite hcs_set_length).
    destruct (hcs_j2_update set j1 (st_j2 st) ltac:(congruence)
                (length (hcs_idx2 set)) (le_n _)) as [Hlen' Hnth'].
    split; [now rewrite length_map, length_seq|].
    split; [congruence|].
    intros i Hi. rewrite Hb. rewrite nth_map_seq by exact Hi.
    rewrite (fold_left_cond_sum (fun j => nth j set false)
               (fun j => entry A i j
                         * nth (Z.to_nat (nth j (hcs_idx set 0) (-1)%Z)) j1 0)).
    rewrite (fold_left_sum_shift
               (fun j => if nth j set false
                         then entry A i j
                              * nth (Z.to_nat (nth j (hcs_idx set 0) (-1)%Z)) j1 0
                         else 0)).
    rewrite (Hinv i Hi).
    set (j2' := fold_left _ (seq 0 (length (hcs_idx2 set))) (st_j2 st)) in *.
    set (d := fun k => if nth k set false
                       then entry A i k
                            * nth (Z.to_nat (nth k (hcs_idx set 0) (-1)%Z)) j1 0
                       else 0).
    assert (Hpt : forall k, In k (seq 0 (length b0)) ->
                    entry A i k * nth k j2' 0
                    == entry A i k * nth k (st_j2 st) 0 + d k).
    { intros k Hk%in_seq. rewrite Hnth' by lia. subst d. cbv beta.
      destruct (nth k set false) eqn:Ek; cbn [andb]; [|ring].
      destruct (hcs_idx_member set 0 k Ek) as [i0 [E1 E2]].
      rewrite E1, Z.add_0_l.
      assert (Hi0 : (i0 < length (hcs_idx2 set))%nat)
        by (apply nth_error_Some; congruence).
      rewrite (proj2 (Z.ltb_lt _ _)) by lia. ring. }
    assert (H00 : 0 == 0 + 0) by ring.
    rewrite (sum_ext (fun k => entry A i k * nth k j2' 0)
               (fun k => entry A i k * nth k (st_j2 st) 0 + d k)
               (seq 0 (length b0)) Hpt 0 (0 + 0) H00).
    rewrite (sum_add (fun k => entry A i k * nth k (st_j2 st) 0) d).
    subst d. cbv beta. ring.
Qed.

Lemma hcs_iteration_tracks hybrid grouped lastPass doPanic joint_ e collisions A t
    st st' step b0 :
  tracks b0 A st ->
  hcs_iteration hybrid grouped lastPass doPanic joint_ e collisions A t st
  = (st', step) ->
  tracks b0 A st'.
Proof.
  intros Hinv. unfold hcs_iteration. cbv zeta.
  destruct (hcs_focus _ _ _ _) as [focus rng].
  destruct (Z.eqb focus (-1) && negb lastPass); [now intros [= <- _]|].
  destruct (hcs_handle _ _ _ _ _ _ _ _ _) as [st2 err] eqn:Eh.
  apply hcs_handle_tracks with (b0 := b0) in Eh; [|exact Hinv].
  destruct err; intros [= <- _]; exact Eh.
Qed.

Lemma hcs_loop_tracks hybrid grouped lastPass doPanic joint_ e collisions A t b0 fuel :
  forall st st' err,
    tracks b0 A st ->
    hcs_loop fuel hybrid grouped lastPass doPanic joint_ e collisions A t st
    = Some (st', err) ->
    tracks b0 A st'.
Proof.
  induction fuel as [|fuel IH]; intros st st' err Hinv; [discriminate|].
  cbn [hcs_loop].
  destruct (hcs_iteration _ _ _ _ _ _ _ _ _ _) as [st1 step] eqn:Eit.
  apply hcs_iteration_tracks with (b0 := b0) in Eit; [|exact Hinv].
  destruct step; [now apply IH| |]; now intros [= <- _].
Qed.

Lemma sum_zero (t : nat -> Q) (l : list nat) :
  (forall k, In k l -> t k == 0) -> fold_left (fun r k => r + t k) l 0 == 0.
Proof.
  intros H. rewrite (sum_ext t (fun _ => 0) l H 0 0 (Qeq_refl 0)).
  clear H. induction l as [|x l IH]; cbn [fold_left]; [reflexivity|].
  assert (H00 : 0 + 0 == 0) by ring.
  rewrite (sum_ext (fun _ => 0) (fun _ => 0) l (fun _ _ => Qeq_refl 0) (0 + 0) 0
             H00).
  exact IH.
Qed.

Lemma hcs_run_tracks fuel s collisions hybrid opt_totals grouped lastPass
    small_velocity doPanic st err :
  hcs_run fuel s collisions hybrid opt_totals grouped lastPass small_velocity doPanic
  = Some (st, err) ->
  tracks (map normalVelocity collisions) (makeCollisionMatrix body collisions) st.
Proof.
  unfold hcs_run. apply hcs_loop_tracks.
  unfold tracks, hcs_init. cbn [st_b st_j2].
  split; [reflexivity|]. split; [unfold zeros; now rewrite repeat_length, length_map|].
  intros i Hi. rewrite sum_zero; [ring|].
  intros k _. unfold zeros.
  destruct (Nat.lt_ge_cases k (length collisions)) as [Hk|Hk].
  - rewrite nth_repeat_lt by exact Hk. ring.
  - rewrite nth_overflow by (now rewrite repeat_length). ring.
Qed.

(** X14. Over exact arithmetic, however the loop of the serial handler
    ends, its array [b] is the normal velocity of each collision on entry
    plus [A j2]: the velocities it tests against the tolerance are those
    that the cumulative impulses [j2] produce. *)
Theorem hcs_run_velocities_follow_impulses :
  forall fuel s collisions hybrid opt_totals grouped lastPass small_velocity doPanic
         st err,
    hcs_run fuel s collisions hybrid opt_totals grouped lastPass small_velocity doPanic
    = Some (st, err) ->
    length (st_b st) = length collisions
    /\ length (st_j2 st) = length collisions
    /\ forall i c,
         nth_error collisions i = Some c ->
         nth i (st_b st) 0
         == normalVelocity c
            + nth i (matrixMultiply (makeCollisionMatrix body collisions)
                       (st_j2 st)) 0.
Proof.
  intros fuel s collisions hybrid opt_totals grouped lastPass small_velocity doPanic
         st err Hrun.
  destruct (hcs_run_tracks _ _ _ _ _ _ _ _ _ _ _ Hrun) as (Hb & Hj2 & Hinv).
  rewrite length_map in Hb, Hj2, Hinv.
  split; [exact Hb|]. split; [exact Hj2|].
  intros i c Ei.
  assert (Hi : (i < length collisions)%nat) by (apply nth_error_Some; congruence).
  rewrite (Hinv i Hi).
  rewrite (nth_map_lt normalVelocity collisions i 0 c Hi).
  rewrite (nth_error_nth _ _ c Ei).
  rewrite nth_matrixMultiply
    by (now rewrite (proj1 (makeCollisionMatrix_square collisions))).
  now rewrite Hj2.
Qed.

Lemma applyImpulses_returns_when (cs : list RigidBodyCollision) (j : list Q) :
  forall s i impulse_,
    (forall k c, nth_error cs k = Some c -> joint c = false ->
       0 <= nth (i + k) j 0) ->
    exists s' cs' r, applyImpulses s cs j i impulse_ = (s', cs', Return r).
Proof.
  induction cs as [|c rest IH]; intros s i impulse_ Hj.
  - now exists s, [], impulse_.
  - cbn [applyImpulses].
    assert (E : applyImpulse s c (nth i j 0)
                = applyImpulse_record s c (nth i j 0)).
    { unfold applyImpulse. destruct (joint c) eqn:Ejc; [reflexivity|].
      specialize (Hj 0%nat c eq_refl Ejc). rewrite Nat.add_0_r in Hj.
      now rewrite (proj2 (Qlt_bool_false_iff _ _) Hj). }
    rewrite E.
    pose proof (applyImpulse_record_returns s c (nth i j 0)) as Hret.
    destruct (applyImpulse_record s c (nth i j 0)) as [s1 c1].
    cbn [snd] in Hret. subst c1.
    assert (Hj' : forall k c0, nth_error rest k = Some c0 -> joint c0 = false ->
                    0 <= nth (S i + k) j 0).
    { intros k c0 Hk Hc0. specialize (Hj (S k) c0 Hk Hc0).
      now rewrite Nat.add_succ_r in Hj. }
    destruct (IH s1 (S i)
                (if Qlt_bool TINY_IMPULSE (nth i j 0) then true else impulse_) Hj')
      as (s2 & cs2 & r & E2).
    rewrite E2. now eexists _, _, _.
Qed.

(** X15. When the loop of the serial handler ends without error and no
    cumulative impulse of a collision that is not a joint is negative, the
    handler returns and the impulses recorded on the collisions are [j2];
    over exact arithmetic the normal velocity that each collision then has
    in the variables is the entry of [b] that the loop ended with.  Every
    collision carries its current normal velocity on entry and relates two
    different bodies. *)
Theorem handleCollisionsSerial_final_velocities :
  forall fuel s collisions hybrid opt_totals grouped lastPass small_velocity doPanic st,
    separate_variables ->
    (forall c, In c collisions -> bodies_in_vars c /\ primaryBody c <> normalBody c) ->
    (forall c, In c collisions ->
       normalVelocity c == calcNormalVelocity (vars s) c) ->
    hcs_run fuel s collisions hybrid opt_totals grouped lastPass small_velocity doPanic
    = Some (st, None) ->
    (forall i c, nth_error collisions i = Some c -> joint c = false ->
       0 <= nth i (st_j2 st) 0) ->
    exists r impulse_,
      handleCollisionsSerial fuel s collisions hybrid opt_totals grouped lastPass
        small_velocity doPanic = Some r
      /\ res_completion r = Return impulse_
      /\ forall i c,
           nth_error collisions i = Some c ->
           impulse (nth i (res_collisions r) c) = nth i (st_j2 st) 0
           /\ calcNormalVelocity (vars (res_sim r)) c == nth i (st_b st) 0.
Proof.
  intros fuel s collisions hybrid opt_totals grouped lastPass small_velocity doPanic st
         Hsep Hcs Hnv Hrun Hj2.
  destruct (hcs_run_tracks _ _ _ _ _ _ _ _ _ _ _ Hrun) as (Hb & Hlen & Hinv).
  rewrite length_map in Hb, Hlen, Hinv.
  unfold handleCollisionsSerial. rewrite Hrun.
  destruct (applyImpulses_returns_when collisions (st_j2 st)
              (set_simRNG s (st_rng st)) 0%nat false Hj2) as (s' & cs & imp & E).
  rewrite E. eexists _, imp. split; [reflexivity|]. split; [reflexivity|].
  cbn [res_sim res_collisions].
  destruct (applyImpulses_records collisions (st_j2 st) _ 0%nat _ _ _ _ Hj2 E)
    as [Hlencs Hrec].
  cbn [Nat.add] in Hrec.
  intros i c Ei.
  assert (Hi : (i < length collisions)%nat) by (apply nth_error_Some; congruence).
  split; [now apply Hrec|].
  pose proof (applyImpulses_matrixMultiply collisions i c (set_simRNG s (st_rng st))
                (st_j2 st) Hsep Hcs Ei _ _ _ E
                (if existsb (fun ck => negb (joint ck)) collisions && imp
                 then set_vars s' (incrSequence (vars s') [1; 3]%Z) else s')
                ltac:(destruct (existsb _ collisions && imp); [now right|now left]))
    as Hv.
  cbn [vars set_simRNG] in Hv.
  rewrite (nth_matrixMultiply_ext _ (map impulse cs) (st_j2 st) i) in Hv.
  2: { rewrite length_map. lia. }
  2: { intros k Hk. rewrite length_map in Hk.
       rewrite (nth_map_lt impulse cs k 0 c) by exact Hk. apply Hrec. lia. }
  rewrite Hv, (Hinv i Hi).
  rewrite (nth_map_lt normalVelocity collisions i 0 c Hi).
  rewrite (nth_error_nth _ _ c Ei).
  rewrite nth_matrixMultiply
    by (now rewrite (proj1 (makeCollisionMatrix_square collisions))).
  rewrite Hlen. rewrite <- (Hnv c (nth_error_In _ _ Ei)). reflexivity.
Qed.

(** ** The passes of the serial loop: tolerance and totals *)

Lemma hcs_handle_fields hybrid grouped focus joint_ e collisions A t st st' err :
  hcs_handle hybrid grouped focus joint_ e collisions A t st = (st', err) ->
  st_small_velocity st' = st_small_velocity st
  /\ st_loopCtr st' = st_loopCtr st
  /\ st_loopPanic st' = st_loopPanic st
  /\ st_totals st' = st_totals st.
Proof.
  unfold hcs_handle. cbv zeta.
  destruct (compute_forces _ _ _ _ _ _ _) as [[j1 error] rng].
  match goal with |- (if ?c then _ else _) = _ -> _ => destruct c end;
    intros [= <- _]; cbn; now split; [|split; [|split]].
Qed.

Lemma hcs_iteration_fields hybrid grouped lastPass doPanic joint_ e collisions A t
    st st' step :
  hcs_iteration hybrid grouped lastPass doPanic joint_ e collisions A t st
  = (st', step) ->
  let panic := doPanic && Z.ltb (st_loopPanic st) (st_loopCtr st + 1) in
  st_loopCtr st' = (st_loopCtr st + 1)%Z
  /\ st_small_velocity st'
     = (if panic then st_small_velocity st * 2 else st_small_velocity st)
  /\ st_loopPanic st'
     = (if panic then (st_loopPanic st + 20 * Z.of_nat (length collisions))%Z
        else st_loopPanic st)
  /\ st_totals st'
     = match step with
       | Continue => addImpulses (st_totals st) 1
       | Break => if lastPass then addImpulses (st_totals st) 1 else st_totals st
       | Raise _ => st_totals st
       end.
Proof.
  unfold hcs_iteration. cbv zeta.
  set (panic := doPanic && Z.ltb (st_loopPanic st) (st_loopCtr st + 1)).
  set (sv := if panic then st_small_velocity st * 2 else st_small_velocity st).
  pose proof (hcs_focus_value sv joint_ (st_b st) (st_rng st)) as Hf.
  destruct (hcs_focus sv joint_ (st_b st) (st_rng st)) as [focus rng].
  cbn [fst] in Hf.
  destruct (Z.eqb focus (-1) && negb lastPass) eqn:Eb.
  - intros [= <- <-]. cbn [st_loopCtr st_small_velocity st_loopPanic st_totals].
    apply andb_prop in Eb. destruct Eb as [_ Eb].
    destruct lastPass; [discriminate|]. now split; [|split; [|split]].
  - destruct (hcs_handle _ _ _ _ _ _ _ _ _) as [st2 err] eqn:Eh.
    apply hcs_handle_fields in Eh.
    cbn [st_loopCtr st_small_velocity st_loopPanic st_totals] in Eh.
    destruct Eh as (E1 & E2 & E3 & E4).
    destruct err as [err|].
    + intros [= <- <-]. now split; [|split; [|split]].
    + intros [= <- <-].
      cbn [st_loopCtr st_small_velocity st_loopPanic st_totals].
      split; [exact E2|]. split; [exact E1|]. split; [exact E3|].
      rewrite E4. destruct (Z.ltb_spec (-1) focus) as [Hlt|Hge]; [reflexivity|].
      assert (focus = (-1)%Z) as -> by (destruct (find _ _); lia).
      cbn [Z.eqb andb] in Eb. change (Z.eqb (-1) (-1)) with true in Eb.
      cbn [andb] in Eb. now destruct lastPass.
Qed.

Lemma hcs_iteration_schedule hybrid grouped lastPass joint_ e collisions A t
    st st' step sv0 :
  (1 <= 20 * Z.of_nat (length collisions))%Z ->
  on_schedule sv0 (20 * Z.of_nat (length collisions)) st ->
  hcs_iteration hybrid grouped lastPass true joint_ e collisions A t st
  = (st', step) ->
  on_schedule sv0 (20 * Z.of_nat (length collisions)) st'
  /\ (1 <= st_loopCtr st')%Z.
Proof.
  intros HP (k & Hk & Hlp & Hsv & Hlow & Hhigh) Hit.
  apply hcs_iteration_fields in Hit. cbv zeta in Hit.
  destruct Hit as (Ectr & Esv & Elp & _). cbn [andb] in Esv, Elp.
  set (P := (20 * Z.of_nat (length collisions))%Z) in *.
  destruct (Z.ltb_spec (st_loopPanic st) (st_loopCtr st + 1)) as [Hp|Hp].
  - split; [|lia]. exists (k + 1)%Z. split; [lia|].
    split; [rewrite Elp, Hlp; ring|].
    split.
    + rewrite Esv, Hsv, Z.pow_add_r by lia. change (2 ^ 1)%Z with 2%Z.
      rewrite inject_Z_mult. change (inject_Z 2) with 2. ring.
    + rewrite Ectr. split; [left; nia|nia].
  - split; [|lia]. exists k. split; [exact Hk|].
    split; [now rewrite Elp|]. split; [now rewrite Esv|].
    rewrite Ectr. split; [left; nia|lia].
Qed.

Lemma hcs_loop_schedule hybrid grouped lastPass joint_ e collisions A t sv0 fuel :
  (1 <= 20 * Z.of_nat (length collisions))%Z ->
  forall st st' err,
    on_schedule sv0 (20 * Z.of_nat (length collisions)) st ->
    hcs_loop fuel hybrid grouped lastPass true joint_ e collisions A t st
    = Some (st', err) ->
    on_schedule sv0 (20 * Z.of_nat (length collisions)) st'
    /\ (1 <= st_loopCtr st')%Z.
Proof.
  intros HP. induction fuel as [|fuel IH]; intros st st' err Hs; [discriminate|].
  cbn [hcs_loop].
  destruct (hcs_iteration _ _ _ _ _ _ _ _ _ _) as [st1 step] eqn:Eit.
  destruct (hcs_iteration_schedule _ _ _ _ _ _ _ _ _ _ _ _ HP Hs Eit) as [Hs1 Hc1].
  destruct step; [now apply IH| |]; now intros [= <- _].
Qed.

Lemma hcs_loop_no_panic hybrid grouped lastPass joint_ e collisions A t fuel :
  forall st st' err,
    hcs_loop fuel hybrid grouped lastPass false joint_ e collisions A t st
    = Some (st', err) ->
    st_small_velocity st' = st_small_velocity st.
Proof.
  induction fuel as [|fuel IH]; intros st st' err; [discriminate|].
  cbn [hcs_loop].
  destruct (hcs_iteration _ _ _ _ _ _ _ _ _ _) as [st1 step] eqn:Eit.
  apply hcs_iteration_fields in Eit. cbv zeta in Eit.
  destruct Eit as (_ & Esv & _). cbn [andb] in Esv.
  destruct step; [intros H; now rewrite (IH _ _ _ H)| |]; now intros [= <- _].
Qed.

(** X16. The panic relaxation of the serial handler follows a fixed
    schedule: with [doPanic] the tolerance in effect in pass [c], of a list
    of [n >= 1] collisions, is the initial tolerance times [2^k] for the [k]
    with [20 n k < c <= 20 n (k + 1)]; without [doPanic] it is the initial
    tolerance. *)
Theorem hcs_run_tolerance_schedule :
  forall fuel s collisions hybrid opt_totals grouped lastPass small_velocity doPanic
         st err,
    collisions <> [] ->
    hcs_run fuel s collisions hybrid opt_totals grouped lastPass small_velocity doPanic
    = Some (st, err) ->
    if default_true doPanic
    then exists k : Z,
           (0 <= k)%Z
           /\ (20 * Z.of_nat (length collisions) * k < st_loopCtr st)%Z
           /\ (st_loopCtr st <= 20 * Z.of_nat (length collisions) * (k + 1))%Z
           /\ st_small_velocity st
              == default_small_velocity small_velocity * inject_Z (2 ^ k)
    else st_small_velocity st = default_small_velocity small_velocity.
Proof.
  intros fuel s collisions hybrid opt_totals grouped lastPass small_velocity doPanic
         st err Hne. unfold hcs_run.
  destruct (default_true doPanic).
  - intros Hrun.
    assert (HP : (1 <= 20 * Z.of_nat (length collisions))%Z)
      by (destruct collisions; [congruence|cbn [length]; lia]).
    assert (Hinit : on_schedule (default_small_velocity small_velocity)
                      (20 * Z.of_nat (length collisions))
                      (hcs_init s collisions opt_totals small_velocity)).
    { exists 0%Z. unfold hcs_init. cbn [st_loopPanic st_small_velocity st_loopCtr].
      split; [lia|]. split; [ring|].
      split; [change (inject_Z (2 ^ 0)) with 1; ring|].
      split; [now right|lia]. }
    destruct (hcs_loop_schedule _ _ _ _ _ _ _ _ _ _ HP _ _ _ Hinit Hrun)
      as [(k & Hk & _ & Hsv & Hlow & Hhigh) Hctr].
    exists k. split; [exact Hk|]. split; [|split; [exact Hhigh|exact Hsv]].
    destruct Hlow as [Hlow|[-> Hz]]; [exact Hlow|lia].
  - intros Hrun. now rewrite (hcs_loop_no_panic _ _ _ _ _ _ _ _ _ _ _ _ Hrun).
Qed.

Lemma hcs_loop_totals hybrid grouped lastPass doPanic joint_ e collisions A t fuel :
  forall st st' err n,
    (0 <= st_loopCtr st)%Z ->
    st_totals st = addImpulses n (Z.to_nat (st_loopCtr st)) ->
    hcs_loop fuel hybrid grouped lastPass doPanic joint_ e collisions A t st
    = Some (st', err) ->
    (1 <= st_loopCtr st')%Z
    /\ st_totals st'
       = addImpulses n
           (Z.to_nat (st_loopCtr st'
                      - match err with
                        | None => if lastPass then 0 else 1
                        | Some _ => 1
                        end)).
Proof.
  assert (Hadd : forall n a, addImpulses (addImpulses n a) 1 = addImpulses n (a + 1)).
  { intros [n|] a; [|reflexivity]. cbn. f_equal. lia. }
  induction fuel as [|fuel IH]; intros st st' err n Hctr Htot; [discriminate|].
  cbn [hcs_loop].
  destruct (hcs_iteration _ _ _ _ _ _ _ _ _ _) as [st1 step] eqn:Eit.
  apply hcs_iteration_fields in Eit. cbv zeta in Eit.
  destruct Eit as (Ectr & _ & _ & Etot).
  destruct step.
  - apply IH; [lia|]. rewrite Etot, Htot, Hadd, Ectr. f_equal. lia.
  - intros [= <- <-]. split; [lia|]. rewrite Etot, Htot, Ectr.
    destruct lastPass; [rewrite Hadd|]; f_equal; lia.
  - intros [= <- <-]. split; [lia|]. rewrite Etot, Htot, Ectr. f_equal. lia.
Qed.

(** X17. The serial handler adds to the totals counter the number of
    solver calls it made: when it returns after [c] passes of its loop the
    counter has grown by [c] with the last pass over all collisions and by
    [c - 1] without it, the pass that found no collision to handle calling
    no solver. *)
Theorem handleCollisionsSerial_totals :
  forall fuel s collisions hybrid opt_totals grouped lastPass small_velocity doPanic
         r impulse_,
    handleCollisionsSerial fuel s collisions hybrid opt_totals grouped lastPass
      small_velocity doPanic = Some r ->
    res_completion r = Return impulse_ ->
    exists st,
      hcs_run fuel s collisions hybrid opt_totals grouped lastPass small_velocity
        doPanic = Some (st, None)
      /\ (1 <= st_loopCtr st)%Z
      /\ res_totals r
         = addImpulses opt_totals
             (Z.to_nat (st_loopCtr st - if default_true lastPass then 0 else 1)).
Proof.
  intros fuel s collisions hybrid opt_totals grouped lastPass small_velocity doPanic
         r impulse_ Hr Hc.
  unfold handleCollisionsSerial in Hr.
  destruct (hcs_run _ _ _ _ _ _ _ _ _) as [[st [err|]]|] eqn:Hrun; [| |discriminate].
  - injection Hr as <-. discriminate.
  - exists st. split; [reflexivity|].
    unfold hcs_run in Hrun.
    apply (hcs_loop_totals _ _ _ _ _ _ _ _ _ _ _ _ _ opt_totals) in Hrun.
    + destruct Hrun as [Hctr Htot]. split; [exact Hctr|].
      destruct (applyImpulses _ collisions (st_j2 st) 0 false) as [[s' cs] [imp|e0]];
        injection Hr as <-; exact Htot.
    + cbn. lia.
    + unfold hcs_init. cbn [st_totals st_loopCtr]. change (Z.to_nat 0) with 0%nat.
      destruct opt_totals as [n|]; [|reflexivity]. cbn. f_equal. lia.
Qed.

(** ** The entries of the collision matrix *)

Lemma Qdiv_ext_nonneg (x : Q) (m : ExtQ) :
  0 <= x -> (forall q, m = Fin q -> 0 <= q) -> 0 <= x // m.
Proof.
  intros Hx Hm. destruct m as [q|]; cbn [Qdiv_ext]; [|lra].
  specialize (Hm q eq_refl). unfold Qdiv.
  apply Qmult_le_0_compat; [exact Hx|].
  destruct (Qeq_dec q 0) as [E|E].
  - rewrite E. cbn. lra.
  - apply Qlt_le_weak, Qinv_lt_0_compat. lra.
Qed.

(** X18. Over exact arithmetic, with every finite mass and every finite
    moment of inertia above 0, the diagonal entry of the collision matrix
    for a collision between two different bodies is
    [|n|^2 / m + (r x n)^2 / I] summed over its bodies of finite mass, and it
    is not negative. *)
Theorem makeCollisionMatrix_diagonal :
  forall collisions i c,
    nth_error collisions i = Some c ->
    primaryBody c <> normalBody c ->
    let n2 := getX (normal c) * getX (normal c) + getY (normal c) * getY (normal c) in
    let term := fun bod r =>
      if isFinite (getMass (body bod))
      then n2 // getMass (body bod)
           + (cross r (normal c) * cross r (normal c)) // momentAboutCM (body bod)
      else 0 in
    (forall bod q, getMass (body bod) = Fin q -> 0 < q) ->
    (forall bod q, momentAboutCM (body bod) = Fin q -> 0 < q) ->
    entry (makeCollisionMatrix body collisions) i i
    == term (primaryBody c) (r1 c) + term (normalBody c) (r2 c)
    /\ 0 <= entry (makeCollisionMatrix body collisions) i i.
Proof.
  intros collisions i c Ei Hc. cbv zeta. intros Hm HI.
  rewrite entry_makeCollisionMatrix, Ei.
  assert (E : 0 + influence body c c (primaryBody c)
              - influence body c c (normalBody c)
              == (if isFinite (getMass (body (primaryBody c)))
                  then (getX (normal c) * getX (normal c)
                        + getY (normal c) * getY (normal c))
                       // getMass (body (primaryBody c))
                       + (cross (r1 c) (normal c) * cross (r1 c) (normal c))
                         // momentAboutCM (body (primaryBody c))
                  else 0)
                 + (if isFinite (getMass (body (normalBody c)))
                    then (getX (normal c) * getX (normal c)
                          + getY (normal c) * getY (normal c))
                         // getMass (body (normalBody c))
                         + (cross (r2 c) (normal c) * cross (r2 c) (normal c))
                           // momentAboutCM (body (normalBody c))
                    else 0)).
  { unfold influence, cross. rewrite !Nat.eqb_refl.
    rewrite (proj2 (Nat.eqb_neq _ _) Hc).
    destruct (getMass (body (primaryBody c))) as [ma|];
      destruct (momentAboutCM (body (primaryBody c))) as [Ia|];
      destruct (getMass (body (normalBody c))) as [mb|];
      destruct (momentAboutCM (body (normalBody c))) as [Ib|];
      cbn [isFinite negb Qdiv_ext]; unfold Qdiv; ring. }
  split; [exact E|]. rewrite E.
  assert (Hsq : forall x, 0 <= x * x) by (intros x; nra).
  assert (Hn2 : 0 <= getX (normal c) * getX (normal c)
                     + getY (normal c) * getY (normal c))
    by (pose proof (Hsq (getX (normal c))); pose proof (Hsq (getY (normal c))); lra).
  assert (Hterm : forall bod r,
             0 <= (if isFinite (getMass (body bod))
                   then (getX (normal c) * getX (normal c)
                         + getY (normal c) * getY (normal c)) // getMass (body bod)
                        + (cross r (normal c) * cross r (normal c))
                          // momentAboutCM (body bod)
                   else 0)).
  { intros bod r. destruct (isFinite (getMass (body bod))); [|lra].
    pose proof (Qdiv_ext_nonneg _ (getMass (body bod)) Hn2
                  (fun q Hq => Qlt_le_weak _ _ (Hm bod q Hq))).
    pose proof (Qdiv_ext_nonneg _ (momentAboutCM (body bod))
                  (Hsq (cross r (normal c)))
                  (fun q Hq => Qlt_le_weak _ _ (HI bod q Hq))).
    lra. }
  pose proof (Hterm (primaryBody c) (r1 c)). pose proof (Hterm (normalBody c) (r2 c)).
  lra.
Qed.

(** X19. The entry [A[i][k]] of the collision matrix is 0 when the
    collisions [i] and [k] have no body of finite mass in common: an
    impulse at one does not change the velocity at the other. *)
Theorem makeCollisionMatrix_unrelated :
  forall collisions i k ci ck,
    nth_error collisions i = Some ci ->
    nth_error collisions k = Some ck ->
    (forall bod, involves ci bod = true -> involves ck bod = true ->
       isFinite (getMass (body bod)) = false) ->
    entry (makeCollisionMatrix body collisions) i k == 0.
Proof.
  intros collisions i k ci ck Ei Ek Hno.
  rewrite entry_makeCollisionMatrix, Ei, Ek.
  assert (Hinf : forall bod, involves ci bod = true -> influence body ci ck bod = 0).
  { intros bod Hci. unfold influence.
    destruct (isFinite (getMass (body bod))) eqn:Efin; [|reflexivity].
    cbn [negb].
    assert (Hck : involves ck bod = false).
    { destruct (involves ck bod) eqn:Eck; [|reflexivity].
      rewrite (Hno bod Hci Eck) in Efin. discriminate. }
    unfold involves in Hck. apply orb_false_elim in Hck. destruct Hck as [H1 H2].
    rewrite Nat.eqb_sym in H1. rewrite Nat.eqb_sym in H2. rewrite H1, H2.
    now destruct (if Nat.eqb (primaryBody ci) bod then _ else _). }
  rewrite (Hinf (primaryBody ci)), (Hinf (normalBody ci)); [ring| |];
    unfold involves; rewrite Nat.eqb_refl; [apply orb_true_r|reflexivity].
Qed.

(** ** One focus collision handled on its own *)

Lemma filter_eqb_seq (f a n : nat) :
  filter (fun k => Nat.eqb k f) (seq a n)
  = if Nat.leb a f && Nat.ltb f (a + n) then [f] else [].
Proof.
  revert a. induction n as [|n IH]; intros a.
  - cbn [seq filter]. rewrite Nat.add_0_r.
    destruct (Nat.leb_spec a f); destruct (Nat.ltb_spec f a); try reflexivity; lia.
  - cbn [seq filter]. rewrite IH.
    destruct (Nat.eqb_spec a f) as [Heq|Hne];
      destruct (Nat.leb_spec (S a) f); destruct (Nat.leb_spec a f);
      destruct (Nat.ltb_spec f (S a + n)); destruct (Nat.ltb_spec f (a + S n));
      cbn [andb]; try reflexivity; try lia; now subst.
Qed.

Lemma nth_single_set (n f k : nat) :
  (k < n)%nat ->
  nth k (map (fun k => Z.eqb (Z.of_nat k) (Z.of_nat f)) (seq 0 n)) false
  = Nat.eqb k f.
Proof.
  intros Hk. rewrite nth_map_seq by exact Hk.
  destruct (Nat.eqb_spec k f) as [->|Hne]; [apply Z.eqb_refl|].
  apply Z.eqb_neq. lia.
Qed.

Lemma hcs_idx2_single (n f : nat) :
  (f < n)%nat ->
  hcs_idx2 (map (fun k => Z.eqb (Z.of_nat k) (Z.of_nat f)) (seq 0 n)) = [f].
Proof.
  intros Hf. unfold hcs_idx2. rewrite length_map, length_seq.
  rewrite (filter_ext_in _ (fun k => Nat.eqb k f)).
  - rewrite filter_eqb_seq. cbn [Nat.leb Nat.add andb].
    now rewrite (proj2 (Nat.ltb_lt _ _) Hf).
  - intros k Hk%in_seq. apply nth_single_set. lia.
Qed.

Lemma fold_left_single (f : nat) (u : nat -> Q) (n : nat) :
  forall a x,
    fold_left (fun bi j => if Nat.eqb j f then bi + u j else bi) (seq a n) x
    = if Nat.leb a f && Nat.ltb f (a + n) then x + u f else x.
Proof.
  induction n as [|n IH]; intros a x.
  - cbn [seq fold_left]. rewrite Nat.add_0_r.
    destruct (Nat.leb_spec a f); destruct (Nat.ltb_spec f a); try reflexivity; lia.
  - cbn [seq fold_left]. rewrite IH.
    destruct (Nat.eqb_spec a f) as [Heq|Hne];
      destruct (Nat.leb_spec (S a) f); destruct (Nat.leb_spec a f);
      destruct (Nat.ltb_spec f (S a + n)); destruct (Nat.ltb_spec f (a + S n));
      cbn [andb]; try reflexivity; try lia; now subst.
Qed.

(** Without the hybrid and the grouped option, the solver receives the
    system of one row of the focus collision. *)
Lemma hcs_handle_single (f : nat) joint_ e collisions A t st st' :
  (f < length (st_b st))%nat ->
  hcs_handle false false (Z.of_nat f) joint_ e collisions A t st = (st', None) ->
  exists j1 error rng,
    compute_forces [[entry A f f]] [0]
      [nth f (st_b st) 0 * (1 + nth f e 0)] [nth f joint_ false] false t (st_rng st)
    = (j1, error, rng)
    /\ st_b st'
       = map (fun i => nth i (st_b st) 0 + entry A i f * nth 0 j1 0)
           (seq 0 (length (st_b st)))
    /\ st_j2 st'
       = list_update (st_j2 st) f (nth f (st_j2 st) 0 + nth 0 j1 0).
Proof.
  intros Hf. unfold hcs_handle. cbv zeta.
  assert (Hset : hcs_set false false (st_small_velocity st) (Z.of_nat f) (st_b st)
                   collisions
                 = map (fun k => Z.eqb (Z.of_nat k) (Z.of_nat f))
                     (seq 0 (length (st_b st)))).
  { unfold hcs_set. rewrite (proj2 (Z.eqb_neq (Z.of_nat f) (-1))) by lia.
    reflexivity. }
  rewrite Hset, (hcs_idx2_single _ f Hf).
  rewrite (proj2 (Z.eqb_neq (Z.of_nat f) (-1))) by lia.
  cbn [map length seq nth negb zeros repeat].
  destruct (compute_forces _ _ _ _ _ _ _) as [[j1 error] rng].
  match goal with |- (if ?c then _ else _) = _ -> _ => destruct c end;
    [discriminate|].
  intros [= <-]. exists j1, error, rng. split; [reflexivity|].
  cbn [st_b st_j2 fold_left]. split; [|reflexivity].
  apply map_ext_in. intros i Hi%in_seq.
  assert (Hidx : nth f (hcs_idx (map (fun k => Z.eqb (Z.of_nat k) (Z.of_nat f))
                                   (seq 0 (length (st_b st)))) 0) (-1)%Z = 0%Z).
  { destruct (hcs_idx_member _ 0 f
                (eq_trans (nth_single_set _ f f Hf) (Nat.eqb_refl f)))
      as [i0 [E1 E2]].
    rewrite (hcs_idx2_single _ f Hf) in E2.
    destruct i0 as [|[|i0]]; [|discriminate|discriminate]. exact E1. }
  rewrite (fold_left_ext_in _
             (fun bi j => if Nat.eqb j f
                          then bi + entry A i j * nth 0 j1 0 else bi)).
  - rewrite fold_left_single. cbn [Nat.leb Nat.add andb].
    now rewrite (proj2 (Nat.ltb_lt _ _) Hf).
  - intros bi j Hj%in_seq. rewrite nth_single_set by lia.
    destruct (Nat.eqb_spec j f) as [->|Hne]; [|reflexivity].
    now rewrite Hidx.
Qed.

(** X20. One pass of the serial handler on a focus collision [f], without
    the hybrid and the grouped option, over exact arithmetic and with a
    solver call that returns a solution of the system of one row it was
    given: only [j2[f]] changes, [b] changes by [A[i][f]] times that
    impulse, and the focus collision obeys the collision law,
    [b'[f] >= -e[f] b[f]] with equality for a joint and wherever the impulse
    is positive; the impulse of a collision that is not a joint is not
    negative. *)
Theorem hcs_handle_focus_collision_law :
  forall f joint_ e collisions A t st st',
    (f < length (st_b st))%nat ->
    length (st_j2 st) = length (st_b st) ->
    lcp_solution [[entry A f f]] [nth f (st_b st) 0 * (1 + nth f e 0)]
      [nth f joint_ false]
      (fst (fst (compute_forces [[entry A f f]] [0]
                   [nth f (st_b st) 0 * (1 + nth f e 0)] [nth f joint_ false]
                   false t (st_rng st)))) ->
    hcs_handle false false (Z.of_nat f) joint_ e collisions A t st = (st', None) ->
    let v := nth f (st_b st) 0 in
    let v' := nth f (st_b st') 0 in
    let dj := nth f (st_j2 st') 0 - nth f (st_j2 st) 0 in
    (forall i, (i < length (st_b st))%nat ->
       nth i (st_b st') 0 == nth i (st_b st) 0 + entry A i f * dj)
    /\ (forall k, k <> f -> nth k (st_j2 st') 0 = nth k (st_j2 st) 0)
    /\ (if nth f joint_ false then v' == - (nth f e 0 * v)
        else - (nth f e 0 * v) <= v' /\ 0 <= dj /\ dj * (v' + nth f e 0 * v) == 0).
Proof.
  intros f joint_ e collisions A t st st' Hf Hlen Hsolver Hh. cbv zeta.
  destruct (hcs_handle_single f joint_ e collisions A t st st' Hf Hh)
    as (j1 & error & rng & Ec & Eb & Ej2).
  rewrite Ec in Hsolver. cbn [fst] in Hsolver. destruct Hsolver as [Hj1 Hsol].
  specialize (Hsol 0%nat ltac:(cbn; lia)). cbv zeta in Hsol.
  destruct j1 as [|j10 [|j11 j1]]; try discriminate.
  unfold vectorAdd, matrixMultiply in Hsol.
  cbn [map length seq fold_left nth] in Hsol.
  assert (Hdj : nth f (st_j2 st') 0 - nth f (st_j2 st) 0 == j10).
  { rewrite Ej2, nth_list_update, Nat.eqb_refl, Hlen.
    rewrite (proj2 (Nat.ltb_lt _ _) Hf). cbn [andb nth]. ring. }
  assert (Hb : forall i, (i < length (st_b st))%nat ->
                 nth i (st_b st') 0 == nth i (st_b st) 0 + entry A i f * j10).
  { intros i Hi. rewrite Eb, nth_map_seq by exact Hi. reflexivity. }
  split; [intros i Hi; now rewrite Hdj, (Hb i Hi)|].
  split.
  - intros k Hk. rewrite Ej2, nth_list_update.
    now rewrite (proj2 (Nat.eqb_neq _ _) Hk).
  - pose proof (Hb f Hf) as Hbf.
    set (v' := nth f (st_b st') 0) in *. set (v := nth f (st_b st) 0) in *.
    set (dj := nth f (st_j2 st') 0 - nth f (st_j2 st) 0) in *.
    unfold entry in Hsol. cbn [nth] in Hsol. fold (entry A f f) in Hsol.
    destruct (nth f joint_ false).
    + lra.
    + destruct Hsol as (H1 & H2 & H3).
      split; [lra|]. split; [lra|].
      assert (Ha : v' + nth f e 0 * v
                   == 0 + entry A f f * j10 + v * (1 + nth f e 0)) by lra.
      now rewrite Ha, Hdj.
Qed.

(** ** Errors of the simultaneous handler *)



(** ** A serial pass with nothing to handle *)

Lemma find_all_false {A : Type} (f : A -> bool) (l : list A) :
  (forall x, f x = false) -> find f l = None.
Proof.
  intros H. induction l as [|x l IH]; [reflexivity|]. cbn [find]. now rewrite H.
Qed.

Lemma applyImpulses_zeros (cs : list RigidBodyCollision) (n : nat) :
  forall s i,
    applyImpulses s cs (zeros n) i false
    = (s, map (fun c => set_impulse c 0) cs, Return false).
Proof.
  assert (Hz : forall k, nth k (zeros n) 0 = 0).
  { intros k. unfold zeros. destruct (Nat.lt_ge_cases k n).
    - now apply nth_repeat_lt.
    - apply nth_overflow. now rewrite repeat_length. }
  induction cs as [|c rest IH]; intros s i; [reflexivity|].
  cbn [applyImpulses map]. rewrite Hz.
  change (Qlt_bool TINY_IMPULSE 0) with false. cbv iota.
  assert (E : applyImpulse s c 0 = (s, Return (set_impulse c 0))).
  { unfold applyImpulse. change (Qlt_bool 0 0) with false.
    rewrite andb_false_r. reflexivity. }
  rewrite E, IH. reflexivity.
Qed.

(** X22. When no collision is large at the initial tolerance, the serial
    handler without a last pass calls no solver: after one pass it returns
    false, with the impulse 0 recorded on every collision, the variables and
    the totals counter as they were and nothing on the console; only the
    generator has advanced. *)
Theorem handleCollisionsSerial_nothing_large :
  forall fuel s collisions hybrid opt_totals grouped small_velocity doPanic,
    collisions <> [] ->
    (forall i,
       large (default_small_velocity small_velocity) (map joint collisions)
         (map normalVelocity collisions) i = false) ->
    handleCollisionsSerial (S fuel) s collisions hybrid opt_totals grouped
      (Some false) small_velocity doPanic
    = Some (mkResult
              (set_simRNG s (snd (randomInts (simRNG_ s) (length collisions))))
              (map (fun c => set_impulse c 0) collisions) opt_totals []
              (Return false)).
Proof.
  intros fuel s collisions hybrid opt_totals grouped small_velocity doPanic Hne
         Hsmall.
  assert (Hpanic : Z.ltb (20 * Z.of_nat (length collisions)) (0 + 1) = false).
  { apply Z.ltb_ge. destruct collisions; [congruence|cbn [length]; lia]. }
  unfold handleCollisionsSerial, hcs_run, hcs_init. cbn [hcs_loop default_true].
  unfold hcs_iteration. cbv zeta.
  cbn [st_loopCtr st_loopPanic st_small_velocity st_b st_rng st_console st_j2
       st_totals st_debugHCS].
  rewrite Hpanic, !andb_false_r.
  change (Z.ltb LOOP_LIMIT (0 + 1)) with false. rewrite ?andb_false_r.
  cbn [andb].
  unfold hcs_focus. rewrite length_map.
  destruct (randomInts (simRNG_ s) (length collisions)) as [indices rng].
  rewrite (find_all_false _ _ Hsmall).
  change (Z.eqb (-1) (-1) && negb false) with true. cbv iota.
  cbn [st_rng st_j2 st_totals st_console snd].
  rewrite applyImpulses_zeros. rewrite andb_false_r. reflexivity.
Qed.

(** ** Which impulses mark a discontinuity *)

Lemma sequence_setValue_continuous (va : VarsList) (idx : Z) (v : Q) :
  sequence (setValue va idx v true idx) = sequence (va idx).
Proof. unfold setValue. now rewrite Z.eqb_refl. Qed.

Lemma sequence_setValue_discontinuous (va : VarsList) (idx : Z) (v : Q) :
  sequence (setValue va idx v false idx) = S (sequence (va idx)).
Proof. unfold setValue. now rewrite Z.eqb_refl. Qed.

Lemma sequence_setValue_other (va : VarsList) (idx i : Z) (v : Q) (c : bool) :
  i <> idx -> sequence (setValue va idx v c i) = sequence (va i).
Proof. intros H. now rewrite setValue_other. Qed.

Lemma applyImpulse_record_sequence (s : Sim) (cd : RigidBodyCollision) (j : Q)
    (bod : BodyRef) :
  separate_variables -> bodies_in_vars cd ->
  let o := getVarsIndex (body bod) in
  let s' := fst (applyImpulse_record s cd j) in
  let fin := isFinite (getMass (body bod)) in
  let marks :=
    if Qeq_bool j 0 || Qlt_bool (Qabs j) SMALL_IMPULSE then 0%nat
    else ((if fin && Nat.eqb bod (primaryBody cd) then 1 else 0)
          + (if fin && Nat.eqb bod (normalBody cd) then 1 else 0))%nat in
  sequence (vars s' (VX_ + o)%Z) = (sequence (vars s (VX_ + o)%Z) + marks)%nat
  /\ sequence (vars s' (VY_ + o)%Z) = (sequence (vars s (VY_ + o)%Z) + marks)%nat
  /\ sequence (vars s' (VW_ + o)%Z) = (sequence (vars s (VW_ + o)%Z) + marks)%nat.
Proof.
  intros Hsep Hin. cbv zeta.
  unfold applyImpulse_record. destruct (Qeq_bool j 0) eqn:Ej.
  - cbn [fst orb]. rewrite !Nat.add_0_r. now split; [|split].
  - cbn [fst orb]. rewrite vars_debugCircle_if.
    cbn [vars set_vars set_impulse primaryBody normalBody normal r1 r2].
    pose proof (Hin (primaryBody cd)) as Hp. pose proof (Hin (normalBody cd)) as Hn.
    unfold involves in Hp, Hn. rewrite Nat.eqb_refl in Hp, Hn.
    rewrite orb_true_r in Hn. cbn [orb] in Hp.
    pose proof Hsep as (Hxy & Hxw & Hyw & _).
    destruct (Qlt_bool (Qabs j) SMALL_IMPULSE);
    destruct (Nat.eqb_spec bod (primaryBody cd)) as [Ep|Ep];
      destruct (Nat.eqb_spec bod (normalBody cd)) as [En|En].
    all: try (rewrite <- Ep in * ); try (rewrite <- En in * ).
    all: try (pose proof (separate_offsets bod (primaryBody cd) Hsep Ep)
               as (? & ? & ? & ? & ? & ? & ? & ? & ?)).
    all: try (pose proof (separate_offsets bod (normalBody cd) Hsep En)
               as (? & ? & ? & ? & ? & ? & ? & ? & ?)).
    all: rewrite ?andb_false_r.
    all: destruct (isFinite (getMass (body bod))) eqn:Ebod;
      try rewrite (proj2 (Z.ltb_lt _ _) (Hp eq_refl eq_refl));
      try rewrite (proj2 (Z.ltb_lt _ _) (Hn eq_refl eq_refl)).
    all: try (destruct (isFinite (getMass (body (primaryBody cd))));
              [destruct (Z.ltb (-1) (getVarsIndex (body (primaryBody cd))))|]).
    all: try (destruct (isFinite (getMass (body (normalBody cd))));
              [destruct (Z.ltb (-1) (getVarsIndex (body (normalBody cd))))|]).
    all: read_through sequence_setValue_continuous sequence_setValue_discontinuous
           sequence_setValue_other Hxy Hxw Hyw; cbn [andb]; (split; [|split]); lia.
Qed.

(** X23. Which impulses mark a discontinuity.  After [applyImpulse], an
    impulse recorded as 0 or of size below [SMALL_IMPULSE] has moved no
    sequence number of a velocity variable; any other impulse has
    incremented the sequence number of each velocity variable of each
    finite-mass body of the collision, once for each side of the collision
    that the body is on. *)
Theorem applyImpulse_sequence :
  forall s cd j s' cd' bod,
    separate_variables -> bodies_in_vars cd ->
    applyImpulse s cd j = (s', Return cd') ->
    let o := getVarsIndex (body bod) in
    let fin := isFinite (getMass (body bod)) in
    let marks :=
      if Qeq_bool (impulse cd') 0 || Qlt_bool (Qabs (impulse cd')) SMALL_IMPULSE
      then 0%nat
      else ((if fin && Nat.eqb bod (primaryBody cd) then 1 else 0)
            + (if fin && Nat.eqb bod (normalBody cd) then 1 else 0))%nat in
    sequence (vars s' (VX_ + o)%Z) = (sequence (vars s (VX_ + o)%Z) + marks)%nat
    /\ sequence (vars s' (VY_ + o)%Z) = (sequence (vars s (VY_ + o)%Z) + marks)%nat
    /\ sequence (vars s' (VW_ + o)%Z) = (sequence (vars s (VW_ + o)%Z) + marks)%nat.
Proof.
  intros s cd j s' cd' bod Hsep Hin Happ.
  destruct (applyImpulse_effective _ _ _ _ _ Happ) as (_ & _ & ->).
  now apply applyImpulse_record_sequence.
Qed.

End Engine.

Set Warnings "-notation-for-abbreviation".

(** * The handlers on explicit scenes *)

Local Notation demo_sim h :=
  (mkSim Demo.Random Demo.vars0 0%N h true 0 []).

Local Notation demo_handleCollisions dbg :=
  (handleCollisions Demo.body Demo.VX_ Demo.VY_ Demo.VW_ dbg Demo.Random
     Demo.randomInts Demo.compute_forces Demo.checkForceAccel Demo.subsetCollisions2
     Demo.contact Demo.checkConsistent).

Local Notation demo_handleCollisionsSerial dbg :=
  (handleCollisionsSerial Demo.body Demo.VX_ Demo.VY_ Demo.VW_ dbg Demo.Random
     Demo.randomInts Demo.compute_forces Demo.checkForceAccel Demo.subsetCollisions2).

Local Notation demo_hcs_run dbg :=
  (hcs_run Demo.body dbg Demo.Random Demo.randomInts Demo.compute_forces
     Demo.checkForceAccel Demo.subsetCollisions2).

Local Notation demo_applyImpulse :=
  (applyImpulse Demo.body Demo.VX_ Demo.VY_ Demo.VW_ Demo.Random).

(** ** The collision matrix *)

(** Witness of C5: the entries (0,1) and (1,0) for a disk on a wall and a
    second disk on the first. *)
Lemma makeCollisionMatrix_symmetric_witness :
  entry (makeCollisionMatrix Demo.body
           [Demo.disk_on_wall (-1) 1; Demo.disk_on_disk (-1) 1 false]) 0 1
  == entry (makeCollisionMatrix Demo.body
              [Demo.disk_on_wall (-1) 1; Demo.disk_on_disk (-1) 1 false]) 1 0.
Proof.
  apply (makeCollisionMatrix_symmetric Demo.body
           [Demo.disk_on_wall (-1) 1; Demo.disk_on_disk (-1) 1 false] 0 1).
  repeat constructor; discriminate.
Defined.

(** ** The impulse applier *)

(** Witness of C7: an impulse of [-1e-13] on a collision that is not a
    joint is clamped. *)
Lemma applyImpulse_negative_impulse_witness :
  applyImpulse Demo.body Demo.VX_ Demo.VY_ Demo.VW_ Demo.Random
    (demo_sim SIMULTANEOUS) (Demo.disk_on_wall (-1) 1) (-1 # 10000000000000)
  = (demo_sim SIMULTANEOUS, Return (set_impulse (Demo.disk_on_wall (-1) 1) 0)).
Proof.
  apply (proj2 (applyImpulse_negative_impulse Demo.body Demo.VX_ Demo.VY_ Demo.VW_
                  Demo.Random (demo_sim SIMULTANEOUS) (Demo.disk_on_wall (-1) 1)
                  (-1 # 10000000000000))).
  - reflexivity.
  - vm_compute. discriminate.
  - reflexivity.
Defined.

(** ** The simultaneous handler *)

(** Witness of C2: a resting contact (not a joint, approaching at 0.1) gets
    the factor 1. *)
Lemma simultaneous_b_entry_witness :
  nth_error (simultaneous_b Demo.contact [Demo.disk_on_wall (-1 # 10) (1 # 2)]) 0
  = Some ((-1 # 10) * 1).
Proof.
  apply (proj1 (simultaneous_b_entry Demo.contact
                  [Demo.disk_on_wall (-1 # 10) (1 # 2)] 0
                  (Demo.disk_on_wall (-1 # 10) (1 # 2)) eq_refl)).
Defined.

(** Counterexample to C2 as stated: the same collision is not a joint, and
    its entry is not [normalVelocity * (1 + elasticity)]. *)
Lemma simultaneous_b_not_by_joint :
  joint (Demo.disk_on_wall (-1 # 10) (1 # 2)) = false
  /\ ~ nth 0 (simultaneous_b Demo.contact [Demo.disk_on_wall (-1 # 10) (1 # 2)]) 0
       == normalVelocity (Demo.disk_on_wall (-1 # 10) (1 # 2))
          * (1 + getElasticity (Demo.disk_on_wall (-1 # 10) (1 # 2))).
Proof. split; [reflexivity|]. vm_compute. discriminate. Qed.

(** ** The serial handler *)

(** Witness of C3: two disks held by one joint, handled one collision at a
    time; the handler returns true and the cumulative impulse is above
    [TINY_IMPULSE]. *)
Lemma handleCollisionsSerial_returns_true_iff_witness :
  exists st,
    demo_hcs_run true 10 (demo_sim SERIAL_SEPARATE) [Demo.disk_on_disk (-1) 0 true]
      false None (Some false) (Some false) None None = Some (st, None)
    /\ (true = true <->
        exists i, (i < 1)%nat /\ TINY_IMPULSE < nth i (st_j2 Demo.Random st) 0).
Proof.
  destruct (demo_handleCollisionsSerial true 10 (demo_sim SERIAL_SEPARATE)
              [Demo.disk_on_disk (-1) 0 true] false None (Some false) (Some false)
              None None) as [r|] eqn:Hr; [|vm_compute in Hr; discriminate].
  apply (handleCollisionsSerial_returns_true_iff Demo.body Demo.VX_ Demo.VY_ Demo.VW_
           true Demo.Random Demo.randomInts Demo.compute_forces Demo.checkForceAccel
           Demo.subsetCollisions2 10 (demo_sim SERIAL_SEPARATE)
           [Demo.disk_on_disk (-1) 0 true] false None (Some false) (Some false)
           None None r true Hr).
  vm_compute in Hr. injection Hr as <-. reflexivity.
Defined.

(** Counterexample to C3 as stated: the only collision is a joint, and the
    serial handler returns true. *)
Lemma handleCollisionsSerial_true_without_non_joint :
  existsb (fun c => negb (joint c)) [Demo.disk_on_disk (-1) 0 true] = false
  /\ option_map (res_completion Demo.Random)
       (demo_handleCollisions true 10 (demo_sim SERIAL_SEPARATE)
          [Demo.disk_on_disk (-1) 0 true] None)
     = Some (Return true).
Proof. split; vm_compute; reflexivity. Qed.

(** ** Infinite-mass bodies *)

(** Witness of C6: a disk bounces off the wall; the three velocities of the
    wall (variables 5, 7 and 9) keep their values. *)
Lemma handleCollisions_infinite_mass_unchanged_witness :
  match demo_handleCollisions true 10 (demo_sim SERIAL_GROUPED_LASTPASS)
          [Demo.disk_on_wall (-1) 1] None with
  | Some r =>
      getValue (vars Demo.Random (res_sim Demo.Random r)) 5 = getValue Demo.vars0 5
      /\ getValue (vars Demo.Random (res_sim Demo.Random r)) 7 = getValue Demo.vars0 7
      /\ getValue (vars Demo.Random (res_sim Demo.Random r)) 9 = getValue Demo.vars0 9
  | None => False
  end.
Proof.
  destruct (demo_handleCollisions true 10 (demo_sim SERIAL_GROUPED_LASTPASS)
              [Demo.disk_on_wall (-1) 1] None) as [r|] eqn:Hr;
    [|vm_compute in Hr; discriminate].
  pose proof (proj2 (handleCollisions_infinite_mass_unchanged Demo.body Demo.VX_
                       Demo.VY_ Demo.VW_ true Demo.Random Demo.randomInts
                       Demo.compute_forces Demo.checkForceAccel
                       Demo.subsetCollisions2 Demo.contact Demo.checkConsistent
                       10 (demo_sim SERIAL_GROUPED_LASTPASS)
                       [Demo.disk_on_wall (-1) 1] None r Hr) 0%nat eq_refl) as H.
  assert (Hlayout : forall (p : BodyRef) (idx : Z),
             p <> 0%nat ->
             velocity_index Demo.body Demo.VX_ Demo.VY_ Demo.VW_ p idx ->
             ~ velocity_index Demo.body Demo.VX_ Demo.VY_ Demo.VW_ 0%nat idx).
  { intros p idx Hp. unfold velocity_index, Demo.VX_, Demo.VY_, Demo.VW_.
    assert (E : getVarsIndex (Demo.body p) = (4 + 6 * Z.of_nat p)%Z)
      by (destruct p as [|[|[|p]]]; reflexivity).
    rewrite E. change (getVarsIndex (Demo.body 0%nat)) with 4%Z. lia. }
  specialize (H Hlayout).
  repeat split; apply H; unfold velocity_index; cbn; tauto.
Defined.

(** ** The concrete generator and solver *)

Lemma Demo_randomInts_all :
  forall r n i, (i < n)%nat -> In i (firstn n (fst (Demo.randomInts r n))).
Proof.
  intros r n i Hi. unfold Demo.randomInts. cbn [fst].
  assert (Hk : (N.to_nat (r mod N.of_nat n) < n)%nat)
    by (pose proof (N.mod_lt r (N.of_nat n)); lia).
  rewrite firstn_firstn, Nat.min_id.
  rewrite firstn_all2 by (rewrite length_app, !length_seq; lia).
  apply in_app_iff. rewrite !in_seq. lia.
Qed.

Lemma Demo_compute_forces_contract (a : Q) (jt : bool) :
  0 < a -> meets_contract_on Demo.Random Demo.compute_forces [[a]] [jt].
Proof.
  intros Ha f b debugCF t rng Hb. unfold Demo.compute_forces.
  rewrite (proj2 (Qlt_bool_iff 0 a) Ha).
  destruct b as [|b0 [|b1 b]]; try discriminate. cbn [nth].
  assert (Hinv : 0 < / a) by now apply Qinv_lt_0_compat.
  destruct (jt || Qlt_bool b0 0) eqn:E; unfold lcp_solution; cbn [fst];
    (split; [reflexivity|]); intros i Hi; cbn [length] in Hi; assert (i = 0%nat) as -> by lia;
    unfold vectorAdd, matrixMultiply;
    cbn [map length seq fold_left nth]; cbv zeta.
  - assert (Hzero : 0 + a * (- b0 / a) + b0 == 0) by (field; lra).
    destruct jt; [exact Hzero|]. cbn [orb] in E. apply Qlt_bool_iff in E.
    cbn [nth]. split; [|split].
    + unfold Qdiv. apply Qmult_le_0_compat; lra.
    + rewrite Hzero. lra.
    + rewrite Hzero. ring.
  - apply orb_false_elim in E. destruct E as [-> E].
    apply Qlt_bool_false_iff in E.
    assert (Hb0 : 0 + a * 0 + b0 == b0) by ring.
    cbn [nth]. split; [lra|split; [rewrite Hb0; exact E|ring]].
Qed.

(** ** The exit of the serial loop *)

(** A disk hits the wall at speed 1; with the last pass the loop leaves
    [b[0] >= -small_velocity]. *)
Lemma hcs_run_exit_small_witness :
  exists st,
    demo_hcs_run true 10 (demo_sim SERIAL_GROUPED_LASTPASS)
      [Demo.disk_on_wall (-1) (1 # 2)] false None None None None None
    = Some (st, None)
    /\ - st_small_velocity Demo.Random st <= nth 0 (st_b Demo.Random st) 0.
Proof.
  destruct (demo_hcs_run true 10 (demo_sim SERIAL_GROUPED_LASTPASS)
              [Demo.disk_on_wall (-1) (1 # 2)] false None None None None None)
    as [[st [err|]]|] eqn:Hrun;
    [vm_compute in Hrun; discriminate| |vm_compute in Hrun; discriminate].
  exists st. split; [reflexivity|].
  apply (hcs_run_exit_small Demo.body true Demo.Random Demo.randomInts
           Demo.compute_forces Demo.checkForceAccel Demo.subsetCollisions2
           10 (demo_sim SERIAL_GROUPED_LASTPASS) [Demo.disk_on_wall (-1) (1 # 2)]
           false None None None None None st Demo_randomInts_all eq_refl
           (fun _ => Demo_compute_forces_contract
                       (0 + influence Demo.body (Demo.disk_on_wall (-1) (1 # 2))
                              (Demo.disk_on_wall (-1) (1 # 2)) 1%nat
                        - influence Demo.body (Demo.disk_on_wall (-1) (1 # 2))
                            (Demo.disk_on_wall (-1) (1 # 2)) 0%nat)
                       false eq_refl)
           Hrun 0%nat (Demo.disk_on_wall (-1) (1 # 2)) eq_refl).
Defined.

(** C1 (defect of the code).  The comments of [handleCollisionsSerial] say
    that the loop runs until [b[i] > -small_velocity] for every collision
    that is not a joint, and [hcs_focus] selects [b[j] < -small_velocity]
    only.  Without the last pass, a collision that approaches at exactly the
    tolerance [0.00001] is therefore not selected: the loop exits with
    [b[0] = -small_velocity], which is not above [-small_velocity], and the
    handler returns. *)
Lemma hcs_run_exit_not_strict :
  exists st,
    demo_hcs_run true 10 (demo_sim SERIAL_SEPARATE)
      [Demo.disk_on_wall (-1 # 100000) 1] false None (Some false) (Some false)
      None None
    = Some (st, None)
    /\ joint (Demo.disk_on_wall (-1 # 100000) 1) = false
    /\ ~ - st_small_velocity Demo.Random st < nth 0 (st_b Demo.Random st) 0
    /\ option_map (res_completion Demo.Random)
         (demo_handleCollisions true 10 (demo_sim SERIAL_SEPARATE)
            [Demo.disk_on_wall (-1 # 100000) 1] None)
       = Some (Return false).
Proof.
  eexists. split; [vm_compute; reflexivity|]. split; [reflexivity|].
  split; [vm_compute; discriminate|vm_compute; reflexivity].
Qed.

(** ** The loop counter *)

Local Notation demo_hcs_loop dbg :=
  (hcs_loop dbg Demo.Random Demo.randomInts Demo.compute_forces Demo.checkForceAccel
     Demo.subsetCollisions2).

Local Notation demo_hcs_init :=
  (hcs_init Demo.Random).

(** Witness of C8: a disk bounces off the wall in two passes, far below the
    ceiling, and no diagnostic line is written. *)
Lemma hcs_loop_ceiling_only_logs_witness :
  match demo_hcs_loop true 10 false false false true [false] [1]
          [Demo.disk_on_wall (-1) 1]
          (makeCollisionMatrix Demo.body [Demo.disk_on_wall (-1) 1]) 0
          (demo_hcs_init (demo_sim SERIAL_SEPARATE) [Demo.disk_on_wall (-1) 1]
             None None) with
  | Some (st', err) =>
      (0 < st_loopCtr Demo.Random st')%Z
      /\ count_LoopLimit (st_console Demo.Random st')
         = (0 + Z.to_nat (Z.max LOOP_LIMIT (st_loopCtr Demo.Random st')
                          - Z.max LOOP_LIMIT 0))%nat
  | None => False
  end.
Proof.
  destruct (demo_hcs_loop true 10 false false false true [false] [1]
              [Demo.disk_on_wall (-1) 1]
              (makeCollisionMatrix Demo.body [Demo.disk_on_wall (-1) 1]) 0
              (demo_hcs_init (demo_sim SERIAL_SEPARATE) [Demo.disk_on_wall (-1) 1]
                 None None)) as [[st' err]|] eqn:Hrun;
    [|vm_compute in Hrun; discriminate].
  exact (proj2 (hcs_loop_ceiling_only_logs true Demo.Random Demo.randomInts
                  Demo.compute_forces Demo.checkForceAccel Demo.subsetCollisions2
                  false false false true [false] [1] [Demo.disk_on_wall (-1) 1]
                  (makeCollisionMatrix Demo.body [Demo.disk_on_wall (-1) 1]) 0)
               10%nat _ st' err Hrun).
Defined.

(** ** Determinism *)

(** The same collision handled with 10 and with 20 passes allowed, with and
    without collision dots. *)
Lemma handleCollisions_agree_example :
  match demo_handleCollisions true 10 (demo_sim SERIAL_GROUPED_LASTPASS)
          [Demo.disk_on_wall (-1) 1] None,
        demo_handleCollisions true 20
          (mkSim Demo.Random Demo.vars0 0%N SERIAL_GROUPED_LASTPASS false 0 [])
          [Demo.disk_on_wall (-1) 1] None with
  | Some r1, Some r2 =>
      res_completion Demo.Random r1 = res_completion Demo.Random r2
      /\ res_collisions Demo.Random r1 = res_collisions Demo.Random r2
      /\ vars Demo.Random (res_sim Demo.Random r1)
         = vars Demo.Random (res_sim Demo.Random r2)
      /\ simRNG_ Demo.Random (res_sim Demo.Random r1)
         = simRNG_ Demo.Random (res_sim Demo.Random r2)
      /\ res_totals Demo.Random r1 = res_totals Demo.Random r2
      /\ res_console Demo.Random r1 = res_console Demo.Random r2
  | _, _ => False
  end.
Proof.
  destruct (demo_handleCollisions true 10 (demo_sim SERIAL_GROUPED_LASTPASS)
              [Demo.disk_on_wall (-1) 1] None) as [r1|] eqn:H1;
    [|vm_compute in H1; discriminate].
  destruct (demo_handleCollisions true 20
              (mkSim Demo.Random Demo.vars0 0%N SERIAL_GROUPED_LASTPASS false 0 [])
              [Demo.disk_on_wall (-1) 1] None) as [r2|] eqn:H2;
    [|vm_compute in H2; discriminate].
  exact (handleCollisions_agree Demo.body Demo.VX_ Demo.VY_ Demo.VW_ true
           Demo.Random Demo.randomInts Demo.compute_forces Demo.checkForceAccel
           Demo.subsetCollisions2 Demo.contact Demo.checkConsistent 10 20
           (demo_sim SERIAL_GROUPED_LASTPASS)
           (mkSim Demo.Random Demo.vars0 0%N SERIAL_GROUPED_LASTPASS false 0 [])
           [Demo.disk_on_wall (-1) 1] None r1 r2 eq_refl eq_refl eq_refl eq_refl
           H1 H2).
Defined.

(** ** A run of the serial loop beyond the ceiling

    The disk of [Demo.squeezed] is turned around by one wall, then by the
    other: every pass finds one collision to handle, until the tolerance,
    doubled every 100 passes, reaches the speed of the disk. *)

Local Notation sq := (Demo.squeezed Demo.speed).
Local Notation sq_joint := (map joint (Demo.squeezed Demo.speed)).
Local Notation sq_e := (hcs_elasticity false (Demo.squeezed Demo.speed)).
Local Notation sq_A := (makeCollisionMatrix Demo.body (Demo.squeezed Demo.speed)).
Local Notation sq_handle dbg :=
  (hcs_handle dbg Demo.Random Demo.compute_forces Demo.checkForceAccel
     Demo.subsetCollisions2 false false).
Local Notation sq_focus := (hcs_focus Demo.Random Demo.randomInts).
Local Notation sq_iteration dbg :=
  (hcs_iteration dbg Demo.Random Demo.randomInts Demo.compute_forces
     Demo.checkForceAccel Demo.subsetCollisions2 false false false true
     (map joint (Demo.squeezed Demo.speed))
     (hcs_elasticity false (Demo.squeezed Demo.speed))
     (Demo.squeezed Demo.speed)
     (makeCollisionMatrix Demo.body (Demo.squeezed Demo.speed)) 0).
Local Notation sq_loop dbg fuel :=
  (hcs_loop dbg Demo.Random Demo.randomInts Demo.compute_forces
     Demo.checkForceAccel Demo.subsetCollisions2 fuel false false false true
     (map joint (Demo.squeezed Demo.speed))
     (hcs_elasticity false (Demo.squeezed Demo.speed))
     (Demo.squeezed Demo.speed)
     (makeCollisionMatrix Demo.body (Demo.squeezed Demo.speed)) 0).

Lemma speed_pos : 0 < Demo.speed.
Proof. reflexivity. Qed.

Lemma turn_pos : 0 <= Demo.turn.
Proof. discriminate. Qed.

Lemma squeezed_handle_left goog_DEBUG j2 sv c lp dbg r tot con :
  sq_handle goog_DEBUG 0%Z sq_joint sq_e sq sq_A 0
    (mkHcs Demo.Random Demo.b_left j2 sv c lp dbg r tot con)
  = (mkHcs Demo.Random Demo.b_right
       (list_update j2 0 (nth 0 j2 0 + Demo.turn)) sv c lp dbg r tot con, None).
Proof. vm_compute. reflexivity. Qed.

Lemma squeezed_handle_right goog_DEBUG j2 sv c lp dbg r tot con :
  sq_handle goog_DEBUG 1%Z sq_joint sq_e sq sq_A 0
    (mkHcs Demo.Random Demo.b_right j2 sv c lp dbg r tot con)
  = (mkHcs Demo.Random Demo.b_left
       (list_update j2 1 (nth 1 j2 0 + Demo.turn)) sv c lp dbg r tot con, None).
Proof. vm_compute. reflexivity. Qed.

Lemma squeezed_large_left sv k :
  0 < sv -> sv < Demo.speed ->
  large sv sq_joint Demo.b_left k = Nat.eqb k 0.
Proof.
  intros Hpos Hlt. pose proof speed_pos as Hs.
  destruct k as [|[|[|[|[|k]]]]]; [| | | | |now destruct k].
  - change (Qlt_bool (- Demo.speed) (- sv) || false = true).
    rewrite orb_false_r. apply Qlt_bool_iff. lra.
  - change (Qlt_bool Demo.speed (- sv) || false = false).
    rewrite orb_false_r. apply Qlt_bool_false_iff. lra.
  - change (Qlt_bool 1 (- sv) || false = false).
    rewrite orb_false_r. apply Qlt_bool_false_iff. lra.
  - change (Qlt_bool 1 (- sv) || false = false).
    rewrite orb_false_r. apply Qlt_bool_false_iff. lra.
  - change (Qlt_bool 1 (- sv) || false = false).
    rewrite orb_false_r. apply Qlt_bool_false_iff. lra.
Qed.

Lemma squeezed_large_right sv k :
  0 < sv -> sv < Demo.speed ->
  large sv sq_joint Demo.b_right k = Nat.eqb k 1.
Proof.
  intros Hpos Hlt. pose proof speed_pos as Hs.
  destruct k as [|[|[|[|[|k]]]]]; [| | | | |now destruct k].
  - change (Qlt_bool Demo.speed (- sv) || false = false).
    rewrite orb_false_r. apply Qlt_bool_false_iff. lra.
  - change (Qlt_bool (- Demo.speed) (- sv) || false = true).
    rewrite orb_false_r. apply Qlt_bool_iff. lra.
  - change (Qlt_bool 1 (- sv) || false = false).
    rewrite orb_false_r. apply Qlt_bool_false_iff. lra.
  - change (Qlt_bool 1 (- sv) || false = false).
    rewrite orb_false_r. apply Qlt_bool_false_iff. lra.
  - change (Qlt_bool 1 (- sv) || false = false).
    rewrite orb_false_r. apply Qlt_bool_false_iff. lra.
Qed.

Lemma squeezed_large_none sv b k :
  Demo.speed <= sv -> b = Demo.b_left \/ b = Demo.b_right ->
  large sv sq_joint b k = false.
Proof.
  intros Hge Hb. pose proof speed_pos as Hs.
  destruct Hb as [-> | ->];
    (destruct k as [|[|[|[|[|k]]]]]; [| | | | |now destruct k]);
    match goal with
    | |- large _ _ ?b ?n = false =>
        change (Qlt_bool (nth n b 0) (- sv) || false = false)
    end;
    rewrite orb_false_r; apply Qlt_bool_false_iff; cbn [nth Demo.b_left Demo.b_right];
    lra.
Qed.

Lemma find_only {A : Type} (f : A -> bool) (l : list A) (x : A) :
  In x l -> f x = true -> (forall y, In y l -> f y = true -> y = x) ->
  find f l = Some x.
Proof.
  induction l as [|y l IH]; intros Hin Hx Hall; [destruct Hin|].
  cbn [find]. destruct (f y) eqn:Ey.
  - f_equal. apply Hall; [now left|exact Ey].
  - apply IH; [|exact Hx|intros z Hz; apply Hall; now right].
    destruct Hin as [->|Hin]; [congruence|exact Hin].
Qed.

Lemma find_none_all {A : Type} (f : A -> bool) (l : list A) :
  (forall y, f y = false) -> find f l = None.
Proof.
  intros Hall. induction l as [|y l IH]; [reflexivity|].
  cbn [find]. now rewrite Hall.
Qed.

Lemma squeezed_focus_left sv r :
  0 < sv -> sv < Demo.speed ->
  sq_focus sv sq_joint Demo.b_left r = (0%Z, N.succ r).
Proof.
  intros Hpos Hlt. unfold hcs_focus. change (length Demo.b_left) with 5%nat.
  pose proof (Demo_randomInts_all r 5 0 ltac:(lia)) as Hin.
  destruct (Demo.randomInts r 5) as [indices rng] eqn:E. cbn [fst] in Hin.
  unfold Demo.randomInts in E. injection E as _ <-.
  rewrite (find_only _ _ 0%nat Hin); [reflexivity| |].
  - now rewrite squeezed_large_left.
  - intros y _. rewrite squeezed_large_left by assumption.
    now intros ->%Nat.eqb_eq.
Qed.

Lemma squeezed_focus_right sv r :
  0 < sv -> sv < Demo.speed ->
  sq_focus sv sq_joint Demo.b_right r = (1%Z, N.succ r).
Proof.
  intros Hpos Hlt. unfold hcs_focus. change (length Demo.b_right) with 5%nat.
  pose proof (Demo_randomInts_all r 5 1 ltac:(lia)) as Hin.
  destruct (Demo.randomInts r 5) as [indices rng] eqn:E. cbn [fst] in Hin.
  unfold Demo.randomInts in E. injection E as _ <-.
  rewrite (find_only _ _ 1%nat Hin); [reflexivity| |].
  - now rewrite squeezed_large_right.
  - intros y _. rewrite squeezed_large_right by assumption.
    now intros ->%Nat.eqb_eq.
Qed.

Lemma squeezed_focus_none sv b r :
  Demo.speed <= sv -> b = Demo.b_left \/ b = Demo.b_right ->
  sq_focus sv sq_joint b r = ((-1)%Z, N.succ r).
Proof.
  intros Hge Hb. unfold hcs_focus.
  assert (length b = 5%nat) as -> by (destruct Hb as [-> | ->]; reflexivity).
  destruct (Demo.randomInts r 5) as [indices rng] eqn:E.
  unfold Demo.randomInts in E. injection E as _ <-.
  rewrite find_none_all; [reflexivity|].
  intros y. now apply squeezed_large_none.
Qed.

Lemma squeezed_iteration (goog_DEBUG : bool) (st : HcsState Demo.Random) :
  st_b Demo.Random st = Demo.b_left \/ st_b Demo.Random st = Demo.b_right ->
  0 < (if Z.ltb (st_loopPanic Demo.Random st) (st_loopCtr Demo.Random st + 1)
       then st_small_velocity Demo.Random st * 2
       else st_small_velocity Demo.Random st) ->
  (if Z.ltb (st_loopPanic Demo.Random st) (st_loopCtr Demo.Random st + 1)
   then st_small_velocity Demo.Random st * 2
   else st_small_velocity Demo.Random st) < Demo.speed ->
  exists f st',
    sq_iteration goog_DEBUG st = (st', Continue)
    /\ (st_b Demo.Random st' = Demo.b_left \/ st_b Demo.Random st' = Demo.b_right)
    /\ st_j2 Demo.Random st'
       = list_update (st_j2 Demo.Random st) f
           (nth f (st_j2 Demo.Random st) 0 + Demo.turn)
    /\ st_small_velocity Demo.Random st'
       = (if Z.ltb (st_loopPanic Demo.Random st) (st_loopCtr Demo.Random st + 1)
          then st_small_velocity Demo.Random st * 2
          else st_small_velocity Demo.Random st)
    /\ st_loopCtr Demo.Random st' = (st_loopCtr Demo.Random st + 1)%Z
    /\ st_loopPanic Demo.Random st'
       = (if Z.ltb (st_loopPanic Demo.Random st) (st_loopCtr Demo.Random st + 1)
          then st_loopPanic Demo.Random st + 100
          else st_loopPanic Demo.Random st)%Z
    /\ (goog_DEBUG = false ->
        st_console Demo.Random st' = st_console Demo.Random st).
Proof.
  destruct st as [b j2 sv c lp dbg r tot con].
  cbn [st_b st_j2 st_small_velocity st_loopCtr st_loopPanic st_console].
  intros Hb Hpos Hlt. unfold hcs_iteration. cbv zeta.
  cbn [st_b st_j2 st_small_velocity st_loopCtr st_loopPanic st_console st_rng
       st_debugHCS st_totals andb].
  change (20 * Z.of_nat (length sq))%Z with 100%Z.
  destruct Hb as [-> | ->].
  - rewrite (squeezed_focus_left _ r Hpos Hlt).
    change (Z.eqb 0 (-1) && negb false) with false. cbv iota.
    rewrite squeezed_handle_left.
    cbn [st_b st_j2 st_small_velocity st_loopCtr st_loopPanic st_console st_rng
         st_debugHCS st_totals].
    exists 0%nat. eexists. split; [reflexivity|].
    cbn [st_b st_j2 st_small_velocity st_loopCtr st_loopPanic st_console].
    split; [now right|]. do 4 (split; [reflexivity|]).
    intros ->. now rewrite andb_false_r.
  - rewrite (squeezed_focus_right _ r Hpos Hlt).
    change (Z.eqb 1 (-1) && negb false) with false. cbv iota.
    rewrite squeezed_handle_right.
    cbn [st_b st_j2 st_small_velocity st_loopCtr st_loopPanic st_console st_rng
         st_debugHCS st_totals].
    exists 1%nat. eexists. split; [reflexivity|].
    cbn [st_b st_j2 st_small_velocity st_loopCtr st_loopPanic st_console].
    split; [now left|]. do 4 (split; [reflexivity|]).
    intros ->. now rewrite andb_false_r.
Qed.

Lemma squeezed_iteration_last (goog_DEBUG : bool) (st : HcsState Demo.Random) :
  st_b Demo.Random st = Demo.b_left \/ st_b Demo.Random st = Demo.b_right ->
  Demo.speed <= (if Z.ltb (st_loopPanic Demo.Random st)
                         (st_loopCtr Demo.Random st + 1)
                 then st_small_velocity Demo.Random st * 2
                 else st_small_velocity Demo.Random st) ->
  exists st',
    sq_iteration goog_DEBUG st = (st', Break)
    /\ st_j2 Demo.Random st' = st_j2 Demo.Random st
    /\ st_loopCtr Demo.Random st' = (st_loopCtr Demo.Random st + 1)%Z
    /\ (goog_DEBUG = false ->
        st_console Demo.Random st' = st_console Demo.Random st).
Proof.
  destruct st as [b j2 sv c lp dbg r tot con].
  cbn [st_b st_j2 st_small_velocity st_loopCtr st_loopPanic st_console].
  intros Hb Hge. unfold hcs_iteration. cbv zeta.
  cbn [st_b st_j2 st_small_velocity st_loopCtr st_loopPanic st_console st_rng
       st_debugHCS st_totals andb].
  change (20 * Z.of_nat (length sq))%Z with 100%Z.
  rewrite (squeezed_focus_none _ b r Hge Hb).
  change (Z.eqb (-1) (-1) && negb false) with true. cbv iota.
  eexists. split; [reflexivity|].
  cbn [st_j2 st_loopCtr st_console]. do 2 (split; [reflexivity|]).
  intros ->. now rewrite andb_false_r.
Qed.

Lemma tolerance_pos k : (0 <= k)%Z -> 0 < Demo.tolerance k.
Proof.
  intros Hk. unfold Qlt, Demo.tolerance. cbn [Qnum Qden].
  rewrite Z.mul_1_r. change (0 * Z.pos 100000)%Z with 0%Z.
  now apply Z.pow_pos_nonneg.
Qed.

Lemma tolerance_double k :
  (0 <= k)%Z -> Demo.tolerance k * 2 == Demo.tolerance (k + 1).
Proof.
  intros Hk. unfold Qeq, Qmult, Demo.tolerance. cbn [Qnum Qden].
  rewrite Z.pow_add_r by lia.
  change (2 ^ 1)%Z with 2%Z. change (Z.pos (100000 * 1)) with (Z.pos 100000).
  ring.
Qed.

Lemma tolerance_below k : (0 <= k <= 1016)%Z -> Demo.tolerance k < Demo.speed.
Proof.
  intros Hk. unfold Qlt, Demo.tolerance, Demo.speed. cbn [Qnum Qden inject_Z].
  rewrite Z.mul_1_r.
  apply Z.le_lt_trans with (2 ^ 1016)%Z;
    [apply Z.pow_le_mono_r; lia|vm_compute; reflexivity].
Qed.

Lemma tolerance_above : Demo.speed <= Demo.tolerance 1017.
Proof. vm_compute. discriminate. Qed.

Lemma list_update_nonneg (l : list Q) (v : Q) :
  (forall i, 0 <= nth i l 0) -> 0 <= v ->
  forall f i, 0 <= nth i (list_update l f v) 0.
Proof.
  intros Hl Hv. induction l as [|a l IH]; intros f i.
  - destruct i; cbn; lra.
  - destruct f as [|f]; destruct i as [|i]; cbn [list_update nth].
    + exact Hv.
    + exact (Hl (S i)).
    + exact (Hl 0%nat).
    + apply IH. intros i'. exact (Hl (S i')).
Qed.

(** What the passes of this run maintain; [k] counts the doublings of the
    tolerance. *)
Local Notation sq_inv dbg st k :=
  ((st_b Demo.Random st = Demo.b_left \/ st_b Demo.Random st = Demo.b_right)
   /\ (0 <= k)%Z
   /\ st_small_velocity Demo.Random st == Demo.tolerance k%Z
   /\ st_loopPanic Demo.Random st = (100 * (k + 1))%Z
   /\ Z.le (st_loopCtr Demo.Random st) (100 * (k + 1))%Z
   /\ ((k = 0)%Z \/ Z.le (100 * k + 1)%Z (st_loopCtr Demo.Random st))
   /\ (dbg = false -> st_console Demo.Random st = [])
   /\ (forall i, 0 <= nth i (st_j2 Demo.Random st) 0)).

Lemma squeezed_loop (goog_DEBUG : bool) (m : nat) :
  forall (st : HcsState Demo.Random) (k : Z) (fuel : nat),
    sq_inv goog_DEBUG st k ->
    (st_loopCtr Demo.Random st + Z.of_nat m <= 101700)%Z ->
    exists st' k',
      sq_loop goog_DEBUG (m + fuel) st = sq_loop goog_DEBUG fuel st'
      /\ sq_inv goog_DEBUG st' k'
      /\ st_loopCtr Demo.Random st' = (st_loopCtr Demo.Random st + Z.of_nat m)%Z.
Proof.
  induction m as [|m IH]; intros st k fuel Hinv Hm.
  - exists st, k. split; [reflexivity|]. split; [exact Hinv|lia].
  - destruct Hinv as (Hb & Hk & Hsv & Hlp & Hc & Hk' & Hcon & Hj2).
    assert (Hstep : exists k1,
               (0 <= k1 <= 1016)%Z
               /\ (if Z.ltb (st_loopPanic Demo.Random st)
                            (st_loopCtr Demo.Random st + 1)
                   then st_small_velocity Demo.Random st * 2
                   else st_small_velocity Demo.Random st) == Demo.tolerance k1
               /\ (if Z.ltb (st_loopPanic Demo.Random st)
                            (st_loopCtr Demo.Random st + 1)
                   then st_loopPanic Demo.Random st + 100
                   else st_loopPanic Demo.Random st)%Z = (100 * (k1 + 1))%Z
               /\ (st_loopCtr Demo.Random st + 1 <= 100 * (k1 + 1))%Z
               /\ (k1 = 0%Z \/ (100 * k1 + 1 <= st_loopCtr Demo.Random st + 1)%Z)).
    { destruct (Z.ltb_spec (st_loopPanic Demo.Random st)
                           (st_loopCtr Demo.Random st + 1)) as [Hp|Hp].
      - exists (k + 1)%Z. rewrite Hsv. split; [lia|].
        split; [now apply tolerance_double|]. lia.
      - exists k. split; [lia|]. split; [exact Hsv|]. lia. }
    destruct Hstep as (k1 & Hk1 & Hsv1 & Hlp1 & Hc1 & Hk1').
    destruct (squeezed_iteration goog_DEBUG st Hb) as
      (f & st1 & Hit & Hb1 & Ej2 & Esv & Ec & Elp & Econ).
    + rewrite Hsv1. apply tolerance_pos. lia.
    + rewrite Hsv1. now apply tolerance_below.
    + destruct (IH st1 k1 fuel) as (st' & k' & Hloop & Hinv' & Hc').
      * split; [exact Hb1|]. split; [lia|]. rewrite Esv, Ec, Elp.
        split; [exact Hsv1|]. split; [exact Hlp1|]. split; [exact Hc1|].
        split; [exact Hk1'|]. split.
        -- intros Hd. rewrite (Econ Hd). now apply Hcon.
        -- rewrite Ej2. apply list_update_nonneg; [exact Hj2|].
           pose proof (Hj2 f). pose proof turn_pos. lra.
      * lia.
      * exists st', k'. split; [|split; [exact Hinv'|lia]].
        cbn [Nat.add hcs_loop]. rewrite Hit. exact Hloop.
Qed.

(** The loop on the squeezed disk exits after 101701 passes, without
    error. *)
Lemma squeezed_run (goog_DEBUG : bool) :
  exists st,
    demo_hcs_run goog_DEBUG (Z.to_nat 101701) (demo_sim SERIAL_SEPARATE)
      (Demo.squeezed Demo.speed) false None (Some false) (Some false) None None
    = Some (st, None)
    /\ st_loopCtr Demo.Random st = 101701%Z
    /\ (goog_DEBUG = false -> st_console Demo.Random st = [])
    /\ (forall i, 0 <= nth i (st_j2 Demo.Random st) 0).
Proof.
  unfold hcs_run.
  change (default_true (Some false)) with false.
  change (default_true None) with true.
  change (time Demo.Random (demo_sim SERIAL_SEPARATE)) with 0.
  replace (Z.to_nat 101701) with (Z.to_nat 101700 + 1)%nat by lia.
  destruct (squeezed_loop goog_DEBUG (Z.to_nat 101700)
              (demo_hcs_init (demo_sim SERIAL_SEPARATE) (Demo.squeezed Demo.speed)
                 None None) 0%Z 1%nat)
    as (st1 & k1 & Hloop & Hinv & Hc).
  - split; [now left|]. split; [lia|]. split; [reflexivity|].
    split; [reflexivity|]. split; [cbn [hcs_init st_loopCtr]; lia|].
    split; [now left|]. split; [reflexivity|].
    intros i. cbn [hcs_init st_j2]. unfold zeros. rewrite nth_repeat. lra.
  - cbn [hcs_init st_loopCtr]. lia.
  - rewrite Hloop. cbn [hcs_init st_loopCtr] in Hc.
    destruct Hinv as (Hb & Hk & Hsv & Hlp & Hc1 & Hk' & Hcon & Hj2).
    assert (k1 = 1016%Z) as -> by lia.
    destruct (squeezed_iteration_last goog_DEBUG st1 Hb)
      as (st2 & Hit & Ej2 & Ec & Econ).
    + destruct (Z.ltb_spec (st_loopPanic Demo.Random st1)
                           (st_loopCtr Demo.Random st1 + 1)) as [Hp|Hp]; [|lia].
      rewrite Hsv, (tolerance_double 1016) by lia. exact tolerance_above.
    + exists st2. cbn [hcs_loop]. rewrite Hit. split; [reflexivity|].
      split; [lia|]. split.
      * intros Hd. rewrite (Econ Hd). now apply Hcon.
      * now rewrite Ej2.
Qed.

(** Counterexample to C8 as stated: on the squeezed disk the serial handler
    makes 101701 passes, above the ceiling of 100000, and returns; compiled
    without [goog.DEBUG] it writes nothing to the console. *)
Lemma serial_handler_passes_ceiling :
  (exists st r,
      demo_hcs_run true (Z.to_nat 101701) (demo_sim SERIAL_SEPARATE)
        (Demo.squeezed Demo.speed) false None (Some false) (Some false) None None
      = Some (st, None)
      /\ (LOOP_LIMIT < st_loopCtr Demo.Random st)%Z
      /\ demo_handleCollisions true (Z.to_nat 101701) (demo_sim SERIAL_SEPARATE)
           (Demo.squeezed Demo.speed) None = Some r
      /\ exists v, res_completion Demo.Random r = Return v)
  /\ (exists st r,
         demo_hcs_run false (Z.to_nat 101701) (demo_sim SERIAL_SEPARATE)
           (Demo.squeezed Demo.speed) false None (Some false) (Some false)
           None None
         = Some (st, None)
         /\ (LOOP_LIMIT < st_loopCtr Demo.Random st)%Z
         /\ demo_handleCollisions false (Z.to_nat 101701)
              (demo_sim SERIAL_SEPARATE) (Demo.squeezed Demo.speed) None = Some r
         /\ res_console Demo.Random r = []
         /\ exists v, res_completion Demo.Random r = Return v).
Proof.
  assert (Hcall : forall dbg st,
             demo_hcs_run dbg (Z.to_nat 101701) (demo_sim SERIAL_SEPARATE)
               (Demo.squeezed Demo.speed) false None (Some false) (Some false)
               None None = Some (st, None) ->
             (forall i, 0 <= nth i (st_j2 Demo.Random st) 0) ->
             exists r,
               demo_handleCollisions dbg (Z.to_nat 101701)
                 (demo_sim SERIAL_SEPARATE) (Demo.squeezed Demo.speed) None
               = Some r
               /\ res_console Demo.Random r = st_console Demo.Random st
               /\ exists v, res_completion Demo.Random r = Return v).
  { intros dbg st Hrun Hj2. unfold handleCollisions.
    change (Nat.eqb (length (Demo.squeezed Demo.speed)) 0) with false. cbv iota.
    change (negb (forallb Demo.checkConsistent (Demo.squeezed Demo.speed)))
      with false.
    rewrite andb_false_r.
    change (collisionHandling_ Demo.Random (demo_sim SERIAL_SEPARATE))
      with SERIAL_SEPARATE. cbv iota.
    unfold handleCollisionsSerial. rewrite Hrun.
    destruct (applyImpulses_no_throw Demo.body Demo.VX_ Demo.VY_ Demo.VW_
                Demo.Random (Demo.squeezed Demo.speed) (st_j2 Demo.Random st) Hj2
                (set_simRNG Demo.Random (demo_sim SERIAL_SEPARATE)
                   (st_rng Demo.Random st)) 0%nat false)
      as (s' & cs' & v & E).
    rewrite E. eexists. split; [reflexivity|]. split; [reflexivity|].
    now exists v. }
  split.
  - destruct (squeezed_run true) as (st & Hrun & Hc & _ & Hj2).
    destruct (Hcall true st Hrun Hj2) as (r & Hr & _ & Hv).
    exists st, r. split; [exact Hrun|]. split; [rewrite Hc; reflexivity|].
    split; [exact Hr|exact Hv].
  - destruct (squeezed_run false) as (st & Hrun & Hc & Hcon & Hj2).
    destruct (Hcall false st Hrun Hj2) as (r & Hr & Hcon' & Hv).
    exists st, r. split; [exact Hrun|]. split; [rewrite Hc; reflexivity|].
    split; [exact Hr|]. split; [|exact Hv].
    rewrite Hcon'. exact (Hcon eq_refl).
Qed.

(** * The further properties on explicit scenes *)

Local Notation demo_moving h :=
  (mkSim Demo.Random (Demo.moving (-1)) 0%N h true 0 []).

Local Notation demo_calcNormalVelocity :=
  (calcNormalVelocity Demo.body Demo.VX_ Demo.VY_ Demo.VW_).

Local Notation demo_handleCollisionsSimultaneous dbg :=
  (handleCollisionsSimultaneous Demo.body Demo.VX_ Demo.VY_ Demo.VW_ dbg Demo.Random
     Demo.compute_forces Demo.checkForceAccel Demo.contact).

Local Notation demo_hcs_handle dbg :=
  (hcs_handle dbg Demo.Random Demo.compute_forces Demo.checkForceAccel
     Demo.subsetCollisions2).

Local Notation wall_hit := (Demo.disk_on_wall (-1) (1 # 2)).

(** Disk 1 hits the wall at speed 5 with elasticity 1/2, and disk 2 hits it
    at speed 4: scenes on which the arithmetic of the code is exact in
    binary. *)
Local Notation wall_bounce := (Demo.disk_on_wall (-5) (1 # 2)).

Local Notation second_bounce := (Demo.second_on_wall (-4) (1 # 2)).

Local Notation demo_bouncing h :=
  (mkSim Demo.Random (Demo.moving (-5)) 0%N h true 0 []).

Local Notation demo_two_bouncing h :=
  (mkSim Demo.Random (Demo.moving2 (-5) (-4)) 0%N h true 0 []).

Local Notation rows_handleCollisionsSimultaneous dbg :=
  (handleCollisionsSimultaneous Demo.body Demo.VX_ Demo.VY_ Demo.VW_ dbg Demo.Random
     Demo.solve_rows Demo.checkForceAccel Demo.contact).

(** ** The layout of the variables *)

Lemma Demo_varsIndex (p : BodyRef) :
  getVarsIndex (Demo.body p) = (4 + 6 * Z.of_nat p)%Z.
Proof. destruct p as [|[|[|p]]]; reflexivity. Qed.

Lemma Demo_separate_variables :
  separate_variables Demo.body Demo.VX_ Demo.VY_ Demo.VW_.
Proof.
  unfold separate_variables, velocity_index, Demo.VX_, Demo.VY_, Demo.VW_.
  split; [discriminate|]. split; [discriminate|]. split; [discriminate|].
  intros p q idx Hpq. rewrite !Demo_varsIndex. lia.
Qed.

Lemma Demo_bodies_in_vars (c : RigidBodyCollision) : bodies_in_vars Demo.body c.
Proof. intros bod _ _. rewrite Demo_varsIndex. lia. Qed.

(** ** The largest velocity and the focus *)

(** Witness of X1: a collision approaching at 3 and a joint moving at 2. *)
Lemma largestVelocity_bounds_witness :
  small_at (largestVelocity [false; true] [-3; 2]) [false; true] [-3; 2] 0.
Proof.
  apply (proj1 (proj2 (largestVelocity_bounds [false; true] [-3; 2]))).
  cbn [length]. lia.
Defined.

(** Witness of X3: at tolerance 3 nothing is large. *)
Lemma hcs_focus_none_iff_largestVelocity_witness :
  fst (hcs_focus Demo.Random Demo.randomInts 3 [false; true] [-3; 2] 0%N) = (-1)%Z
  <-> largestVelocity [false; true] [-3; 2] <= 3.
Proof.
  apply (hcs_focus_none_iff_largestVelocity Demo.Random Demo.randomInts 3
           [false; true] [-3; 2] 0%N Demo_randomInts_all).
  discriminate.
Defined.

(** Witness of X4: the example in the comment of [hcs_handle],
    [set = (F, T, F, F, T, T, F, T)], at subset index 3 and at element 4. *)
Lemma hcs_idx_round_trip_witness :
  nth (nth 3 (hcs_idx2 [false; true; false; false; true; true; false; true]) 0%nat)
    (hcs_idx [false; true; false; false; true; true; false; true] 0) (-1)%Z
  = 3%Z.
Proof.
  apply (proj1 (hcs_idx_round_trip
                  [false; true; false; false; true; true; false; true]) 3%nat).
  cbn. lia.
Defined.

(** ** What an impulse does to the velocities *)

(** Witness of X5: a unit impulse between the two disks, seen on disk 2. *)
Lemma applyImpulse_velocity_change_witness :
  match demo_applyImpulse (demo_sim SIMULTANEOUS) (Demo.disk_on_disk (-1) 1 false) 1
  with
  | (s', Return cd') =>
      getValue (vars Demo.Random s') (Demo.VY_ + getVarsIndex (Demo.body 2%nat))
      == getValue Demo.vars0 (Demo.VY_ + getVarsIndex (Demo.body 2%nat))
         + snd (fst (velocity_change Demo.body (Demo.disk_on_disk (-1) 1 false)
                       (impulse cd') 2%nat))
  | (_, Throw _) => False
  end.
Proof.
  destruct (demo_applyImpulse (demo_sim SIMULTANEOUS)
              (Demo.disk_on_disk (-1) 1 false) 1) as [s' [cd'|e]] eqn:E;
    [|vm_compute in E; discriminate].
  exact (proj1 (proj2 (applyImpulse_velocity_change Demo.body Demo.VX_ Demo.VY_
                         Demo.VW_ Demo.Random _ _ _ s' cd' 2%nat
                         Demo_separate_variables (Demo_bodies_in_vars _) E))).
Defined.

(** Witness of X6: the same impulse; both disks have mass 1. *)
Lemma applyImpulse_conserves_momentum_witness :
  match demo_applyImpulse (demo_sim SIMULTANEOUS) (Demo.disk_on_disk (-1) 1 false) 1
  with
  | (s', Return cd') =>
      1 * getValue (vars Demo.Random s') (Demo.VY_ + getVarsIndex (Demo.body 2%nat))
      + 1 * getValue (vars Demo.Random s') (Demo.VY_ + getVarsIndex (Demo.body 1%nat))
      == 1 * getValue Demo.vars0 (Demo.VY_ + getVarsIndex (Demo.body 2%nat))
         + 1 * getValue Demo.vars0 (Demo.VY_ + getVarsIndex (Demo.body 1%nat))
  | (_, Throw _) => False
  end.
Proof.
  destruct (demo_applyImpulse (demo_sim SIMULTANEOUS)
              (Demo.disk_on_disk (-1) 1 false) 1) as [s' [cd'|e]] eqn:E;
    [|vm_compute in E; discriminate].
  refine (proj2 (applyImpulse_conserves_momentum Demo.body Demo.VX_ Demo.VY_
                   Demo.VW_ Demo.Random (demo_sim SIMULTANEOUS)
                   (Demo.disk_on_disk (-1) 1 false) 1 s' cd' 1 1
                   Demo_separate_variables (Demo_bodies_in_vars _) _ eq_refl _
                   eq_refl _ E)); discriminate.
Defined.

(** Witness of X7: the impulse between the disks changes the velocity at
    the contact of disk 1 with the wall by the entry (0, 1). *)
Lemma applyImpulse_changes_by_matrix_entry_witness :
  match demo_applyImpulse (demo_sim SIMULTANEOUS) (Demo.disk_on_disk (-1) 1 false) 1
  with
  | (s', Return ck') =>
      demo_calcNormalVelocity (vars Demo.Random s') (Demo.disk_on_wall (-1) 1)
      == demo_calcNormalVelocity Demo.vars0 (Demo.disk_on_wall (-1) 1)
         + impulse ck'
           * entry (makeCollisionMatrix Demo.body
                      [Demo.disk_on_wall (-1) 1; Demo.disk_on_disk (-1) 1 false]) 0 1
  | (_, Throw _) => False
  end.
Proof.
  destruct (demo_applyImpulse (demo_sim SIMULTANEOUS)
              (Demo.disk_on_disk (-1) 1 false) 1) as [s' [ck'|e]] eqn:E;
    [|vm_compute in E; discriminate].
  refine (applyImpulse_changes_by_matrix_entry Demo.body Demo.VX_ Demo.VY_ Demo.VW_
            Demo.Random
            [Demo.disk_on_wall (-1) 1; Demo.disk_on_disk (-1) 1 false] 0 1
            (Demo.disk_on_wall (-1) 1) (Demo.disk_on_disk (-1) 1 false)
            (demo_sim SIMULTANEOUS) 1 s' ck' Demo_separate_variables (Demo_bodies_in_vars _) _ _
            eq_refl eq_refl E); discriminate.
Defined.

(** ** What the handlers leave behind *)

(** Witness of X8: a disk bounces off the wall. *)
Lemma handleCollisions_only_sets_impulse_witness :
  match demo_handleCollisions true 10 (demo_sim SERIAL_GROUPED)
          [Demo.disk_on_wall (-1) 1] None with
  | Some r =>
      Forall2 (fun c c' => c' = set_impulse c (impulse c'))
        [Demo.disk_on_wall (-1) 1] (res_collisions Demo.Random r)
  | None => False
  end.
Proof.
  destruct (demo_handleCollisions true 10 (demo_sim SERIAL_GROUPED)
              [Demo.disk_on_wall (-1) 1] None) as [r|] eqn:Hr;
    [|vm_compute in Hr; discriminate].
  exact (handleCollisions_only_sets_impulse Demo.body Demo.VX_ Demo.VY_ Demo.VW_
           true Demo.Random Demo.randomInts Demo.compute_forces Demo.checkForceAccel
           Demo.subsetCollisions2 Demo.contact Demo.checkConsistent 10
           (demo_sim SERIAL_GROUPED) [Demo.disk_on_wall (-1) 1] None r Hr).
Defined.

(** Witness of X9: the disk bounces off the wall under the hybrid
    strategy. *)
Lemma handleCollisions_normal_velocity_change_witness :
  match demo_handleCollisions true 10 (demo_bouncing HYBRID) [wall_bounce] None with
  | Some r =>
      demo_calcNormalVelocity (vars Demo.Random (res_sim Demo.Random r)) wall_bounce
      == demo_calcNormalVelocity (Demo.moving (-5)) wall_bounce
         + nth 0 (matrixMultiply (makeCollisionMatrix Demo.body [wall_bounce])
                    (map impulse (res_collisions Demo.Random r))) 0
  | None => False
  end.
Proof.
  destruct (demo_handleCollisions true 10 (demo_bouncing HYBRID) [wall_bounce] None)
    as [r|] eqn:Hr; [|vm_compute in Hr; discriminate].
  refine (handleCollisions_normal_velocity_change Demo.body Demo.VX_ Demo.VY_
            Demo.VW_ true Demo.Random Demo.randomInts Demo.compute_forces
            Demo.checkForceAccel Demo.subsetCollisions2 Demo.contact
            Demo.checkConsistent 10 (demo_bouncing HYBRID) [wall_bounce] None r true
            0 wall_bounce Demo_separate_variables _ Hr _ eq_refl).
  - intros c [<-|[]]. split; [apply Demo_bodies_in_vars|discriminate].
  - vm_compute in Hr. injection Hr as <-. reflexivity.
Defined.

(** Witness of X10: two disks hit the wall, at speeds 5 and 4 with
    elasticity 1/2; the solver of independent rows solves the system of two
    rows, and disk 2 leaves the wall at speed 2. *)
Lemma handleCollisionsSimultaneous_collision_law_witness :
  - ((1 # 2) * -4)
  <= demo_calcNormalVelocity
       (vars Demo.Random
          (res_sim Demo.Random
             (rows_handleCollisionsSimultaneous true (demo_two_bouncing SIMULTANEOUS)
                [wall_bounce; second_bounce] None)))
       second_bounce
  /\ 0 <= impulse
            (nth 1 (res_collisions Demo.Random
                      (rows_handleCollisionsSimultaneous true
                         (demo_two_bouncing SIMULTANEOUS)
                         [wall_bounce; second_bounce] None)) second_bounce)
  /\ impulse
       (nth 1 (res_collisions Demo.Random
                 (rows_handleCollisionsSimultaneous true
                    (demo_two_bouncing SIMULTANEOUS)
                    [wall_bounce; second_bounce] None)) second_bounce)
     * (demo_calcNormalVelocity
          (vars Demo.Random
             (res_sim Demo.Random
                (rows_handleCollisionsSimultaneous true
                   (demo_two_bouncing SIMULTANEOUS)
                   [wall_bounce; second_bounce] None)))
          second_bounce
        - - ((1 # 2) * -4))
     == 0.
Proof.
  refine (handleCollisionsSimultaneous_collision_law Demo.body Demo.VX_ Demo.VY_
            Demo.VW_ true Demo.Random Demo.solve_rows Demo.checkForceAccel
            Demo.contact (demo_two_bouncing SIMULTANEOUS)
            [wall_bounce; second_bounce] None true 1 second_bounce
            Demo_separate_variables _ _ _ _ eq_refl).
  - intros c [<-|[<-|[]]]; (split; [apply Demo_bodies_in_vars|discriminate]).
  - split; [reflexivity|].
    intros [|[|i]] Hi; [| |cbn in Hi; lia]; vm_compute;
      (split; [discriminate|split; [discriminate|reflexivity]]).
  - intros c [<-|[<-|[]]]; vm_compute; reflexivity.
  - vm_compute. reflexivity.
Defined.

(** Witness of X11: the bounce returns true, and the impulse recorded on the
    collision is above [TINY_IMPULSE]. *)
Lemma handleCollisions_returns_true_iff_witness :
  match demo_handleCollisions true 10 (demo_sim SIMULTANEOUS)
          [Demo.disk_on_wall (-1) 1] None with
  | Some r =>
      true = true
      <-> exists c', In c' (res_collisions Demo.Random r) /\ TINY_IMPULSE < impulse c'
  | None => False
  end.
Proof.
  destruct (demo_handleCollisions true 10 (demo_sim SIMULTANEOUS)
              [Demo.disk_on_wall (-1) 1] None) as [r|] eqn:Hr;
    [|vm_compute in Hr; discriminate].
  apply (handleCollisions_returns_true_iff Demo.body Demo.VX_ Demo.VY_ Demo.VW_
           true Demo.Random Demo.randomInts Demo.compute_forces Demo.checkForceAccel
           Demo.subsetCollisions2 Demo.contact Demo.checkConsistent 10
           (demo_sim SIMULTANEOUS) [Demo.disk_on_wall (-1) 1] None r true Hr).
  vm_compute in Hr. injection Hr as <-. reflexivity.
Defined.

(** ** Bodies of infinite mass stay at rest *)

(** Witness of X12: the check on the wall and the disk, before and after the
    bounce. *)
Lemma handleCollisions_keeps_infinite_mass_at_rest_witness :
  match demo_handleCollisions true 10 (demo_moving SERIAL_SEPARATE_LASTPASS)
          [wall_hit] None with
  | Some r =>
      checkInfiniteMassVelocity Demo.body Demo.VX_ Demo.VY_ Demo.VW_ true
        [0%nat; 1%nat] (getValue (vars Demo.Random (res_sim Demo.Random r)))
      = checkInfiniteMassVelocity Demo.body Demo.VX_ Demo.VY_ Demo.VW_ true
          [0%nat; 1%nat] (getValue (Demo.moving (-1)))
  | None => False
  end.
Proof.
  destruct (demo_handleCollisions true 10 (demo_moving SERIAL_SEPARATE_LASTPASS)
              [wall_hit] None) as [r|] eqn:Hr; [|vm_compute in Hr; discriminate].
  exact (handleCollisions_keeps_infinite_mass_at_rest Demo.body Demo.VX_ Demo.VY_
           Demo.VW_ true Demo.Random Demo.randomInts Demo.compute_forces
           Demo.checkForceAccel Demo.subsetCollisions2 Demo.contact
           Demo.checkConsistent 10 (demo_moving SERIAL_SEPARATE_LASTPASS) [wall_hit]
           None r [0%nat; 1%nat] Demo_separate_variables Hr).
Defined.

(** Witness of X13: the wall is at rest, so the check passes although the
    disk moves. *)
Lemma checkInfiniteMassVelocity_passes_iff_witness :
  checkInfiniteMassVelocity Demo.body Demo.VX_ Demo.VY_ Demo.VW_ true
    [0%nat; 1%nat] (getValue (Demo.moving (-1))) = None.
Proof.
  apply (proj2 (checkInfiniteMassVelocity_passes_iff Demo.body Demo.VX_ Demo.VY_
                  Demo.VW_ true [0%nat; 1%nat] (getValue (Demo.moving (-1))))).
  intros B [<-|[<-|[]]]; (split; [intros _; rewrite Demo_varsIndex; lia|]).
  - intros _. now split; [|split].
  - discriminate.
Defined.

(** ** The serial loop *)

(** Witness of X14: the disk hits the wall, handled one collision at a
    time. *)
Lemma hcs_run_velocities_follow_impulses_witness :
  match demo_hcs_run true 10 (demo_bouncing SERIAL_SEPARATE) [wall_bounce] false None
          (Some false) (Some false) None None with
  | Some (st, _) =>
      nth 0 (st_b Demo.Random st) 0
      == normalVelocity wall_bounce
         + nth 0 (matrixMultiply (makeCollisionMatrix Demo.body [wall_bounce])
                    (st_j2 Demo.Random st)) 0
  | None => False
  end.
Proof.
  destruct (demo_hcs_run true 10 (demo_bouncing SERIAL_SEPARATE) [wall_bounce] false
              None (Some false) (Some false) None None) as [[st err]|] eqn:Hr;
    [|vm_compute in Hr; discriminate].
  exact (proj2 (proj2 (hcs_run_velocities_follow_impulses Demo.body true Demo.Random
                         Demo.randomInts Demo.compute_forces Demo.checkForceAccel
                         Demo.subsetCollisions2 10 (demo_bouncing SERIAL_SEPARATE)
                         [wall_bounce] false None (Some false) (Some false) None None
                         st err Hr)) 0%nat wall_bounce eq_refl).
Defined.

(** Witness of X15: after the serial handler the disk leaves the wall at the
    velocity that the loop ended with. *)
Lemma handleCollisionsSerial_final_velocities_witness :
  match demo_hcs_run true 10 (demo_bouncing SERIAL_SEPARATE) [wall_bounce] false None
          (Some false) (Some false) None None with
  | Some (st, None) =>
      exists r,
        demo_handleCollisionsSerial true 10 (demo_bouncing SERIAL_SEPARATE)
          [wall_bounce] false None (Some false) (Some false) None None = Some r
        /\ demo_calcNormalVelocity (vars Demo.Random (res_sim Demo.Random r))
             wall_bounce
           == nth 0 (st_b Demo.Random st) 0
  | _ => False
  end.
Proof.
  destruct (demo_hcs_run true 10 (demo_bouncing SERIAL_SEPARATE) [wall_bounce] false
              None (Some false) (Some false) None None) as [[st [err|]]|] eqn:Hr;
    [vm_compute in Hr; discriminate| |vm_compute in Hr; discriminate].
  assert (Hj2 : forall i c, nth_error [wall_bounce] i = Some c -> joint c = false ->
                  0 <= nth i (st_j2 Demo.Random st) 0).
  { pose proof Hr as Hst. vm_compute in Hst. injection Hst as <-.
    intros [|[|i]] c; cbn [nth_error nth st_j2]; discriminate. }
  destruct (handleCollisionsSerial_final_velocities Demo.body Demo.VX_ Demo.VY_
              Demo.VW_ true Demo.Random Demo.randomInts Demo.compute_forces
              Demo.checkForceAccel Demo.subsetCollisions2 10
              (demo_bouncing SERIAL_SEPARATE) [wall_bounce] false None (Some false)
              (Some false) None None st Demo_separate_variables)
    as (r & impulse_ & H1 & _ & H3); [| |exact Hr|exact Hj2|].
  - intros c [<-|[]]. split; [apply Demo_bodies_in_vars|discriminate].
  - intros c [<-|[]]. vm_compute. reflexivity.
  - exists r. split; [exact H1|]. exact (proj2 (H3 0%nat wall_bounce eq_refl)).
Defined.

(** Witness of X16: one collision, so the tolerance doubles every 20
    passes. *)
Lemma hcs_run_tolerance_schedule_witness :
  match demo_hcs_run true 10 (demo_moving SERIAL_SEPARATE) [wall_hit] false None
          (Some false) (Some false) None None with
  | Some (st, _) =>
      exists k : Z,
        (0 <= k)%Z
        /\ (20 * 1 * k < st_loopCtr Demo.Random st)%Z
        /\ (st_loopCtr Demo.Random st <= 20 * 1 * (k + 1))%Z
        /\ st_small_velocity Demo.Random st == (1 # 100000) * inject_Z (2 ^ k)
  | None => False
  end.
Proof.
  destruct (demo_hcs_run true 10 (demo_moving SERIAL_SEPARATE) [wall_hit] false None
              (Some false) (Some false) None None) as [[st err]|] eqn:Hr;
    [|vm_compute in Hr; discriminate].
  refine (hcs_run_tolerance_schedule Demo.body true Demo.Random Demo.randomInts
            Demo.compute_forces Demo.checkForceAccel Demo.subsetCollisions2 10
            (demo_moving SERIAL_SEPARATE) [wall_hit] false None (Some false)
            (Some false) None None st err _ Hr).
  discriminate.
Defined.

(** Witness of X17: two passes without a last pass, one solver call. *)
Lemma handleCollisionsSerial_totals_witness :
  match demo_handleCollisionsSerial true 10 (demo_moving SERIAL_SEPARATE) [wall_hit]
          false (Some 5%nat) (Some false) (Some false) None None with
  | Some r =>
      exists st,
        demo_hcs_run true 10 (demo_moving SERIAL_SEPARATE) [wall_hit] false
          (Some 5%nat) (Some false) (Some false) None None = Some (st, None)
        /\ (1 <= st_loopCtr Demo.Random st)%Z
        /\ res_totals Demo.Random r
           = addImpulses (Some 5%nat) (Z.to_nat (st_loopCtr Demo.Random st - 1))
  | None => False
  end.
Proof.
  destruct (demo_handleCollisionsSerial true 10 (demo_moving SERIAL_SEPARATE)
              [wall_hit] false (Some 5%nat) (Some false) (Some false) None None)
    as [r|] eqn:Hr; [|vm_compute in Hr; discriminate].
  apply (handleCollisionsSerial_totals Demo.body Demo.VX_ Demo.VY_ Demo.VW_ true
           Demo.Random Demo.randomInts Demo.compute_forces Demo.checkForceAccel
           Demo.subsetCollisions2 10 (demo_moving SERIAL_SEPARATE) [wall_hit] false
           (Some 5%nat) (Some false) (Some false) None None r true Hr).
  vm_compute in Hr. injection Hr as <-. reflexivity.
Defined.

(** Witness of X20: the first pass on the disk that hits the wall at speed
    5; it leaves at speed 5/2. *)
Lemma hcs_handle_focus_collision_law_witness :
  match demo_hcs_handle true false false 0%Z [false] [1 # 2] [wall_bounce]
          (makeCollisionMatrix Demo.body [wall_bounce]) 0
          (hcs_init Demo.Random (demo_bouncing SERIAL_SEPARATE) [wall_bounce] None
             None)
  with
  | (st', None) =>
      - ((1 # 2) * -5) <= nth 0 (st_b Demo.Random st') 0
      /\ 0 <= nth 0 (st_j2 Demo.Random st') 0 - 0
  | (_, Some _) => False
  end.
Proof.
  destruct (demo_hcs_handle true false false 0%Z [false] [1 # 2] [wall_bounce]
              (makeCollisionMatrix Demo.body [wall_bounce]) 0
              (hcs_init Demo.Random (demo_bouncing SERIAL_SEPARATE) [wall_bounce] None
                 None)) as [st' [err|]] eqn:Hh;
    [vm_compute in Hh; discriminate|].
  assert (Hsol : lcp_solution
                   [[entry (makeCollisionMatrix Demo.body [wall_bounce]) 0 0]]
                   [-5 * (1 + (1 # 2))] [false]
                   (fst (fst (Demo.compute_forces
                                [[entry (makeCollisionMatrix Demo.body [wall_bounce])
                                    0 0]]
                                [0] [-5 * (1 + (1 # 2))] [false] false 0 0%N)))).
  { split; [reflexivity|].
    intros [|i] Hi; [|cbn in Hi; lia]. vm_compute.
    split; [discriminate|split; [discriminate|reflexivity]]. }
  pose proof (hcs_handle_focus_collision_law true Demo.Random Demo.compute_forces
                Demo.checkForceAccel Demo.subsetCollisions2 0%nat [false] [1 # 2]
                [wall_bounce] (makeCollisionMatrix Demo.body [wall_bounce]) 0
                (hcs_init Demo.Random (demo_bouncing SERIAL_SEPARATE) [wall_bounce]
                   None None) st' (Nat.lt_0_succ 0) eq_refl Hsol Hh)
    as (_ & _ & H1 & H2 & _).
  split; [exact H1|exact H2].
Defined.

(** ** The entries of the collision matrix *)

(** Witness of X18: the contact of the disk with the wall; the disks have
    mass 1 and moment 1. *)
Lemma makeCollisionMatrix_diagonal_witness :
  0 <= entry (makeCollisionMatrix Demo.body [wall_hit]) 0 0.
Proof.
  apply (makeCollisionMatrix_diagonal Demo.body [wall_hit] 0 wall_hit eq_refl
           ltac:(discriminate)).
  - intros [|[|[|bod]]] q; cbn; intros [= <-]; reflexivity.
  - intros [|[|[|bod]]] q; cbn; intros [= <-]; reflexivity.
Defined.

(** Witness of X19: disk 1 on the wall and disk 2 on the same wall share no
    body of finite mass. *)
Lemma makeCollisionMatrix_unrelated_witness :
  entry (makeCollisionMatrix Demo.body [wall_hit; Demo.leaving 2]) 0 1 == 0.
Proof.
  apply (makeCollisionMatrix_unrelated Demo.body [wall_hit; Demo.leaving 2] 0 1
           wall_hit (Demo.leaving 2) eq_refl eq_refl).
  intros [|[|[|bod]]]; cbn; try discriminate; reflexivity.
Defined.

(** ** Errors, idle passes and discontinuities *)


(** Witness of X22: a disk that is leaving the wall. *)
Lemma handleCollisionsSerial_nothing_large_witness :
  demo_handleCollisionsSerial true 1 (demo_sim SERIAL_SEPARATE) [Demo.leaving 2]
    false None None (Some false) None None
  = Some (mkResult Demo.Random
            (set_simRNG Demo.Random (demo_sim SERIAL_SEPARATE)
               (snd (Demo.randomInts 0%N 1)))
            (map (fun c => set_impulse c 0) [Demo.leaving 2]) None []
            (Return false)).
Proof.
  apply (handleCollisionsSerial_nothing_large Demo.body Demo.VX_ Demo.VY_ Demo.VW_
           true Demo.Random Demo.randomInts Demo.compute_forces Demo.checkForceAccel
           Demo.subsetCollisions2 0 (demo_sim SERIAL_SEPARATE) [Demo.leaving 2]
           false None None None None).
  - discriminate.
  - intros [|[|i]]; reflexivity.
Defined.

(** Witness of X23: a unit impulse between the disks increments the
    sequence number of the velocity of disk 2. *)
Lemma applyImpulse_sequence_witness :
  match demo_applyImpulse (demo_sim SIMULTANEOUS) (Demo.disk_on_disk (-1) 1 false) 1
  with
  | (s', Return cd') =>
      sequence (vars Demo.Random s' (Demo.VY_ + getVarsIndex (Demo.body 2%nat))%Z)
      = 1%nat
  | (_, Throw _) => False
  end.
Proof.
  destruct (demo_applyImpulse (demo_sim SIMULTANEOUS)
              (Demo.disk_on_disk (-1) 1 false) 1) as [s' [cd'|e]] eqn:E;
    [|vm_compute in E; discriminate].
  pose proof (proj1 (proj2 (applyImpulse_sequence Demo.body Demo.VX_ Demo.VY_
                              Demo.VW_ Demo.Random (demo_sim SIMULTANEOUS)
                              (Demo.disk_on_disk (-1) 1 false) 1 s' cd' 2%nat
                              Demo_separate_variables (Demo_bodies_in_vars _) E)))
    as H.
  rewrite H. vm_compute in E. injection E as _ <-. reflexivity.
Defined.
